(** * External merge sort (package extsort) and its file heap (package fileheap)

    A shallow embedding of [extsort/extsort.go] and [fileheap/fileheap.go],
    with the line generator [generator/generator.go] and the driver
    [main.go] that uses the three.

    - A record is a byte slice, [list byte].
    - Go's [int] values are [Z] where they can be negative ([memLimit],
      [memUsed], byte counts) and [nat] where the code only counts upward
      from zero (run numbers, slice indices).  Byte counts are sums of
      lengths of slices held in memory, so they stay far below 2^63 and no
      wrap-around is written out.
    - The temporary directory is a finite map from run number to file
      content; the map of open readers [map[int]*bufio.Reader] is a finite
      map from run number to the bytes that reader has not yet delivered.
    - I/O failures are arguments of the operations (which system call
      fails, and with which error value); the operations are otherwise
      pure state transformers over the engine and the outside world.
    - Loops whose termination depends on the caller's chunk function take
      fuel; running out of fuel is the outcome [OutOfFuel]. *)

From Stdlib Require Import ZArith List Sorted Lia String ZifyNat.
From Stdlib Require Import Init.Byte.
From stdpp Require Import gmap list fin_maps sorting.

Local Open Scope Z_scope.

(** [lia] also decides goals with division by a constant. *)
Ltac Zify.zify_post_hook ::= Z.div_mod_to_equations.

Abbreviation bytes := (list byte).

(** Go's [len(b)] as an [int]. *)
Definition len {A} (b : list A) : Z := Z.of_nat (length b).

(** Total number of bytes of a slice of records. *)
Definition sumLen (l : list bytes) : Z := foldr (fun b acc => len b + acc) 0 l.

(** ** Errors *)

(** Go [error] values: [io.EOF], an error handed back by the operating
    system or by the output writer, a run-time panic value, and
    [fmt.Errorf(format, cause)]. *)
Inductive error : Type :=
| EOF
| OsError (what : string)
| RuntimeError (what : string)
| Errorf (format : string) (cause : error).

Definition is_EOF (e : error) : bool :=
  match e with EOF => true | _ => false end.

(** How a call ends: it returns (its [error] result being [nil] or not),
    it panics, or the model's fuel ran out before it ended. *)
Inductive outcome : Type :=
| Returned (err : option error)
| Panicked (v : error)
| OutOfFuel.

(** ** The strategies injected by the caller *)

(** [type Chunk func(io.Reader) ([]byte, error)].  The reader is the bytes
    it has not delivered yet; the function returns Go's pair and what is
    left in the reader. *)
Definition Chunk : Type := bytes -> (bytes * option error) * bytes.

(** [type Less func(a1 []byte, a2 []byte) bool]. *)
Definition Less : Type := bytes -> bytes -> bool.

(** [ordered less a b]: [b] does not come before [a]. *)
Definition ordered (less : Less) (a b : bytes) : Prop := less b a = false.

(** A strict weak ordering, as [sort.Sort] and [container/heap] require of
    their [Less]: asymmetric, and "not before" is transitive. *)
Record StrictWeak (less : Less) : Prop := {
  sw_asym : forall a b, less a b = true -> less b a = false;
  sw_trans : forall a b c, ordered less a b -> ordered less b c -> ordered less a c
}.

(** ** The standard library's [sort.Sort]

    [sort.Sort] is library code (pattern-defeating quicksort in current
    releases).  It is taken by its contract: it only swaps elements, so the
    result is a permutation for every [Less], and the result is ordered
    when [Less] is a strict weak ordering.  Stability is not promised. *)
Class GoSort : Type := {
  sortSlice : Less -> list bytes -> list bytes;
  sortSlice_perm : forall less l, sortSlice less l ≡ₚ l;
  sortSlice_sorted : forall less l,
      StrictWeak less -> Sorted (ordered less) (sortSlice less l)
}.

(** ** Package fileheap *)

Module fileheap.

(** [type Entry struct { FileIdx int; Data []byte }] *)
Record Entry : Type := { FileIdx : nat; Data : bytes }.

(** [type FileHeap struct { entries []*Entry; lessFunc func(...) bool }] *)
Record FileHeap : Type := { entries : list Entry; lessFunc : Less }.

Definition NewHeap (lessFunc : Less) : FileHeap :=
  {| entries := []; lessFunc := lessFunc |}.

Definition NewEntry (fileIdx : nat) (data : bytes) : Entry :=
  {| FileIdx := fileIdx; Data := data |}.

Definition Len (fh : FileHeap) : nat := length (entries fh).

(** [fh.entries[i], fh.entries[j] = fh.entries[j], fh.entries[i]].  An
    index out of range panics in Go; [container/heap] only passes indices
    below [Len], and here the heap is then left as it is. *)
Definition Swap (fh : FileHeap) (i j : nat) : FileHeap :=
  match entries fh !! i, entries fh !! j with
  | Some a, Some b =>
      {| entries := <[i := b]> (<[j := a]> (entries fh)); lessFunc := lessFunc fh |}
  | _, _ => fh
  end.

(** [fh.lessFunc(fh.entries[i].Data, fh.entries[j].Data)] *)
Definition Less (fh : FileHeap) (i j : nat) : bool :=
  match entries fh !! i, entries fh !! j with
  | Some a, Some b => lessFunc fh (Data a) (Data b)
  | _, _ => false
  end.

(** [fh.entries = append(fh.entries, x)] *)
Definition Push (fh : FileHeap) (x : Entry) : FileHeap :=
  {| entries := entries fh ++ [x]; lessFunc := lessFunc fh |}.

(** [e := fh.entries[n-1]; fh.entries = fh.entries[:n-1]; return e].
    On an empty heap Go panics (index out of range): [None]. *)
Definition Pop (fh : FileHeap) : option (Entry * FileHeap) :=
  match last (entries fh) with
  | Some e =>
      Some (e, {| entries := take (length (entries fh) - 1) (entries fh);
                  lessFunc := lessFunc fh |})
  | None => None
  end.

End fileheap.

(** ** The standard library's [container/heap], at [*fileheap.FileHeap]

    [heap.Push] and [heap.Pop] with their helpers [up] and [down], as the
    library has them; their two loops move an index strictly towards the
    root or towards the leaves, so they are given that many steps. *)
Module heap.
Import fileheap.

(** [for { i := (j - 1) / 2; if i == j || !h.Less(j, i) { break };
          h.Swap(i, j); j = i }] *)
Fixpoint up (steps : nat) (h : FileHeap) (j : nat) : FileHeap :=
  match steps with
  | O => h
  | S steps =>
      let i := ((j - 1) / 2)%nat in
      if (i =? j)%nat || negb (Less h j i) then h
      else up steps (Swap h i j) i
  end.

(** [for { j1 := 2*i + 1; if j1 >= n { break }; j := j1;
          if j2 := j1 + 1; j2 < n && h.Less(j2, j1) { j = j2 };
          if !h.Less(j, i) { break }; h.Swap(i, j); i = j }] *)
Fixpoint down (steps : nat) (h : FileHeap) (i n : nat) : FileHeap :=
  match steps with
  | O => h
  | S steps =>
      let j1 := (2 * i + 1)%nat in
      if (n <=? j1)%nat then h
      else
        let j2 := (j1 + 1)%nat in
        let j := if (j2 <? n)%nat && Less h j2 j1 then j2 else j1 in
        if negb (Less h j i) then h
        else down steps (Swap h i j) j n
  end.

(** [h.Push(x); up(h, h.Len()-1)] *)
Definition Push (h : FileHeap) (x : Entry) : FileHeap :=
  let h1 := fileheap.Push h x in
  up (Len h1) h1 (Len h1 - 1).

(** [n := h.Len() - 1; h.Swap(0, n); down(h, 0, n); return h.Pop()] *)
Definition Pop (h : FileHeap) : option (Entry * FileHeap) :=
  let n := (Len h - 1)%nat in
  let h1 := Swap h 0 n in
  fileheap.Pop (down (Len h) h1 0 n).

End heap.

(** ** Package extsort *)

Module extsort.

Definition memoryBufferFlushErr : string :=
  "cannot flush memory buffer to temp file: %s".

(** The engine's mutable fields.  [tmpDir] names the directory held in
    [World]; [chunkFunc] and [lessFunc] are set by [New] and never
    assigned again, they are the variables of the section below; [out]
    is the writer held in [World]. *)
Record sortEngine : Type := {
  memLimit : Z;
  memUsed : Z;
  tmpFilesNumber : nat;
  memoryBuffer : list bytes
}.

(** What the engine acts on: its temporary directory (whether it exists,
    and the content of the files named 0, 1, 2, ... in it) and the
    output writer (the bytes it has received, whether it is an
    [io.Closer], how often it has been closed). *)
Record World : Type := {
  tmpDirExists : bool;
  tmpFiles : gmap nat bytes;
  outWritten : bytes;
  outIsCloser : bool;
  outClosed : nat
}.

Definition setTmpFiles (fs : gmap nat bytes) (w : World) : World :=
  {| tmpDirExists := tmpDirExists w; tmpFiles := fs;
     outWritten := outWritten w; outIsCloser := outIsCloser w;
     outClosed := outClosed w |}.

(** The engine [New] builds, and the world it then lives in: a fresh,
    empty directory and an output writer that has received nothing. *)
Definition fresh (outIsCloser : bool) (memLimit : Z) : sortEngine * World :=
  ({| memLimit := memLimit; memUsed := 0; tmpFilesNumber := 0;
      memoryBuffer := [] |},
   {| tmpDirExists := true; tmpFiles := ∅; outWritten := [];
      outIsCloser := outIsCloser; outClosed := 0 |}).

(** [New]: [ioutil.TempDir] either fails, and no engine is made, or hands
    back the fresh directory. *)
Definition New (tempDirErr : option error) (outIsCloser : bool) (memLimit : Z)
  : error + (sortEngine * World) :=
  match tempDirErr with
  | Some tmpDirCreationErr =>
      inl (Errorf "cannot create working directory to store temp files: %s"
             tmpDirCreationErr)
  | None => inr (fresh outIsCloser memLimit)
  end.

(** Which step of a spill fails: creating the run's file, the write of
    the record at position [k] of the sorted buffer, or the final flush.
    The writes go through a [bufio.Writer], whose error sticks: a failure
    that no write of the loop reports ([k] past the last record) is
    reported by the flush.  [persisted] is the number of bytes that had
    reached the file. *)
Inductive SpillFault : Type :=
| CreateFails (e : error)
| WriteFails (k : nat) (persisted : nat) (e : error)
| FlushFails (persisted : nat) (e : error).

(** Writing [new] from offset 0 into a file opened with
    [O_CREATE|O_WRONLY] (no truncation) whose content was [old]. *)
Definition overwrite (old new : bytes) : bytes :=
  new ++ drop (length new) old.

Definition fileContent (w : World) (name : nat) : bytes :=
  default [] (tmpFiles w !! name).

(** [removeTempFiles], without its two messages on standard output:
    [os.RemoveAll(se.tmpDir)], for which a directory that is not there is
    not an error.  On failure the function panics with the value returned
    here. *)
Definition removeTempFiles (removeErr : option error) (w : World)
  : option error * World :=
  match removeErr with
  | Some err => (Some (Errorf "cannot remove temp files in %s: %s\n" err), w)
  | None =>
      (None, {| tmpDirExists := false; tmpFiles := ∅;
                outWritten := outWritten w; outIsCloser := outIsCloser w;
                outClosed := outClosed w |})
  end.

(** The output writer after it has received [b]. *)
Definition appendOut (w : World) (b : bytes) : World :=
  {| tmpDirExists := tmpDirExists w; tmpFiles := tmpFiles w;
     outWritten := outWritten w ++ b; outIsCloser := outIsCloser w;
     outClosed := outClosed w |}.

(** [se.out.Write(b)]: [sinkFail = Some (k, e)] makes the writer accept
    [k] more calls and then fail with [e]. *)
Definition outWrite (sinkFail : option (nat * error)) (b : bytes) (w : World)
  : option error * option (nat * error) * World :=
  match sinkFail with
  | Some (O, e) => (Some e, sinkFail, w)
  | Some (S k, e) => (None, Some (k, e), appendOut w b)
  | None => (None, None, appendOut w b)
  end.

Section Engine.
Context `{GoSort}.
Variable chunkFunc : Chunk.
Variable lessFunc : Less.

(** [flushToTempFile].  [sort.Sort] works in place, so the buffer stays
    sorted when a later step fails.  Opening the file fails when the
    directory is gone. *)
Definition flushToTempFile (fault : option SpillFault) (se : sortEngine) (w : World)
  : option error * sortEngine * World :=
  let sorted := sortSlice lessFunc (memoryBuffer se) in
  let se1 := {| memLimit := memLimit se; memUsed := memUsed se;
                tmpFilesNumber := tmpFilesNumber se; memoryBuffer := sorted |} in
  let name := tmpFilesNumber se in
  let failed (format : string) (e : error) (persisted : option nat) :=
    (Some (Errorf format e), se1,
     match persisted with
     | None => w
     | Some p =>
         setTmpFiles
           (<[name := overwrite (fileContent w name) (take p (concat sorted))]>
              (tmpFiles w)) w
     end) in
  if negb (tmpDirExists w) then
    failed "cannot create temp file to flush memory buffer: %s\n"%string
      (OsError "no such file or directory") None
  else
    match fault with
    | Some (CreateFails e) =>
        failed "cannot create temp file to flush memory buffer: %s\n"%string e None
    | Some (WriteFails k persisted e) =>
        if (k <? length sorted)%nat then
          failed "cannot write to temp file: %s\n"%string e (Some persisted)
        else
          failed "cannot flush to temp file: %s\n"%string e (Some persisted)
    | Some (FlushFails persisted e) =>
        failed "cannot flush to temp file: %s\n"%string e (Some persisted)
    | None =>
        (None,
         {| memLimit := memLimit se; memUsed := 0;
            tmpFilesNumber := S (tmpFilesNumber se); memoryBuffer := [] |},
         setTmpFiles
           (<[name := overwrite (fileContent w name) (concat sorted)]>
              (tmpFiles w)) w)
    end.

(** [Write]: append, count, spill when the count has reached the limit. *)
Definition Write (fault : option SpillFault) (b : bytes) (se : sortEngine) (w : World)
  : (Z * option error) * sortEngine * World :=
  let se1 := {| memLimit := memLimit se; memUsed := memUsed se + len b;
                tmpFilesNumber := tmpFilesNumber se;
                memoryBuffer := memoryBuffer se ++ [b] |} in
  if memLimit se1 <=? memUsed se1 then
    match flushToTempFile fault se1 w with
    | (Some flushErr, se2, w2) =>
        ((0, Some (Errorf memoryBufferFlushErr flushErr)), se2, w2)
    | (None, se2, w2) => ((len b, None), se2, w2)
    end
  else ((len b, None), se1, w).

(** *** The merge: [sort] *)

(** The state the closures of [sort] share: the map of open readers
    and the heap. *)
Record MergeState : Type := {
  files : gmap nat bytes;
  fileHeap : fileheap.FileHeap
}.

(** [se.chunkFunc(file)] where [file] is the nil [*bufio.Reader] a map
    lookup of an absent key yields: reading through it dereferences
    nil. *)
Definition nilReader : error :=
  RuntimeError "invalid memory address or nil pointer dereference".

(** The inner loop of [fillHeap] for the reader [file] of run [i]:
    chunk, stop at EOF (deleting the reader) or once [readBytes] has
    reached [memLimitPerFile]. *)
Fixpoint fillFromFile (fuel : nat) (memLimitPerFile : Z) (i : nat)
    (file : bytes) (readBytes : Z) (st : MergeState) : outcome * MergeState :=
  match fuel with
  | O => (OutOfFuel, st)
  | S fuel =>
      let '((b, chunkFileErr), rest) := chunkFunc file in
      match chunkFileErr with
      | Some e =>
          if is_EOF e then
            (Returned None,
             {| files := delete i (files st); fileHeap := fileHeap st |})
          else
            (Returned (Some (Errorf "cannot chunk file: %s\n" e)),
             {| files := <[i := rest]> (files st); fileHeap := fileHeap st |})
      | None =>
          let readBytes := readBytes + len b in
          let st1 := {| files := <[i := rest]> (files st);
                        fileHeap := heap.Push (fileHeap st) (fileheap.NewEntry i b) |} in
          if memLimitPerFile <=? readBytes then (Returned None, st1)
          else fillFromFile fuel memLimitPerFile i rest readBytes st1
      end
  end.

(** [fillHeap], from index [i] on:
    [for i := 0; i < len(files); i++ { file := files[i]; ... }].
    [len(files)] is read again at every turn. *)
Fixpoint fillHeapFrom (fuel : nat) (memLimitPerFile : Z) (i : nat)
    (st : MergeState) : outcome * MergeState :=
  match fuel with
  | O => (OutOfFuel, st)
  | S fuel =>
      if (i <? size (files st))%nat then
        match files st !! i with
        | None => (Panicked nilReader, st)
        | Some file =>
            match fillFromFile fuel memLimitPerFile i file 0 st with
            | (Returned None, st1) => fillHeapFrom fuel memLimitPerFile (S i) st1
            | stopped => stopped
            end
        end
      else (Returned None, st)
  end.

Definition fillHeap (fuel : nat) (memLimitPerFile : Z) (st : MergeState)
  : outcome * MergeState :=
  fillHeapFrom fuel memLimitPerFile 0 st.

(** The [for] loop of [sort]. *)
Fixpoint mergeLoop (fuel : nat) (memLimitPerFile : Z)
    (sinkFail : option (nat * error)) (st : MergeState) (w : World)
  : outcome * MergeState * World :=
  match fuel with
  | O => (OutOfFuel, st, w)
  | S fuel =>
      let '(filled, st1) :=
        if (fileheap.Len (fileHeap st) =? 0)%nat
        then fillHeap fuel memLimitPerFile st
        else (Returned None, st) in
      match filled with
      | Returned None =>
          if (fileheap.Len (fileHeap st1) =? 0)%nat then (Returned None, st1, w)
          else
            match heap.Pop (fileHeap st1) with
            | None => (Panicked (RuntimeError "index out of range"), st1, w)
            | Some (heapEntry, fh) =>
                let st2 := {| files := files st1; fileHeap := fh |} in
                match outWrite sinkFail (fileheap.Data heapEntry) w with
                | (Some writeErr, _, w1) =>
                    (Returned (Some (Errorf
                       "cannot write heap entry data to result output: %s\n"
                       writeErr)), st2, w1)
                | (None, sinkFail1, w1) =>
                    let idx := fileheap.FileIdx heapEntry in
                    match files st2 !! idx with
                    | None => mergeLoop fuel memLimitPerFile sinkFail1 st2 w1
                    | Some file =>
                        let '((b, err), rest) := chunkFunc file in
                        match err with
                        | Some e =>
                            if is_EOF e then
                              mergeLoop fuel memLimitPerFile sinkFail1
                                {| files := delete idx (files st2); fileHeap := fh |} w1
                            else
                              (Returned (Some (Errorf
                                 "error replacing entry on heap: %s\n" e)),
                               {| files := <[idx := rest]> (files st2);
                                  fileHeap := fh |}, w1)
                        | None =>
                            mergeLoop fuel memLimitPerFile sinkFail1
                              {| files := <[idx := rest]> (files st2);
                                 fileHeap := heap.Push fh (fileheap.NewEntry idx b) |}
                              w1
                        end
                    end
                end
            end
      | Returned (Some fillHeapErr) =>
          (Returned (Some (Errorf "cannot fill heap: %s\n" fillHeapErr)),
           st1, w)
      | stopped => (stopped, st1, w)
      end
  end.

(** A deferred [se.removeTempFiles()] running as the function leaves
    with outcome [r]: a failed removal panics, whatever [r] was.  A
    function that never leaves does not run it. *)
Definition deferredRemoveTempFiles (removeErr : option error)
    (r : outcome) (w : World) : outcome * World :=
  match r with
  | OutOfFuel => (OutOfFuel, w)
  | _ =>
      match removeTempFiles removeErr w with
      | (Some v, w1) => (Panicked v, w1)
      | (None, w1) => (r, w1)
      end
  end.

(** [sort]: the per-run budget, the merge loop, and the deferred
    removal of the directory. *)
Definition sort (fuel : nat) (sinkFail : option (nat * error))
    (removeErr : option error) (se : sortEngine) (files : gmap nat bytes)
    (w : World) : outcome * World :=
  let memLimitPerFile := Z.quot (memLimit se) (Z.of_nat (tmpFilesNumber se) + 1) in
  let '(r, _, w1) :=
    mergeLoop fuel memLimitPerFile sinkFail
      {| files := files; fileHeap := fileheap.NewHeap lessFunc |} w in
  deferredRemoveTempFiles removeErr r w1.

(** *** [Close] *)

(** What can fail during one [Close]. *)
Record CloseFaults : Type := {
  spillFault : option SpillFault;       (* the flush of the remainder *)
  openFault : option (nat * error);     (* opening run [i] for reading *)
  sinkFault : option (nat * error);     (* the output writer *)
  sinkCloseErr : option error;          (* [c.Close()] of the output *)
  sortRemoveErr : option error;         (* [os.RemoveAll] deferred by [sort] *)
  closeRemoveErr : option error         (* [os.RemoveAll] deferred by [Close] *)
}.

Definition noFaults : CloseFaults :=
  {| spillFault := None; openFault := None; sinkFault := None;
     sinkCloseErr := None; sortRemoveErr := None; closeRemoveErr := None |}.

(** Lines 80-89: flush what is left when [memUsed > 0], then drop the
    buffer. *)
Definition flushRemainder (fault : option SpillFault) (se : sortEngine) (w : World)
  : option error * sortEngine * World :=
  let '(err, se1, w1) :=
    if 0 <? memUsed se then flushToTempFile fault se w else (None, se, w) in
  match err with
  | Some e => (Some (Errorf memoryBufferFlushErr e), se1, w1)
  | None =>
      (None,
       {| memLimit := memLimit se1; memUsed := memUsed se1;
          tmpFilesNumber := tmpFilesNumber se1; memoryBuffer := [] |}, w1)
  end.

(** Lines 91-99: open the runs 0 .. tmpFilesNumber-1 for reading. *)
Fixpoint openTmpFiles (fault : option (nat * error)) (w : World)
    (count i : nat) (files : gmap nat bytes) : error + gmap nat bytes :=
  match count with
  | O => inr files
  | S count =>
      let opened :=
        match fault with
        | Some (k, e) => if (k =? i)%nat then inl e else inr (tmpFiles w !! i)
        | None => inr (tmpFiles w !! i)
        end in
      match opened with
      | inl openTmpFileErr =>
          inl (Errorf "cannot open temp file: %s\n" openTmpFileErr)
      | inr None =>
          inl (Errorf "cannot open temp file: %s\n"
                 (OsError "no such file or directory"))
      | inr (Some content) =>
          openTmpFiles fault w count (S i) (<[i := content]> files)
      end
  end.

(** Lines 114-120: close the output when it is an [io.Closer]. *)
Definition closeOut (closeErr : option error) (w : World) : option error * World :=
  if outIsCloser w then
    (closeErr,
     {| tmpDirExists := tmpDirExists w; tmpFiles := tmpFiles w;
        outWritten := outWritten w; outIsCloser := outIsCloser w;
        outClosed := S (outClosed w) |})
  else (None, w).

(** Lines 91-120: open the runs, copy the single run or merge them,
    close the output. *)
Definition mergeRuns (fuel : nat) (f : CloseFaults) (se : sortEngine) (w : World)
  : outcome * World :=
  match openTmpFiles (openFault f) w (tmpFilesNumber se) 0 ∅ with
  | inl err => (Returned (Some err), w)
  | inr files =>
      let '(r, w1) :=
        if (tmpFilesNumber se =? 1)%nat then
          (* io.Copy(se.out, files[0]) *)
          match outWrite (sinkFault f) (default [] (files !! 0%nat)) w with
          | (Some copyErr, _, w1) =>
              (Returned (Some (Errorf
                 "cannot write temp file content to output: %s\n"
                 copyErr)), w1)
          | (None, _, w1) => (Returned None, w1)
          end
        else
          match sort fuel (sinkFault f) (sortRemoveErr f) se files w with
          | (Returned (Some sortErr), w1) =>
              (Returned (Some (Errorf "cannot sort temp files: %s\n"
                                 sortErr)), w1)
          | other => other
          end in
      match r with
      | Returned None =>
          let '(err, w2) := closeOut (sinkCloseErr f) w1 in
          (Returned err, w2)
      | _ => (r, w1)
      end
  end.

(** The body of [Close], before its deferred call. *)
Definition closeBody (fuel : nat) (f : CloseFaults) (se : sortEngine) (w : World)
  : outcome * sortEngine * World :=
  match flushRemainder (spillFault f) se w with
  | (Some err, se1, w1) => (Returned (Some err), se1, w1)
  | (None, se1, w1) =>
      let '(r, w2) := mergeRuns fuel f se1 w1 in (r, se1, w2)
  end.

(** [Close]: [defer se.removeTempFiles()] around the body. *)
Definition Close (fuel : nat) (f : CloseFaults) (se : sortEngine) (w : World)
  : outcome * sortEngine * World :=
  let '(r, se1, w1) := closeBody fuel f se w in
  let '(r1, w2) := deferredRemoveTempFiles (closeRemoveErr f) r w1 in
  (r1, se1, w2).

(** Writing the records [rs] one after the other, nothing failing. *)
Definition writeAll (rs : list bytes) (sw : sortEngine * World)
  : sortEngine * World :=
  foldl (fun sw b => let '(_, se, w) := Write None b sw.1 sw.2 in (se, w)) sw rs.

End Engine.

(** [type fileChunkInMemoryRepresentation struct { memoryBuffer [][]byte;
    lessFunc func(a []byte, b []byte) bool }], the [sort.Interface] that
    [flushToTempFile] hands to [sort.Sort].  An index out of range panics
    in Go; [sort.Sort] only passes indices below [Len], and here the
    buffer is then left as it is. *)
Module fileChunkInMemoryRepresentation.

Record t : Type := { memoryBuffer : list bytes; lessFunc : Less }.

Definition Len (fc : t) : nat := length (memoryBuffer fc).

(** [fc.lessFunc(fc.memoryBuffer[i], fc.memoryBuffer[j])] *)
Definition Less (fc : t) (i j : nat) : bool :=
  match memoryBuffer fc !! i, memoryBuffer fc !! j with
  | Some a, Some b => lessFunc fc a b
  | _, _ => false
  end.

(** [fc.memoryBuffer[i], fc.memoryBuffer[j] =
     fc.memoryBuffer[j], fc.memoryBuffer[i]] *)
Definition Swap (fc : t) (i j : nat) : t :=
  match memoryBuffer fc !! i, memoryBuffer fc !! j with
  | Some a, Some b =>
      {| memoryBuffer := <[i := b]> (<[j := a]> (memoryBuffer fc));
         lessFunc := lessFunc fc |}
  | _, _ => fc
  end.

End fileChunkInMemoryRepresentation.

End extsort.

(** ** The standard library's insertion sort, at
       [*fileChunkInMemoryRepresentation]

    [insertionSort(data, a, b)] of package [sort], which [sort.Sort] runs
    on slices of at most 12 elements:
    [for i := a + 1; i < b; i++ {
       for j := i; j > a && data.Less(j, j-1); j-- { data.Swap(j, j-1) } }].
    The inner loop moves [j] down to [a] at most, the outer one runs
    [b - (a + 1)] times. *)
Module sortpkg.
Import extsort.fileChunkInMemoryRepresentation.

Fixpoint sink (steps : nat) (data : t) (a j : nat) : t :=
  match steps with
  | O => data
  | S steps =>
      if (a <? j)%nat && Less data j (j - 1)
      then sink steps (Swap data j (j - 1)) a (j - 1)%nat
      else data
  end.

Fixpoint insertionSortFrom (count : nat) (data : t) (a i : nat) : t :=
  match count with
  | O => data
  | S count => insertionSortFrom count (sink (i - a) data a i) a (S i)
  end.

Definition insertionSort (data : t) (a b : nat) : t :=
  insertionSortFrom (b - (a + 1)) data a (a + 1).

End sortpkg.

(** ** Package generator *)

Module generator.

Definition defaultDictionary : bytes :=
  list_byte_of_string
    "0123456789abcdefghijklmnopqrstuvwxyzABCDEFGHIJKLMNOPQRSTUVWXYZ".

Definition writeErr : string := "cannot write randomly generated string: %s".

(** [type randomStringGenerator struct].  A rune is an [int32]; [out] is
    the writer, held outside as the bytes it has received. *)
Record randomStringGenerator : Type := {
  linesNumber : Z;
  lineLength : Z;
  linesDelim : Z;
  dictionary : bytes
}.

(** [New]: an empty dictionary is replaced by the default one. *)
Definition New (dictionary : bytes) (linesNumber linesLength : Z) (delimiter : Z)
  : randomStringGenerator :=
  let d := match dictionary with [] => defaultDictionary | _ => dictionary end in
  {| linesNumber := linesNumber; lineLength := linesLength;
     linesDelim := delimiter; dictionary := d |}.

(** The values [rand.Int63()] returns, in the order of the calls: call
    number [k] returns [Int63 src k], a non-negative 63-bit integer,
    whatever the source [src]. *)
Definition Int63 (src : nat -> Z) (k : nat) : Z := src k mod 2 ^ 63.

(** [dictionary[v % int64(len(dictionary))]].  With an empty dictionary
    the division panics. *)
Definition pick (dictionary : bytes) (v : Z) : error + byte :=
  if len dictionary =? 0 then inl (RuntimeError "integer divide by zero")
  else
    match dictionary !! Z.to_nat (Z.rem v (len dictionary)) with
    | Some c => inr c
    | None => inl (RuntimeError "index out of range")
    end.

(** [for i := range b { b[i] = dictionary[rand.Int63() % ...] }], the
    first of the [n] calls of [rand.Int63] being call number [pos]. *)
Fixpoint fill (dictionary : bytes) (src : nat -> Z) (pos n : nat) : error + bytes :=
  match n with
  | O => inr []
  | S n =>
      match pick dictionary (Int63 src pos) with
      | inl v => inl v
      | inr c =>
          match fill dictionary src (S pos) n with
          | inl v => inl v
          | inr b => inr (c :: b)
          end
      end
  end.

(** [generateRandomString]: [make([]byte, length)] panics on a negative
    length.  [inl] is the value of a panic. *)
Definition generateRandomString (dictionary : bytes) (length : Z)
    (src : nat -> Z) (pos : nat) : error + bytes :=
  if length <? 0 then inl (RuntimeError "makeslice: len out of range")
  else fill dictionary src pos (Z.to_nat length).

(** [byte(x)]: the low eight bits. *)
Definition toByte (x : Z) : byte :=
  default x00 (Byte.of_N (Z.to_N (x mod 256))).

(** [utf8.EncodeRune], which [bufio.Writer.WriteRune] applies to the
    rune: one byte below 128, otherwise two to four; a rune that is not a
    Unicode scalar value is written as U+FFFD. *)
Definition EncodeRune (r : Z) : bytes :=
  let i := r mod 2 ^ 32 in
  let tx (x : Z) := toByte (Z.lor 128 (Z.land (x mod 256) 63)) in
  let three (r : Z) :=
    [toByte (Z.lor 224 (Z.shiftr r 12 mod 256)); tx (Z.shiftr r 6); tx r] in
  if i <=? 127 then [toByte r]
  else if i <=? 2047 then [toByte (Z.lor 192 (Z.shiftr r 6 mod 256)); tx r]
  else if (1114111 <? i) || ((55296 <=? i) && (i <=? 57343)) then three 65533
  else if i <=? 65535 then three r
  else [toByte (Z.lor 240 (Z.shiftr r 18 mod 256));
        tx (Z.shiftr r 12); tx (Z.shiftr r 6); tx r].

(** A failure of the writer under the [bufio.Writer]: the call number
    [call] of the loop ([Write] and [WriteRune] alternate, counted from 0)
    is the first one to report the error [e], [persisted] bytes having
    reached the writer.  When the loop has fewer calls than that, only
    the deferred [Flush] meets the error. *)
Inductive SinkFault : Type :=
| FailsAt (call persisted : nat) (e : error).

Definition reports (fault : option SinkFault) (call : nat) : option error :=
  match fault with
  | Some (FailsAt k _ e) => if (k =? call)%nat then Some e else None
  | None => None
  end.

(** The loop of [Generate], [count] lines to go; [handed] is what the
    buffered writer has been given so far. *)
Fixpoint generateLines (count call : nat) (g : randomStringGenerator)
    (src : nat -> Z) (pos : nat) (fault : option SinkFault) (handed : bytes)
  : outcome * bytes :=
  match count with
  | O => (Returned None, handed)
  | S count =>
      match generateRandomString (dictionary g) (lineLength g) src pos with
      | inl v => (Panicked v, handed)
      | inr s =>
          match reports fault call with
          | Some err => (Returned (Some (Errorf writeErr err)), handed ++ s)
          | None =>
              let delim := EncodeRune (linesDelim g) in
              match reports fault (S call) with
              | Some err =>
                  (Returned (Some (Errorf writeErr err)), handed ++ s ++ delim)
              | None =>
                  generateLines count (S (S call)) g src
                    (pos + Z.to_nat (lineLength g)) fault (handed ++ s ++ delim)
              end
          end
      end
  end.

(** [Generate]: the loop, then the deferred [w.Flush()], whose result is
    dropped.  The result is how the call ends and what the writer has
    received. *)
Definition Generate (g : randomStringGenerator) (src : nat -> Z) (pos : nat)
    (fault : option SinkFault) : outcome * bytes :=
  let '(r, handed) :=
    generateLines (Z.to_nat (linesNumber g)) 0 g src pos fault [] in
  (r, match fault with
      | None => handed
      | Some (FailsAt _ persisted _) => take persisted handed
      end).

End generator.

(** ** The configuration of the demonstration driver ([main.go]) *)

Module demo.

(** [bufio.Reader.ReadBytes(delim)]: the bytes up to and including the
    first [delim]; when the reader ends first, the bytes read so far
    together with [io.EOF]. *)
Fixpoint ReadBytes (delim : byte) (r : bytes) : (bytes * option error) * bytes :=
  match r with
  | [] => (([], Some EOF), [])
  | c :: r1 =>
      if Byte.eqb c delim then (([c], None), r1)
      else
        let '((line, err), rest) := ReadBytes delim r1 in
        ((c :: line, err), rest)
  end.

Definition linesDelim : byte := x0a.

(** [chunkFunc := func(r io.Reader) ([]byte, error) {
      reader := bufio.NewReader(r); return reader.ReadBytes(byte(linesDelim)) }] *)
Definition chunkFunc : Chunk := ReadBytes linesDelim.

(** [bytes.Compare(b1, b2) < 0]: lexicographic order on unsigned bytes. *)
Fixpoint bytesLess (b1 b2 : bytes) : bool :=
  match b1, b2 with
  | [], [] => false
  | [], _ :: _ => true
  | _ :: _, [] => false
  | c1 :: r1, c2 :: r2 =>
      if (Byte.to_N c1 <? Byte.to_N c2)%N then true
      else if (Byte.to_N c2 <? Byte.to_N c1)%N then false
      else bytesLess r1 r2
  end.

Definition lessFunc : Less := bytesLess.

(** A line of text as a record: its bytes and the delimiter. *)
Definition line (s : string) : bytes := list_byte_of_string s ++ [linesDelim].

(** The insertion sort [sort.Sort] runs on short slices:
    [for i := a + 1; i < b; i++ {
       for j := i; j > a && data.Less(j, j-1); j-- { data.Swap(j, j-1) } }].
    [sinkLeft less x rp] moves [x] to the left through the sorted prefix,
    which is held last element first. *)
Fixpoint sinkLeft (less : Less) (x : bytes) (rp : list bytes) : list bytes :=
  match rp with
  | [] => [x]
  | y :: rp1 => if less x y then y :: sinkLeft less x rp1 else x :: rp
  end.

Definition insertionSort (less : Less) (l : list bytes) : list bytes :=
  rev (foldl (fun rp x => sinkLeft less x rp) [] l).

(** *** The constants of [main.go] *)

(** [mb = 10 ^ 6]: in Go [^] is the bitwise exclusive or. *)
Definition mb : Z := Z.lxor 10 6.
Definition memLimit : Z := 10 * mb.
Definition lineLength : Z := 30.
Definition linesNumber : Z := 1000000.

(** How [fmt] renders a nil error under [%s]. *)
Definition nilError : error := OsError "%!s(<nil>)".

(** [generateLargeFile]: the file is opened with [O_CREATE|O_WRONLY] (no
    truncation), [old] being what it held; the result is how the call
    ends and what the file holds then.  When [Generate] fails, the panic
    value is built from [fileCreationErr], which is nil at that point. *)
Definition generateLargeFile (createErr : option error) (src : nat -> Z)
    (fault : option generator.SinkFault) (old : bytes) : outcome * bytes :=
  match createErr with
  | Some fileCreationErr =>
      (Panicked (Errorf "cannot create %s: %s" fileCreationErr), old)
  | None =>
      let g := generator.New [] linesNumber lineLength (Z.of_N (Byte.to_N linesDelim)) in
      match generator.Generate g src 0 fault with
      | (Returned None, written) => (Returned None, extsort.overwrite old written)
      | (Returned (Some _), written) =>
          (Panicked (Errorf "cannot generate %s: %s" nilError),
           extsort.overwrite old written)
      | (stopped, written) => (stopped, extsort.overwrite old written)
      end
  end.

Section Driver.
Context `{GoSort}.

(** The loop of [sortLargeFile] over the input file, [reader] being what
    is left of it: read up to the delimiter, write what was read, and only
    then look at the error of the read. *)
Fixpoint readLines (fuel : nat) (reader : bytes)
    (se : extsort.sortEngine) (w : extsort.World)
  : outcome * extsort.sortEngine * extsort.World :=
  match fuel with
  | O => (OutOfFuel, se, w)
  | S fuel =>
      let '((line, readErr), rest) := ReadBytes linesDelim reader in
      match extsort.Write lessFunc None line se w with
      | ((_, Some writeErr), se1, w1) =>
          (Panicked (Errorf "cannot write to %s: %s" writeErr), se1, w1)
      | ((_, None), se1, w1) =>
          match readErr with
          | None => readLines fuel rest se1 w1
          | Some e =>
              if is_EOF e then (Returned None, se1, w1)
              else (Panicked (Errorf "cannot read from %s: %s" e), se1, w1)
          end
      end
  end.




End Driver.

End demo.

(** * The vocabulary of the properties *)

(** ** Records and the chunk function *)

(** The chunk function gives a record back when it is read from the front
    of a stream: the caller has framed it. *)
Definition framed (chunkFunc : Chunk) (r : bytes) : Prop :=
  forall rest, chunkFunc (r ++ rest) = ((r, None), rest).

(** At the end of a stream the chunk function reports [io.EOF]. *)
Definition eofAtEnd (chunkFunc : Chunk) : Prop :=
  exists b rest, chunkFunc [] = ((b, Some EOF), rest).

(** The records of a byte stream, as the chunk function delimits them:
    chunk until something other than a record comes back.  A stream of
    [n] bytes is given [n + 1] turns. *)
Fixpoint unchunk (chunkFunc : Chunk) (fuel : nat) (s : bytes) : list bytes :=
  match fuel with
  | O => []
  | S fuel =>
      match chunkFunc s with
      | ((b, None), rest) => b :: unchunk chunkFunc fuel rest
      | _ => []
      end
  end.

Definition recordsOf (chunkFunc : Chunk) (out : bytes) : list bytes :=
  unchunk chunkFunc (S (length out)) out.

(** A whole use of the engine, nothing failing: [New], one [Write] per
    record of [rs], [Close]. *)
Definition sortRecords `{GoSort} (chunkFunc : Chunk) (lessFunc : Less)
    (fuel : nat) (outIsCloser : bool) (memLimit : Z) (rs : list bytes)
  : outcome * extsort.sortEngine * extsort.World :=
  let sw := extsort.writeAll lessFunc rs (extsort.fresh outIsCloser memLimit) in
  extsort.Close chunkFunc lessFunc fuel extsort.noFaults sw.1 sw.2.

(** [ceil(a / b)] for positive [b]. *)
Definition ceilDiv (a b : Z) : Z := (a + b - 1) / b.

(** The engine once [b] has been appended and counted, before [Write]
    looks at the limit. *)
Definition accepted (b : bytes) (se : extsort.sortEngine) : extsort.sortEngine :=
  {| extsort.memLimit := extsort.memLimit se;
     extsort.memUsed := extsort.memUsed se + len b;
     extsort.tmpFilesNumber := extsort.tmpFilesNumber se;
     extsort.memoryBuffer := extsort.memoryBuffer se ++ [b] |}.

(** The faults of a [Close] in which only the last removal fails. *)
Definition removalFails (e : error) : extsort.CloseFaults :=
  {| extsort.spillFault := None; extsort.openFault := None;
     extsort.sinkFault := None; extsort.sinkCloseErr := None;
     extsort.sortRemoveErr := None; extsort.closeRemoveErr := Some e |}.

(** The operations a caller has. *)
Inductive operation : Type :=
| DoWrite (fault : option extsort.SpillFault) (b : bytes)
| DoClose (fuel : nat) (f : extsort.CloseFaults).

Definition perform `{GoSort} (chunkFunc : Chunk) (lessFunc : Less)
    (sw : extsort.sortEngine * extsort.World) (o : operation)
  : extsort.sortEngine * extsort.World :=
  match o with
  | DoWrite fault b =>
      ((extsort.Write lessFunc fault b sw.1 sw.2).1.2,
       (extsort.Write lessFunc fault b sw.1 sw.2).2)
  | DoClose fuel f =>
      ((extsort.Close chunkFunc lessFunc fuel f sw.1 sw.2).1.2,
       (extsort.Close chunkFunc lessFunc fuel f sw.1 sw.2).2)
  end.

(** The counter is the number of bytes the buffer holds. *)
Definition counterMatchesBuffer (se : extsort.sortEngine) : Prop :=
  extsort.memUsed se = sumLen (extsort.memoryBuffer se).

(** ** The heap as a sorting device *)

(** [heap.Push] of the entries [es], one after the other. *)
Definition pushAll (h : fileheap.FileHeap) (es : list fileheap.Entry)
  : fileheap.FileHeap := foldl heap.Push h es.

(** [n] times [heap.Pop], the entries in the order they came out. *)
Fixpoint popAll (n : nat) (h : fileheap.FileHeap)
  : option (list fileheap.Entry * fileheap.FileHeap) :=
  match n with
  | O => Some ([], h)
  | S n =>
      match heap.Pop h with
      | None => None
      | Some (e, h1) =>
          match popAll n h1 with
          | None => None
          | Some (es, h2) => Some (e :: es, h2)
          end
      end
  end.

Definition entryOrdered (less : Less) (a b : fileheap.Entry) : Prop :=
  ordered less (fileheap.Data a) (fileheap.Data b).

(** ** The world around the engine *)

(** [w1] is [w] but for bytes appended to the output. *)
Definition outputExtended (w w1 : extsort.World) : Prop :=
  extsort.tmpDirExists w1 = extsort.tmpDirExists w /\
  extsort.tmpFiles w1 = extsort.tmpFiles w /\
  extsort.outIsCloser w1 = extsort.outIsCloser w /\
  extsort.outClosed w1 = extsort.outClosed w /\
  exists suffix, extsort.outWritten w1 = extsort.outWritten w ++ suffix.

(** The output writer of [w1] is the one of [w], closed as often, with
    bytes appended. *)
Definition sinkExtended (w w1 : extsort.World) : Prop :=
  extsort.outIsCloser w1 = extsort.outIsCloser w /\
  extsort.outClosed w1 = extsort.outClosed w /\
  exists suffix, extsort.outWritten w1 = extsort.outWritten w ++ suffix.

(** [w1] holds the files of [w], or none. *)
Definition filesKept (w w1 : extsort.World) : Prop :=
  extsort.tmpFiles w1 = extsort.tmpFiles w \/ extsort.tmpFiles w1 = ∅.

(** No file of the directory is numbered above the next run, and the file
    numbered as the next run, which a spill that failed half-way leaves
    behind, is no longer than the buffer. *)
Definition noStaleBytes (se : extsort.sortEngine) (w : extsort.World) : Prop :=
  counterMatchesBuffer se /\
  (forall i c, extsort.tmpFiles w !! i = Some c ->
     (i <= extsort.tmpFilesNumber se)%nat) /\
  (forall c, extsort.tmpFiles w !! extsort.tmpFilesNumber se = Some c ->
     len c <= sumLen (extsort.memoryBuffer se)).

(** ** Records without bytes, lines of the generator *)

(** The records of [l] that hold bytes. *)
Fixpoint dropEmpty (l : list bytes) : list bytes :=
  match l with
  | [] => []
  | [] :: l => dropEmpty l
  | r :: l => r :: dropEmpty l
  end.

(** A line as [Generate] writes it: [lineLength] bytes of the dictionary
    and the delimiter. *)
Definition generatedLine (g : generator.randomStringGenerator) (l : bytes) : Prop :=
  exists s,
    l = s ++ generator.EncodeRune (generator.linesDelim g) /\
    len s = generator.lineLength g /\
    Forall (fun c => c ∈ generator.dictionary g) s.

(** * Proofs *)

(** ** [container/heap] keeps the heap ordered and pops a minimum *)

Module HeapFacts.
Import fileheap.
Local Open Scope nat_scope.

(** The index [container/heap] takes for the parent of [k]. *)
Definition parent (k : nat) : nat := (k - 1) / 2.

(** The heap property on the first [n] entries: no entry comes before
    its parent. *)
Definition heapOrderedBelow (n : nat) (h : FileHeap) : Prop :=
  forall k a b, (0 < k < n)%nat ->
    entries h !! k = Some a -> entries h !! parent k = Some b ->
    lessFunc h (Data a) (Data b) = false.

Definition heapOrdered (h : FileHeap) : Prop :=
  heapOrderedBelow (length (entries h)) h.

Lemma Swap_lessFunc h i j : lessFunc (Swap h i j) = lessFunc h.
Proof. unfold Swap. by destruct (entries h !! i), (entries h !! j). Qed.

Lemma Swap_length h i j : length (entries (Swap h i j)) = length (entries h).
Proof.
  unfold Swap. destruct (entries h !! i), (entries h !! j); simpl; try done.
  by rewrite !length_insert.
Qed.

Lemma Swap_lookup h i j k :
  (i < length (entries h))%nat -> (j < length (entries h))%nat ->
  entries (Swap h i j) !! k =
    if decide (k = i) then entries h !! j
    else if decide (k = j) then entries h !! i
    else entries h !! k.
Proof.
  intros Hi Hj. unfold Swap.
  destruct (lookup_lt_is_Some_2 _ _ Hi) as [a Ha].
  destruct (lookup_lt_is_Some_2 _ _ Hj) as [b Hb].
  rewrite Ha, Hb. simpl.
  destruct (decide (k = i)) as [->|Hki].
  - rewrite list_lookup_insert_eq; [done|]. by rewrite length_insert.
  - rewrite list_lookup_insert_ne by done.
    destruct (decide (k = j)) as [->|Hkj].
    + by rewrite list_lookup_insert_eq.
    + by rewrite list_lookup_insert_ne.
Qed.

Lemma Swap_perm h i j : entries (Swap h i j) ≡ₚ entries h.
Proof.
  unfold Swap.
  destruct (entries h !! i) as [a|] eqn:Ha; [|done].
  destruct (entries h !! j) as [b|] eqn:Hb; [|done].
  simpl. by apply Permutation_insert_swap.
Qed.

Lemma Less_spec h i j a b :
  entries h !! i = Some a -> entries h !! j = Some b ->
  Less h i j = lessFunc h (Data a) (Data b).
Proof. intros Ha Hb. unfold Less. by rewrite Ha, Hb. Qed.

(** *** [up] *)

Lemma up_S steps h j :
  heap.up (S steps) h j =
    if (parent j =? j)%nat || negb (Less h j (parent j)) then h
    else heap.up steps (Swap h (parent j) j) (parent j).
Proof. reflexivity. Qed.

Lemma up_lessFunc steps : forall h j, lessFunc (heap.up steps h j) = lessFunc h.
Proof.
  induction steps as [|steps IH]; intros h j; [done|].
  rewrite up_S. destruct (_ || _); [done|]. by rewrite IH, Swap_lessFunc.
Qed.

Lemma up_perm steps : forall h j, entries (heap.up steps h j) ≡ₚ entries h.
Proof.
  induction steps as [|steps IH]; intros h j; [done|].
  rewrite up_S. destruct (_ || _); [done|]. by rewrite IH, Swap_perm.
Qed.

(** Every entry but the one at [j] respects its parent, and the children
    of [j] respect the parent of [j]. *)
Definition upPending (h : FileHeap) (j : nat) : Prop :=
  (forall k a b, (0 < k)%nat -> k <> j ->
     entries h !! k = Some a -> entries h !! parent k = Some b ->
     lessFunc h (Data a) (Data b) = false) /\
  (forall k a g, (0 < j)%nat -> parent k = j -> (0 < k)%nat ->
     entries h !! k = Some a -> entries h !! parent j = Some g ->
     lessFunc h (Data a) (Data g) = false).

Lemma up_heapOrdered steps : forall h j,
  StrictWeak (lessFunc h) ->
  (j < steps)%nat -> (j < length (entries h))%nat ->
  upPending h j -> heapOrdered (heap.up steps h j).
Proof.
  induction steps as [|steps IH]; intros h j Hsw Hsteps Hj [U1 U2]; [lia|].
  rewrite up_S.
  destruct (lookup_lt_is_Some_2 _ _ Hj) as [x Hx].
  assert (Hpj : (parent j < length (entries h))%nat) by (unfold parent; lia).
  destruct (lookup_lt_is_Some_2 _ _ Hpj) as [p Hp].
  destruct (Nat.eqb_spec (parent j) j) as [Heq|Hne]; simpl.
  { intros k a b Hk Ha Hb. apply (U1 k a b); try done; try lia.
    unfold parent in Heq. lia. }
  rewrite (Less_spec h j (parent j) x p) by done.
  destruct (lessFunc h (Data x) (Data p)) eqn:Hless; simpl.
  2:{ intros k a b Hk Ha Hb. destruct (decide (k = j)) as [->|Hkj].
      - by simplify_eq.
      - apply (U1 k a b); try done; lia. }
  assert (Hj0 : (0 < j)%nat) by (unfold parent in Hne; lia).
  assert (Hlt : (parent j < j)%nat) by (unfold parent; lia).
  apply IH.
  - by rewrite Swap_lessFunc.
  - lia.
  - by rewrite Swap_length.
  - split.
    + intros k a b Hk Hki. rewrite Swap_lessFunc, !Swap_lookup by done.
      intros Ha Hb.
      destruct (decide (k = parent j)); [done|].
      destruct (decide (k = j)) as [->|Hkj].
      * destruct (decide (parent j = parent j)); [|done].
        simplify_eq. by apply (sw_asym _ Hsw).
      * destruct (decide (parent k = parent j)) as [Hpk|Hpk].
        -- simplify_eq.
           apply (sw_trans _ Hsw (Data x) (Data p) (Data a)).
           ++ by apply (sw_asym _ Hsw).
           ++ apply (U1 k a p); try done. by rewrite Hpk.
        -- destruct (decide (parent k = j)) as [Hpk'|Hpk'].
           ++ simplify_eq. by apply (U2 k a p).
           ++ by apply (U1 k a b).
    + intros k a g Hi0 Hpk Hk0. rewrite Swap_lessFunc, !Swap_lookup by done.
      intros Ha Hg.
      destruct (decide (parent (parent j) = parent j)) as [E|_];
        [unfold parent in E, Hi0; lia|].
      destruct (decide (parent (parent j) = j)) as [E|_];
        [unfold parent in E, Hi0; lia|].
      assert (Hpg : lessFunc h (Data p) (Data g) = false)
        by (apply (U1 (parent j) p g); try done; lia).
      destruct (decide (k = parent j)) as [E|_];
        [unfold parent in E, Hpk; lia|].
      destruct (decide (k = j)) as [->|Hkj].
      * by simplify_eq.
      * apply (sw_trans _ Hsw (Data g) (Data p) (Data a)); [done|].
        apply (U1 k a p); try done. by rewrite Hpk.
Qed.

Lemma Push_lessFunc h x : lessFunc (heap.Push h x) = lessFunc h.
Proof. unfold heap.Push. by rewrite up_lessFunc. Qed.

Lemma Push_perm h x : entries (heap.Push h x) ≡ₚ x :: entries h.
Proof.
  unfold heap.Push. rewrite up_perm. simpl.
  by rewrite Permutation_app_comm.
Qed.

Lemma Push_heapOrdered h x :
  StrictWeak (lessFunc h) -> heapOrdered h -> heapOrdered (heap.Push h x).
Proof.
  intros Hsw Hh. unfold heap.Push.
  assert (Hlen : Len (fileheap.Push h x) = S (length (entries h))).
  { unfold Len. simpl. rewrite length_app. simpl. lia. }
  rewrite Hlen.
  replace (S (length (entries h)) - 1)%nat with (length (entries h)) by lia.
  apply up_heapOrdered; try done.
  - lia.
  - fold (Len (fileheap.Push h x)). lia.
  - split; simpl.
    + intros k a b Hk Hkj Ha Hb.
      assert (Hkl : (k < length (entries h))%nat).
      { apply lookup_lt_Some in Ha. rewrite length_app in Ha. simpl in Ha. lia. }
      rewrite lookup_app_l in Ha by done.
      rewrite lookup_app_l in Hb by (unfold parent; lia).
      apply (Hh k a b); try done; lia.
    + intros k a g Hj0 Hpk Hk0 Ha _.
      apply lookup_lt_Some in Ha. rewrite length_app in Ha. simpl in Ha.
      unfold parent in Hpk. lia.
Qed.

(** *** [down] *)

Definition smallerChild (h : FileHeap) (i n : nat) : nat :=
  if (2 * i + 1 + 1 <? n)%nat && Less h (2 * i + 1 + 1) (2 * i + 1)
  then (2 * i + 1 + 1)%nat else (2 * i + 1)%nat.

Lemma down_S steps h i n :
  heap.down (S steps) h i n =
    if (n <=? 2 * i + 1)%nat then h
    else if negb (Less h (smallerChild h i n) i) then h
    else heap.down steps (Swap h i (smallerChild h i n)) (smallerChild h i n) n.
Proof. reflexivity. Qed.

Lemma smallerChild_cases h i n :
  (2 * i + 1 < n)%nat ->
  (smallerChild h i n = 2 * i + 1 \/ smallerChild h i n = 2 * i + 2)%nat /\
  (smallerChild h i n < n)%nat.
Proof.
  intros Hn. unfold smallerChild.
  destruct (Nat.ltb_spec (2 * i + 1 + 1) n); cbn [andb]; [|lia].
  destruct (Less _ _ _); lia.
Qed.

Lemma down_lessFunc steps : forall h i n, lessFunc (heap.down steps h i n) = lessFunc h.
Proof.
  induction steps as [|steps IH]; intros h i n; [done|].
  rewrite down_S. destruct (_ <=? _)%nat; [done|].
  destruct (negb _); [done|]. by rewrite IH, Swap_lessFunc.
Qed.

Lemma down_perm steps : forall h i n, entries (heap.down steps h i n) ≡ₚ entries h.
Proof.
  induction steps as [|steps IH]; intros h i n; [done|].
  rewrite down_S. destruct (_ <=? _)%nat; [done|].
  destruct (negb _); [done|]. by rewrite IH, Swap_perm.
Qed.

Lemma down_length steps h i n :
  length (entries (heap.down steps h i n)) = length (entries h).
Proof. apply Permutation_length, down_perm. Qed.

(** [down] on the first [n] entries leaves the others where they are. *)
Lemma down_lookup_ge steps : forall h i n m,
  (i < n <= length (entries h))%nat -> (n <= m)%nat ->
  entries (heap.down steps h i n) !! m = entries h !! m.
Proof.
  induction steps as [|steps IH]; intros h i n m Hin Hm; [done|].
  rewrite down_S. destruct (Nat.leb_spec n (2 * i + 1)); [done|].
  destruct (negb _); [done|].
  destruct (smallerChild_cases h i n) as [Hj Hjn]; [done|].
  rewrite IH by (rewrite ?Swap_length; lia).
  rewrite Swap_lookup by lia.
  repeat case_decide; try done; lia.
Qed.

(** Every entry below [n] whose parent is not [i] respects its parent,
    and the children of [i] respect the parent of [i]. *)
Definition downPending (h : FileHeap) (i n : nat) : Prop :=
  (forall k a b, (0 < k < n)%nat -> parent k <> i ->
     entries h !! k = Some a -> entries h !! parent k = Some b ->
     lessFunc h (Data a) (Data b) = false) /\
  (forall k a g, (0 < i)%nat -> parent k = i -> (0 < k < n)%nat ->
     entries h !! k = Some a -> entries h !! parent i = Some g ->
     lessFunc h (Data a) (Data g) = false).

Lemma down_heapOrderedBelow steps : forall h i n,
  StrictWeak (lessFunc h) ->
  (n <= 2 * i + 1 + steps)%nat -> (i < n <= length (entries h))%nat ->
  downPending h i n -> heapOrderedBelow n (heap.down steps h i n).
Proof.
  induction steps as [|steps IH]; intros h i n Hsw Hsteps Hin [D1 D2].
  { intros k a b Hk Ha Hb. cbn [heap.down] in *. apply (D1 k a b); try done.
    unfold parent. lia. }
  rewrite down_S. destruct (Nat.leb_spec n (2 * i + 1)) as [Hleaf|Hchild].
  { intros k a b Hk Ha Hb. apply (D1 k a b); try done. unfold parent. lia. }
  destruct (smallerChild_cases h i n) as [Hj Hjn]; [done|].
  set (j := smallerChild h i n) in *.
  assert (Hi : (i < length (entries h))%nat) by lia.
  assert (Hjl : (j < length (entries h))%nat) by lia.
  destruct (lookup_lt_is_Some_2 _ _ Hi) as [x Hx].
  destruct (lookup_lt_is_Some_2 _ _ Hjl) as [c Hc].
  assert (Hpj : parent j = i) by (unfold parent; lia).
  (* the chosen child does not come after its sibling *)
  assert (Hsib : forall k s, (0 < k < n)%nat -> parent k = i -> k <> j ->
             entries h !! k = Some s -> lessFunc h (Data s) (Data c) = false).
  { intros k s Hk Hpk Hkj Hs. subst j. unfold smallerChild in *.
    destruct (Nat.ltb_spec (2 * i + 1 + 1) n) as [H2|H2]; cbn [andb] in *.
    - destruct (Less h (2 * i + 1 + 1) (2 * i + 1)) eqn:HL.
      + assert (k = 2 * i + 1)%nat as -> by (unfold parent in Hpk; lia).
        rewrite (Less_spec h _ _ c s) in HL by done.
        by apply (sw_asym _ Hsw).
      + assert (k = 2 * i + 1 + 1)%nat as -> by (unfold parent in Hpk; lia).
        by rewrite (Less_spec h _ _ s c) in HL.
    - unfold parent in Hpk. lia. }
  rewrite (Less_spec h j i c x) by done.
  destruct (lessFunc h (Data c) (Data x)) eqn:Hless; simpl.
  2:{ intros k a b Hk Ha Hb. destruct (decide (parent k = i)) as [Hpk|Hpk].
      - rewrite Hpk in Hb. assert (b = x) as -> by congruence.
        destruct (decide (k = j)) as [->|Hkj]; [congruence|].
        apply (sw_trans _ Hsw (Data x) (Data c) (Data a)); [done|].
        by apply (Hsib k a).
      - by apply (D1 k a b). }
  apply IH.
  - by rewrite Swap_lessFunc.
  - lia.
  - rewrite Swap_length. lia.
  - split.
    + intros k a b Hk Hpk. rewrite Swap_lessFunc, !Swap_lookup by done.
      intros Ha Hb.
      destruct (decide (k = i)) as [->|Hki].
      * (* the entry moved up, against the parent of [i] *)
        destruct (decide (parent i = i)) as [E|_]; [unfold parent in E; lia|].
        destruct (decide (parent i = j)) as [E|_]; [unfold parent in E; lia|].
        assert (a = c) as -> by congruence.
        apply (D2 j c b); try done; lia.
      * destruct (decide (k = j)) as [->|Hkj].
        -- rewrite Hpj in Hb. destruct (decide (i = i)); [|done].
           assert (a = x) as -> by congruence.
           assert (b = c) as -> by congruence.
           by apply (sw_asym _ Hsw).
        -- destruct (decide (parent k = i)) as [Hpk'|Hpk'].
           ++ assert (b = c) as -> by congruence. by apply (Hsib k a).
           ++ destruct (decide (parent k = j)); [done|].
              by apply (D1 k a b).
    + intros k a g Hj0 Hpk Hk. rewrite Swap_lessFunc, !Swap_lookup by done.
      rewrite Hpj. intros Ha Hg.
      destruct (decide (i = i)); [|done].
      destruct (decide (k = i)) as [E|_]; [unfold parent in Hpk; lia|].
      destruct (decide (k = j)) as [E|_]; [unfold parent in Hpk; lia|].
      assert (g = c) as -> by congruence.
      apply (D1 k a c); try done; [lia|by rewrite Hpk].
Qed.

(** *** The root of an ordered heap is a minimum *)

Lemma less_irrefl (less : bytes -> bytes -> bool) a : StrictWeak less -> less a a = false.
Proof.
  intros Hsw. destruct (less a a) eqn:E; [|done].
  by rewrite (sw_asym _ Hsw a a E) in E.
Qed.

Lemma heapOrdered_root h :
  StrictWeak (lessFunc h) -> heapOrdered h ->
  forall k x r, entries h !! 0%nat = Some r -> entries h !! k = Some x ->
    lessFunc h (Data x) (Data r) = false.
Proof.
  intros Hsw Hh k. induction k as [k IH] using lt_wf_ind. intros x r Hr Hx.
  destruct (decide (k = 0)) as [->|Hk].
  { assert (x = r) as -> by congruence. by apply less_irrefl. }
  assert (Hkl : (k < length (entries h))%nat) by by eapply lookup_lt_Some.
  assert (Hpl : (parent k < length (entries h))%nat) by (unfold parent; lia).
  destruct (lookup_lt_is_Some_2 _ _ Hpl) as [p Hp].
  apply (sw_trans _ Hsw (Data r) (Data p) (Data x)).
  - apply (IH (parent k)); try done. unfold parent. lia.
  - apply (Hh k x p); try done. lia.
Qed.

(** *** [heap.Pop] *)

Lemma down_none steps h : heap.down steps h 0 0 = h.
Proof. by destruct steps. Qed.

Lemma Pop_spec h r :
  entries h !! 0%nat = Some r ->
  exists h1,
    heap.Pop h = Some (r, h1) /\
    lessFunc h1 = lessFunc h /\
    entries h ≡ₚ r :: entries h1 /\
    (StrictWeak (lessFunc h) -> heapOrdered h ->
     heapOrdered h1 /\
     forall x, x ∈ entries h -> lessFunc h (Data x) (Data r) = false).
Proof.
  intros Hr. unfold heap.Pop, fileheap.Pop.
  assert (Hlen : (0 < length (entries h))%nat) by by eapply lookup_lt_Some.
  set (n := (Len h - 1)%nat).
  assert (Hn : length (entries h) = S n) by (unfold n, Len; lia).
  set (h1 := Swap h 0 n).
  set (h2 := heap.down (Len h) h1 0 n).
  assert (Hlen1 : length (entries h1) = S n) by (unfold h1; by rewrite Swap_length).
  assert (Hlen2 : length (entries h2) = S n) by (unfold h2; by rewrite down_length).
  assert (Hlast : entries h2 !! n = Some r).
  { unfold h2. destruct (decide (n = 0)) as [E|E].
    - rewrite E, down_none. unfold h1. rewrite E, Swap_lookup by lia.
      by destruct (decide (0 = 0)%nat).
    - rewrite down_lookup_ge by lia. unfold h1. rewrite Swap_lookup by lia.
      destruct (decide (n = 0)); [done|]. by destruct (decide (n = n)). }
  rewrite last_lookup, Hlen2. simpl. rewrite Hlast.
  eexists. split; [done|]. simpl. rewrite Nat.sub_0_r.
  assert (Hsplit : entries h2 = take n (entries h2) ++ [r]).
  { rewrite <-(take_drop n (entries h2)) at 1. f_equal.
    apply list_eq. intros [|m]; rewrite lookup_drop; simpl.
    - by rewrite Nat.add_0_r.
    - apply lookup_ge_None_2. lia. }
  split; [unfold h2, h1; by rewrite down_lessFunc, Swap_lessFunc|].
  split.
  { transitivity (entries h2).
    - unfold h2, h1. by rewrite down_perm, Swap_perm.
    - rewrite Hsplit at 1. by rewrite Permutation_app_comm. }
  intros Hsw Hh. split.
  - destruct (decide (n = 0)) as [E|E].
    { intros k a b Hk. simpl in Hk. rewrite length_take in Hk. lia. }
    assert (Hb : heapOrderedBelow n h2).
    { unfold h2. apply down_heapOrderedBelow.
      - unfold h1. by rewrite Swap_lessFunc.
      - unfold Len. lia.
      - lia.
      - split; [|lia].
        intros k a b Hk Hpk. unfold h1.
        rewrite Swap_lessFunc, !Swap_lookup by lia.
        destruct (decide (k = 0)); [lia|].
        destruct (decide (k = n)); [lia|].
        destruct (decide (parent k = 0)); [done|].
        destruct (decide (parent k = n)) as [E1|_]; [unfold parent in E1; lia|].
        intros Ha Hb. apply (Hh k a b); try done. lia. }
    intros k a b Hk. simpl in *. rewrite length_take in Hk.
    rewrite !lookup_take_lt by (unfold parent; lia).
    intros Ha Hb'. apply (Hb k a b); try done; lia.
  - intros x [k Hx]%list_elem_of_lookup. by apply (heapOrdered_root h Hsw Hh k).
Qed.

End HeapFacts.

(** ** The merge *)

(** The records still to be read from the open readers, [rests] holding
    for each open reader the list of the records left in it. *)
Definition pending (rests : gmap nat (list bytes)) : list bytes :=
  concat (map_to_list rests).*2.

Lemma sumLen_app l1 l2 : sumLen (l1 ++ l2) = sumLen l1 + sumLen l2.
Proof. induction l1 as [|b l1 IH]; simpl; lia. Qed.

Lemma sumLen_nonneg l : 0 <= sumLen l.
Proof. induction l as [|b l IH]; simpl; unfold len in *; lia. Qed.

Lemma sumLen_perm l1 l2 : l1 ≡ₚ l2 -> sumLen l1 = sumLen l2.
Proof. induction 1; simpl; lia. Qed.

Lemma pending_empty : pending ∅ = [].
Proof. unfold pending. by rewrite map_to_list_empty. Qed.

Lemma pending_lookup rests i l :
  rests !! i = Some l -> pending rests ≡ₚ l ++ pending (delete i rests).
Proof.
  intros Hl. unfold pending.
  rewrite <-(map_to_list_delete rests i l Hl). done.
Qed.

Lemma pending_insert rests i l :
  pending (<[i := l]> rests) ≡ₚ l ++ pending (delete i rests).
Proof.
  rewrite (pending_lookup (<[i := l]> rests) i l) by apply lookup_insert_eq.
  by rewrite delete_insert_eq.
Qed.

Lemma elem_of_concat {A} (x : A) (ls : list (list A)) :
  x ∈ concat ls <-> exists l, x ∈ l /\ l ∈ ls.
Proof.
  induction ls as [|l ls IH]; simpl.
  - split; [by intros ?%not_elem_of_nil|]. by intros (l & _ & ?%not_elem_of_nil).
  - rewrite elem_of_app, IH. split.
    + intros [Hx|(l' & Hx & Hl')]; [exists l|exists l']; split; try done;
        [by left|by right].
    + intros (l' & Hx & [->|Hl']%elem_of_cons); [by left|right; eauto].
Qed.

Lemma elem_of_pending rests x :
  x ∈ pending rests <-> exists j l, rests !! j = Some l /\ x ∈ l.
Proof.
  unfold pending. rewrite elem_of_concat. split.
  - intros (l & Hx & Hl). apply list_elem_of_fmap in Hl as ([j l'] & -> & Hjl).
    apply elem_of_map_to_list in Hjl. eauto.
  - intros (j & l & Hj & Hx). exists l. split; [done|].
    apply list_elem_of_fmap. exists (j, l). split; [done|].
    by apply elem_of_map_to_list.
Qed.

Section Chunking.
Variable chunkFunc : Chunk.
Hypothesis chunk_eof : eofAtEnd chunkFunc.

Lemma chunk_cons r l :
  framed chunkFunc r -> chunkFunc (concat (r :: l)) = ((r, None), concat l).
Proof. intros Hr. simpl. apply Hr. Qed.

Lemma framed_nonempty r : framed chunkFunc r -> r <> [].
Proof.
  intros Hr ->. destruct chunk_eof as (b & rest & He).
  specialize (Hr []). simpl in Hr. congruence.
Qed.
End Chunking.

Section MergeFacts.
Import fileheap HeapFacts.
Variable chunkFunc : Chunk.
Variable less : bytes -> bytes -> bool.
Hypothesis chunk_eof : eofAtEnd chunkFunc.

(** The merge state whose open readers hold the records [rests]. *)
Definition mergeState (rests : gmap nat (list bytes)) (h : FileHeap)
  : extsort.MergeState :=
  {| extsort.files := @concat byte <$> rests; extsort.fileHeap := h |}.

Lemma fillFromFile_S fuel budget i file rb st :
  extsort.fillFromFile chunkFunc (S fuel) budget i file rb st =
    let '((b, chunkFileErr), rest) := chunkFunc file in
    match chunkFileErr with
    | Some e =>
        if is_EOF e then
          (Returned None,
           {| extsort.files := delete i (extsort.files st);
              extsort.fileHeap := extsort.fileHeap st |})
        else
          (Returned (Some (Errorf "cannot chunk file: %s\n" e)),
           {| extsort.files := <[i := rest]> (extsort.files st);
              extsort.fileHeap := extsort.fileHeap st |})
    | None =>
        let st1 := {| extsort.files := <[i := rest]> (extsort.files st);
                      extsort.fileHeap :=
                        heap.Push (extsort.fileHeap st) (NewEntry i b) |} in
        if budget <=? rb + len b then (Returned None, st1)
        else extsort.fillFromFile chunkFunc fuel budget i rest (rb + len b) st1
    end.
Proof. reflexivity. Qed.

Lemma fillFromFile_ok l : forall fuel budget i rb rests h,
  Forall (framed chunkFunc) l -> (length l < fuel)%nat ->
  exists taken left (eof : bool) h1,
    l = taken ++ left /\
    extsort.fillFromFile chunkFunc fuel budget i (concat l) rb (mergeState rests h) =
      (Returned None,
       mergeState (if eof then delete i rests else <[i := left]> rests) h1) /\
    entries h1 ≡ₚ (NewEntry i <$> taken) ++ entries h /\
    lessFunc h1 = lessFunc h /\
    (StrictWeak (lessFunc h) -> heapOrdered h -> heapOrdered h1) /\
    (eof = true -> left = [] /\ (l <> [] -> rb + sumLen l < budget)) /\
    (eof = false -> taken <> []).
Proof.
  induction l as [|r l IH]; intros fuel budget i rb rests h Hfr Hfuel;
    (destruct fuel as [|fuel]; [simpl in Hfuel; lia|]); rewrite fillFromFile_S.
  - destruct chunk_eof as (b & rest & He). simpl. rewrite He. simpl.
    exists [], [], true, h. unfold mergeState. simpl. rewrite fmap_delete.
    repeat split; try done.
  - apply Forall_cons in Hfr as [Hr Hfr].
    rewrite (chunk_cons _ r l Hr). cbv zeta. cbn [mergeState extsort.files extsort.fileHeap].
    rewrite <-fmap_insert. fold (mergeState (<[i := l]> rests) (heap.Push h (NewEntry i r))).
    destruct (Z.leb_spec budget (rb + len r)) as [Hstop|Hmore].
    + exists [r], l, false, (heap.Push h (NewEntry i r)).
      repeat split; try done.
      * by rewrite Push_perm.
      * by rewrite Push_lessFunc.
      * intros. by apply Push_heapOrdered.
    + destruct (IH fuel budget i (rb + len r) (<[i := l]> rests)
                  (heap.Push h (NewEntry i r)) Hfr)
        as (taken & left & eof & h1 & Hl & Hrun & Hperm & Hless & Hord & Heof & Hne).
      { simpl in Hfuel. lia. }
      exists (r :: taken), left, eof, h1.
      split; [by rewrite Hl|].
      split.
      { rewrite Hrun. destruct eof.
        - by rewrite delete_insert_eq.
        - by rewrite insert_insert_eq. }
      split; [by rewrite Hperm, Push_perm, fmap_cons, <-Permutation_middle|].
      split; [by rewrite Hless, Push_lessFunc|].
      split.
      { intros Hsw Hh. apply Hord.
        - by rewrite Push_lessFunc.
        - by apply Push_heapOrdered. }
      split; [|done].
      intros E. destruct (Heof E) as [-> Hb]. split; [done|].
      intros _. cbn [sumLen foldr]. fold (sumLen l).
      destruct l as [|r' l']; [simpl; lia|].
      specialize (Hb ltac:(done)). lia.
Qed.

(** Every open reader has an entry in the heap. *)
Definition staged (rests : gmap nat (list bytes)) (h : FileHeap) : Prop :=
  forall j, is_Some (rests !! j) -> exists e, e ∈ entries h /\ FileIdx e = j.

Definition allFramed (rests : gmap nat (list bytes)) : Prop :=
  forall j l, rests !! j = Some l -> Forall (framed chunkFunc) l.

(** What the order of the output rests on: each run is sorted, an entry
    of the heap comes no later than what is left in its run, and the heap
    is ordered. *)
Definition ordInv (rests : gmap nat (list bytes)) (h : FileHeap) : Prop :=
  (forall j l, rests !! j = Some l -> StronglySorted (ordered less) l) /\
  (forall e l, e ∈ entries h -> rests !! FileIdx e = Some l ->
     Forall (ordered less (Data e)) l) /\
  heapOrdered h.

Lemma StronglySorted_app_bound {A} (R : A -> A -> Prop) l1 l2 :
  StronglySorted R (l1 ++ l2) ->
  StronglySorted R l2 /\ forall x, x ∈ l1 -> Forall (R x) l2.
Proof.
  induction l1 as [|a l1 IH]; simpl; intros Hs.
  - split; [done|]. by intros x ?%not_elem_of_nil.
  - apply StronglySorted_inv in Hs as [Hs Ha]. destruct (IH Hs) as [H2 Hb].
    split; [done|]. intros x [->|Hx]%elem_of_cons; [|by apply Hb].
    by apply Forall_app in Ha as [_ Ha].
Qed.

Lemma fillHeapFrom_S fuel budget i st :
  extsort.fillHeapFrom chunkFunc (S fuel) budget i st =
    if (i <? size (extsort.files st))%nat then
      match extsort.files st !! i with
      | None => (Panicked extsort.nilReader, st)
      | Some file =>
          match extsort.fillFromFile chunkFunc fuel budget i file 0 st with
          | (Returned None, st1) => extsort.fillHeapFrom chunkFunc fuel budget (S i) st1
          | stopped => stopped
          end
      end
    else (Returned None, st).
Proof. reflexivity. Qed.

Lemma fillHeapFrom_ok budget n m : forall k i rests h fuel,
  n = (i + k)%nat ->
  size rests = n -> (forall j, is_Some (rests !! j) <-> (j < n)%nat) ->
  allFramed rests ->
  (forall j l, rests !! j = Some l -> (length l <= m)%nat) ->
  (k + m + 2 <= fuel)%nat ->
  (forall j l, (i <= j)%nat -> (S j < n)%nat -> rests !! j = Some l ->
     l <> [] /\ budget <= sumLen l) ->
  (forall j, (j < i)%nat -> exists e, e ∈ entries h /\ FileIdx e = j) ->
  lessFunc h = less ->
  (StrictWeak less -> ordInv rests h) ->
  exists rests1 h1,
    extsort.fillHeapFrom chunkFunc fuel budget i (mergeState rests h) =
      (Returned None, mergeState rests1 h1) /\
    staged rests1 h1 /\ allFramed rests1 /\ lessFunc h1 = less /\
    (Data <$> entries h1) ++ pending rests1 ≡ₚ (Data <$> entries h) ++ pending rests /\
    (StrictWeak less -> ordInv rests1 h1).
Proof.
  induction k as [|k IH];
    intros i rests h fuel Hn Hsize Hkeys Hfr Hlen Hfuel Hbig Hst Hless Hord;
    (destruct fuel as [|fuel]; [lia|]); rewrite fillHeapFrom_S;
    cbn [mergeState extsort.files]; rewrite map_size_fmap, Hsize.
  - destruct (Nat.ltb_spec i n); [lia|].
    exists rests, h. split; [done|]. split; [|done].
    intros j Hj. apply Hst. apply Hkeys in Hj. lia.
  - destruct (Nat.ltb_spec i n); [|lia].
    destruct (proj2 (Hkeys i)) as [l Hl]; [done|].
    rewrite lookup_fmap, Hl. simpl.
    destruct (fillFromFile_ok l fuel budget i 0 rests h)
      as (taken & left & eof & h1 & El & Hrun & Hperm & Hless1 & Hheap & Heof & Hne).
    { by apply (Hfr i). }
    { specialize (Hlen i l Hl). lia. }
    fold (mergeState rests h). rewrite Hrun. clear Hrun.
    assert (Hin1 : forall e, e ∈ entries h1 <->
              (exists t, t ∈ taken /\ e = NewEntry i t) \/ e ∈ entries h).
    { intros e. rewrite Hperm, elem_of_app, list_elem_of_fmap.
      split; (intros [(t & ? & ?)|?]; [left; eauto|by right]). }
    assert (Hdata : Data <$> entries h1 ≡ₚ taken ++ (Data <$> entries h)).
    { rewrite Hperm, fmap_app. apply Permutation_app_tail.
      clear. induction taken as [|t taken IH]; simpl; [done|]. by constructor. }
    assert (Hpend : pending rests ≡ₚ taken ++ left ++ pending (delete i rests)).
    { rewrite (pending_lookup rests i l Hl), El. by rewrite <-app_assoc. }
    assert (Hordl : StrictWeak less ->
              StronglySorted (ordered less) left /\
              forall t, t ∈ taken -> Forall (ordered less t) left).
    { intros Hsw. destruct (Hord Hsw) as (Hs & _ & _).
      apply StronglySorted_app_bound. rewrite <-El. by apply (Hs i). }
    destruct eof.
    + (* the run ended: it was the last one *)
      destruct (Heof eq_refl) as [-> Hsmall].
      assert (S i = n) as HSi.
      { destruct (decide (S i < n)%nat) as [Hlt|]; [|lia].
        destruct (Hbig i l) as [Hl0 Hb]; try done. specialize (Hsmall Hl0). lia. }
      destruct fuel as [|fuel]; [lia|]. rewrite fillHeapFrom_S.
      cbn [mergeState extsort.files]. rewrite map_size_fmap.
      rewrite (map_size_delete_Some i rests) by eauto. rewrite Hsize.
      destruct (Nat.ltb_spec (S i) (Init.Nat.pred n)); [lia|].
      exists (delete i rests), h1. split; [done|].
      split.
      { intros j [lj Hj]. apply lookup_delete_Some in Hj as [Hij Hj].
        destruct (Hst j) as (e & He & Hej).
        { assert (j < n)%nat by (apply Hkeys; eauto). lia. }
        exists e. split; [|done]. apply Hin1. by right. }
      split.
      { intros j lj Hj. apply lookup_delete_Some in Hj as [Hij Hj]. by apply (Hfr j). }
      split; [by rewrite Hless1|].
      split.
      { rewrite Hdata, Hpend. simpl.
        by rewrite (Permutation_app_comm taken), <-app_assoc. }
      intros Hsw. destruct (Hord Hsw) as (Hs & Hb & Hh). split; [|split].
      * intros j lj Hj. apply lookup_delete_Some in Hj as [Hij Hj]. by apply (Hs j).
      * intros e le He Hj. apply lookup_delete_Some in Hj as [Hij Hj].
        apply Hin1 in He as [(t & _ & ->)|He]; [done|]. by apply Hb.
      * apply Hheap; [by rewrite Hless|done].
    + (* the budget was reached: on to the next run *)
      specialize (Hne eq_refl).
      destruct (IH (S i) (<[i := left]> rests) h1 fuel) as
        (rests2 & h2 & Hrun2 & Hst2 & Hfr2 & Hless2 & Hperm2 & Hord2); try lia.
      * by rewrite map_size_insert_Some by eauto.
      * intros j. rewrite <-Hkeys. destruct (decide (i = j)) as [->|Hij].
        -- rewrite lookup_insert_eq, Hl. split; eauto.
        -- by rewrite lookup_insert_ne.
      * intros j lj. destruct (decide (i = j)) as [->|Hij].
        -- rewrite lookup_insert_eq. intros [= <-].
           specialize (Hfr j l Hl). rewrite El in Hfr.
           by apply Forall_app in Hfr as [_ ?].
        -- rewrite lookup_insert_ne by done. apply Hfr.
      * intros j lj. destruct (decide (i = j)) as [->|Hij].
        -- rewrite lookup_insert_eq. intros [= <-].
           specialize (Hlen j l Hl). rewrite El, length_app in Hlen. lia.
        -- rewrite lookup_insert_ne by done. apply Hlen.
      * intros j lj Hij HSj. rewrite lookup_insert_ne by lia.
        apply Hbig; lia.
      * intros j Hj. destruct (decide (j = i)) as [->|Hji].
        -- destruct taken as [|t taken]; [done|].
           exists (NewEntry i t). split; [|done]. apply Hin1. left.
           exists t. split; [by left|done].
        -- destruct (Hst j) as (e & He & Hej); [lia|].
           exists e. split; [|done]. apply Hin1. by right.
      * by rewrite Hless1.
      * intros Hsw. destruct (Hord Hsw) as (Hs & Hb & Hh).
        destruct (Hordl Hsw) as [Hsl Hbl]. split; [|split].
        -- intros j lj. destruct (decide (i = j)) as [->|Hij].
           ++ rewrite lookup_insert_eq. by intros [= <-].
           ++ rewrite lookup_insert_ne by done. apply Hs.
        -- intros e le He. destruct (decide (i = FileIdx e)) as [Hie|Hie].
           ++ rewrite <-Hie, lookup_insert_eq. intros [= <-].
              apply Hin1 in He as [(t & Ht & ->)|He]; [by apply Hbl|].
              specialize (Hb e l He). rewrite <-Hie in Hb. specialize (Hb Hl).
              rewrite El in Hb. by apply Forall_app in Hb as [_ ?].
           ++ rewrite lookup_insert_ne by done.
              apply Hin1 in He as [(t & Ht & ->)|He]; [done|]. by apply Hb.
        -- apply Hheap; [by rewrite Hless|done].
      * exists rests2, h2. split; [done|]. repeat (split; [done|]).
        split; [|done].
        rewrite Hperm2, Hdata, Hpend, pending_insert.
        by rewrite (Permutation_app_comm taken), <-app_assoc.
Qed.

(** *** The loop of [sort] *)

Lemma appendOut_nil w : extsort.appendOut w [] = w.
Proof. destruct w. unfold extsort.appendOut. simpl. by rewrite app_nil_r. Qed.

Lemma appendOut_app w b1 b2 :
  extsort.appendOut (extsort.appendOut w b1) b2 = extsort.appendOut w (b1 ++ b2).
Proof. unfold extsort.appendOut. simpl. by rewrite app_assoc. Qed.

(** One turn of the loop when the heap is not empty. *)
Lemma mergeLoop_pop fuel budget rests h w r h1 :
  heap.Pop h = Some (r, h1) -> entries h <> [] ->
  extsort.mergeLoop chunkFunc (S fuel) budget None (mergeState rests h) w =
    match rests !! FileIdx r with
    | None =>
        extsort.mergeLoop chunkFunc fuel budget None (mergeState rests h1)
          (extsort.appendOut w (Data r))
    | Some l =>
        let '((b, err), rest) := chunkFunc (concat l) in
        match err with
        | Some e =>
            if is_EOF e then
              extsort.mergeLoop chunkFunc fuel budget None
                (mergeState (delete (FileIdx r) rests) h1)
                (extsort.appendOut w (Data r))
            else
              (Returned (Some (Errorf "error replacing entry on heap: %s\n" e)),
               {| extsort.files := <[FileIdx r := rest]> (@concat byte <$> rests);
                  extsort.fileHeap := h1 |},
               extsort.appendOut w (Data r))
        | None =>
            extsort.mergeLoop chunkFunc fuel budget None
              {| extsort.files := <[FileIdx r := rest]> (@concat byte <$> rests);
                 extsort.fileHeap := heap.Push h1 (NewEntry (FileIdx r) b) |}
              (extsort.appendOut w (Data r))
        end
    end.
Proof.
  intros Hpop Hne. cbn [extsort.mergeLoop mergeState extsort.fileHeap extsort.files].
  assert (Hlen : (Len h =? 0)%nat = false).
  { unfold Len. destruct (entries h); [done|]. done. }
  rewrite Hlen. cbn [mergeState extsort.fileHeap extsort.files].
  rewrite Hlen, Hpop. cbn [extsort.outWrite extsort.fileHeap extsort.files].
  rewrite lookup_fmap. destruct (rests !! FileIdx r) as [l|]; simpl; [|done].
  destruct (chunkFunc (concat l)) as [[b [e|]] rest]; [|done].
  destruct (is_EOF e); [|done]. unfold mergeState. by rewrite fmap_delete.
Qed.

(** One turn of the loop when the heap is empty and no reader is open. *)
Lemma mergeLoop_done fuel budget h w :
  entries h = [] ->
  extsort.mergeLoop chunkFunc (S (S fuel)) budget None (mergeState ∅ h) w =
    (Returned None, mergeState ∅ h, w).
Proof.
  intros Hh. cbn [extsort.mergeLoop mergeState extsort.fileHeap extsort.files].
  unfold Len. rewrite Hh. cbn [length Nat.eqb]. unfold extsort.fillHeap.
  rewrite fillHeapFrom_S. cbn [mergeState extsort.files].
  rewrite fmap_empty, map_size_empty.
  cbn [Nat.ltb Nat.leb extsort.fileHeap mergeState]. unfold Len. by rewrite Hh.
Qed.

Lemma mergeLoop_ok budget : forall measure fuel rests h w,
  (length (entries h) + length (pending rests) <= measure)%nat ->
  (measure + 2 <= fuel)%nat ->
  staged rests h -> allFramed rests -> lessFunc h = less ->
  (StrictWeak less -> ordInv rests h) ->
  exists L st1,
    extsort.mergeLoop chunkFunc fuel budget None (mergeState rests h) w =
      (Returned None, st1, extsort.appendOut w (concat L)) /\
    L ≡ₚ (Data <$> entries h) ++ pending rests /\
    (StrictWeak less -> StronglySorted (ordered less) L).
Proof.
  assert (Hempty : forall fuel rests h w,
            entries h = [] -> (2 <= fuel)%nat -> staged rests h ->
            exists L st1,
              extsort.mergeLoop chunkFunc fuel budget None (mergeState rests h) w =
                (Returned None, st1, extsort.appendOut w (concat L)) /\
              L ≡ₚ (Data <$> entries h) ++ pending rests /\
              (StrictWeak less -> StronglySorted (ordered less) L)).
  { (* nothing staged, so nothing open *)
    intros fuel rests h w Hh Hfuel Hst.
    assert (rests = ∅) as ->.
    { apply map_empty. intros j. destruct (rests !! j) eqn:E; [|done].
      destruct (Hst j) as (e & He & _); [eauto|]. rewrite Hh in He.
      by apply not_elem_of_nil in He. }
    destruct fuel as [|[|fuel]]; [lia|lia|]. rewrite mergeLoop_done by done.
    exists [], (mergeState ∅ h). simpl. rewrite appendOut_nil, Hh, pending_empty.
    split; [done|]. split; [done|]. intros _. constructor. }
  induction measure as [|measure IH];
    intros fuel rests h w Hm Hfuel Hst Hfr Hless Hord.
  { apply Hempty; try done; try lia.
    destruct (entries h); [done|simpl in Hm; lia]. }
  destruct (decide (entries h = [])) as [Hh|Hh].
  { apply Hempty; try done; lia. }
  destruct fuel as [|fuel]; [lia|].
  destruct (entries h) as [|r es] eqn:Hes; [done|]. clear Hh.
  destruct (Pop_spec h r) as (h1 & Hpop & Hless1 & Hperm & Hmin);
    [by rewrite Hes|].
  rewrite (mergeLoop_pop fuel budget rests h w r h1 Hpop) by (by rewrite Hes).
  rewrite Hes in Hperm.
  assert (Hlen1 : length (entries h1) = length es).
  { apply Permutation_length in Hperm. simpl in Hperm. lia. }
  assert (Hin : forall e, e ∈ entries h <-> e = r \/ e ∈ entries h1).
  { intros e. by rewrite Hes, Hperm, elem_of_cons. }
  (* what is popped comes no later than anything staged or still to read *)
  assert (Hbound : StrictWeak less ->
            Forall (ordered less (Data r)) ((Data <$> entries h1) ++ pending rests)).
  { intros Hsw. destruct (Hord Hsw) as (Hs & Hb & Hh).
    destruct Hmin as [_ Hmin]; [by rewrite Hless|done|]. rewrite Hless in Hmin.
    apply Forall_forall. intros x [Hx|Hx]%elem_of_app.
    - apply list_elem_of_fmap in Hx as (e & -> & He). apply Hmin, Hin. by right.
    - apply elem_of_pending in Hx as (j & l & Hj & Hx).
      destruct (Hst j) as (e & He & Hej); [eauto|].
      apply (sw_trans _ Hsw _ (Data e)); [by apply Hmin|].
      subst j. specialize (Hb e l He Hj). rewrite Forall_forall in Hb. by apply Hb. }
  (* the three ways the turn goes on all leave the same records to emit *)
  assert (Hnext : forall rests1 h2,
            (length (entries h2) + length (pending rests1) <= measure)%nat ->
            staged rests1 h2 -> allFramed rests1 -> lessFunc h2 = less ->
            (StrictWeak less -> ordInv rests1 h2) ->
            (Data <$> entries h2) ++ pending rests1 ≡ₚ
              (Data <$> entries h1) ++ pending rests ->
            exists L st1,
              extsort.mergeLoop chunkFunc fuel budget None (mergeState rests1 h2)
                (extsort.appendOut w (Data r)) =
                (Returned None, st1, extsort.appendOut w (concat L)) /\
              L ≡ₚ (Data <$> (r :: es)) ++ pending rests /\
              (StrictWeak less -> StronglySorted (ordered less) L)).
  { intros rests1 h2 Hm1 Hst1 Hfr1 Hl1 Hord1 Hsame.
    destruct (IH fuel rests1 h2 (extsort.appendOut w (Data r)))
      as (L & st1 & Hrun & HL & Hsorted); try done; try lia.
    exists (Data r :: L), st1. split; [|split].
    - rewrite Hrun. simpl. by rewrite appendOut_app.
    - rewrite HL, Hsame, Hperm. done.
    - intros Hsw. constructor; [by apply Hsorted|].
      rewrite HL, Hsame. by apply Hbound. }
  assert (Hheap1 : StrictWeak less -> heapOrdered h1).
  { intros Hsw. destruct (Hord Hsw) as (_ & _ & Hh).
    destruct Hmin as [? _]; [by rewrite Hless|done|done]. }
  destruct (rests !! FileIdx r) as [l|] eqn:Hl.
  - destruct l as [|b l].
    + (* the run of the popped entry has ended *)
      destruct chunk_eof as (b0 & rest0 & He). simpl. rewrite He. simpl.
      apply Hnext.
      * rewrite Hlen1. simpl in Hm.
        rewrite (pending_lookup rests _ _ Hl) in Hm. simpl in Hm. lia.
      * intros j [lj Hj]. apply lookup_delete_Some in Hj as [Hne Hj].
        destruct (Hst j) as (e & He' & Hej); [eauto|].
        exists e. split; [|done]. apply Hin in He' as [->|?]; [done|done].
      * intros j lj Hj. apply lookup_delete_Some in Hj as [_ Hj]. by apply (Hfr j).
      * by rewrite Hless1.
      * intros Hsw. destruct (Hord Hsw) as (Hs & Hb & Hh). split; [|split].
        -- intros j lj Hj. apply lookup_delete_Some in Hj as [_ Hj]. by apply (Hs j).
        -- intros e le He' Hj. apply lookup_delete_Some in Hj as [_ Hj].
           apply (Hb e); [|done]. apply Hin. by right.
        -- by apply Hheap1.
      * by rewrite (pending_lookup rests _ _ Hl).
    + (* the next record of that run takes its place *)
      assert (Hb : framed chunkFunc b /\ Forall (framed chunkFunc) l).
      { specialize (Hfr _ _ Hl). by apply Forall_cons in Hfr. }
      destruct Hb as [Hb Hfl]. rewrite (chunk_cons _ b l Hb). cbv zeta.
      rewrite <-fmap_insert.
      fold (mergeState (<[FileIdx r := l]> rests) (heap.Push h1 (NewEntry (FileIdx r) b))).
      assert (Hin2 : forall e, e ∈ entries (heap.Push h1 (NewEntry (FileIdx r) b)) <->
                e = NewEntry (FileIdx r) b \/ e ∈ entries h1).
      { intros e. by rewrite Push_perm, elem_of_cons. }
      apply Hnext.
      * rewrite (Permutation_length (Push_perm _ _)). simpl. rewrite Hlen1.
        rewrite (Permutation_length (pending_insert _ _ _)).
        simpl in Hm. rewrite (pending_lookup rests _ _ Hl) in Hm.
        rewrite !length_app in *. simpl in Hm. lia.
      * intros j [lj Hj]. destruct (decide (FileIdx r = j)) as [<-|Hne].
        -- exists (NewEntry (FileIdx r) b). split; [|done]. apply Hin2. by left.
        -- rewrite lookup_insert_ne in Hj by done.
           destruct (Hst j) as (e & He' & Hej); [eauto|].
           exists e. split; [|done]. apply Hin2. right.
           apply Hin in He' as [->|?]; [done|done].
      * intros j lj. destruct (decide (FileIdx r = j)) as [<-|Hne].
        -- rewrite lookup_insert_eq. by intros [= <-].
        -- rewrite lookup_insert_ne by done. apply Hfr.
      * by rewrite Push_lessFunc, Hless1.
      * intros Hsw. destruct (Hord Hsw) as (Hs & Hbd & Hh).
        assert (Hsl : StronglySorted (ordered less) (b :: l)) by by apply (Hs (FileIdx r)).
        apply StronglySorted_inv in Hsl as [Hsl Hbl].
        split; [|split].
        -- intros j lj. destruct (decide (FileIdx r = j)) as [<-|Hne].
           ++ rewrite lookup_insert_eq. by intros [= <-].
           ++ rewrite lookup_insert_ne by done. apply Hs.
        -- intros e le He'. destruct (decide (FileIdx r = FileIdx e)) as [Hie|Hie].
           ++ rewrite <-Hie, lookup_insert_eq. intros [= <-].
              apply Hin2 in He' as [->|He']; [done|].
              assert (Hel : Forall (ordered less (Data e)) (b :: l)).
              { apply (Hbd e); [apply Hin; by right|by rewrite <-Hie]. }
              by apply Forall_cons in Hel as [_ ?].
           ++ rewrite lookup_insert_ne by done.
              apply Hin2 in He' as [->|He']; [done|].
              apply Hbd. apply Hin. by right.
        -- apply Push_heapOrdered; [by rewrite Hless1, Hless|by apply Hheap1].
      * rewrite Push_perm, pending_insert, (pending_lookup rests _ _ Hl). simpl.
        by rewrite <-Permutation_middle.
  - (* the reader of that run was closed before *)
    apply Hnext; try done.
    + rewrite Hlen1. simpl in Hm. lia.
    + intros j Hj. destruct (Hst j) as (e & He' & Hej); [done|].
      exists e. split; [|done]. apply Hin in He' as [->|?]; [|done].
      rewrite <-Hej, Hl in Hj. by destruct Hj.
    + by rewrite Hless1.
    + intros Hsw. destruct (Hord Hsw) as (Hs & Hb & Hh). split; [done|split].
      * intros e le He'. apply Hb. apply Hin. by right.
      * by apply Hheap1.
Qed.
End MergeFacts.

Section SortFacts.
Import fileheap HeapFacts.
Variable chunkFunc : Chunk.
Variable less : bytes -> bytes -> bool.
Hypothesis chunk_eof : eofAtEnd chunkFunc.

(** After the first refill the loop goes on as if it had been entered
    with the refilled state. *)
Lemma mergeLoop_fill fuel budget rests h rests1 h1 w :
  entries h = [] -> (1 <= fuel)%nat ->
  extsort.fillHeap chunkFunc fuel budget (mergeState rests h) =
    (Returned None, mergeState rests1 h1) ->
  staged rests1 h1 ->
  extsort.mergeLoop chunkFunc (S fuel) budget None (mergeState rests h) w =
  extsort.mergeLoop chunkFunc (S fuel) budget None (mergeState rests1 h1) w.
Proof.
  intros Hh Hfuel Hfill Hst.
  cbn [extsort.mergeLoop]. unfold mergeState in *.
  cbn [extsort.fileHeap extsort.files]. unfold Len. rewrite Hh.
  cbn [length Nat.eqb]. rewrite Hfill.
  cbv beta iota delta [extsort.fileHeap extsort.files].
  destruct (length (entries h1) =? 0)%nat eqn:E;
    cbv beta iota delta [extsort.fileHeap extsort.files]; rewrite ?E; [|done].
  assert (Hh1 : entries h1 = []).
  { apply Nat.eqb_eq in E. by destruct (entries h1). }
  assert (rests1 = ∅) as ->.
  { apply map_empty. intros j. destruct (rests1 !! j) eqn:Ej; [|done].
    destruct (Hst j) as (e & He & _); [eauto|]. rewrite Hh1 in He.
    by apply not_elem_of_nil in He. }
  destruct fuel as [|fuel]; [lia|].
  unfold extsort.fillHeap. rewrite fillHeapFrom_S.
  cbn [extsort.files]. rewrite fmap_empty, map_size_empty.
  cbn [Nat.ltb Nat.leb extsort.fileHeap]. by rewrite E.
Qed.

Lemma size_map_seq {A} (xs : list A) : size (map_seq (M:=gmap nat A) 0 xs) = length xs.
Proof.
  rewrite <-length_map_to_list, (Permutation_length (map_to_list_seq 0 xs)).
  rewrite length_zip_with, length_seq. lia.
Qed.

Lemma pending_map_seq (runs : list (list bytes)) :
  pending (map_seq 0 runs) ≡ₚ concat runs.
Proof.
  unfold pending. rewrite (map_to_list_seq 0 runs).
  rewrite snd_zip by (rewrite length_seq; lia). done.
Qed.

Lemma length_concat_le (runs : list (list bytes)) i run :
  runs !! i = Some run -> (length run <= length (concat runs))%nat.
Proof.
  revert i. induction runs as [|r runs IH]; intros [|i] Hi; simpl in *; try done.
  - injection Hi as ->. rewrite length_app. lia.
  - specialize (IH i Hi). rewrite length_app. lia.
Qed.

(** The merge of the runs [runs], fault-free: it ends, and the writer
    has received a permutation of their records, ordered when the runs
    are and [less] is a strict weak ordering. *)
Lemma mergeLoop_runs budget (runs : list (list bytes)) fuel w :
  Forall (Forall (framed chunkFunc)) runs ->
  (forall i run, runs !! i = Some run -> (S i < length runs)%nat ->
     run <> [] /\ budget <= sumLen run) ->
  (StrictWeak less -> Forall (StronglySorted (ordered less)) runs) ->
  (length runs + length (concat runs) + 3 <= fuel)%nat ->
  exists L st1,
    extsort.mergeLoop chunkFunc fuel budget None
      {| extsort.files := map_seq 0 (@concat byte <$> runs);
         extsort.fileHeap := NewHeap less |} w =
      (Returned None, st1, extsort.appendOut w (concat L)) /\
    L ≡ₚ concat runs /\
    (StrictWeak less -> StronglySorted (ordered less) L).
Proof.
  intros Hfr Hbig Hsorted Hfuel.
  destruct fuel as [|fuel]; [lia|].
  rewrite <-fmap_map_seq. fold (mergeState (map_seq 0 runs) (NewHeap less)).
  destruct (fillHeapFrom_ok chunkFunc less chunk_eof budget (length runs)
              (length (concat runs)) (length runs) 0 (map_seq 0 runs)
              (NewHeap less) fuel)
    as (rests1 & h1 & Hfill & Hst & Hfr1 & Hless1 & Hperm & Hord1); try done; try lia.
  - apply size_map_seq.
  - intros j. rewrite lookup_map_seq_0. apply lookup_lt_is_Some.
  - intros j l. rewrite lookup_map_seq_0. intros Hj.
    rewrite Forall_forall in Hfr. apply Hfr. by eapply list_elem_of_lookup_2.
  - intros j l. rewrite lookup_map_seq_0. apply length_concat_le.
  - intros j l _ HSj. rewrite lookup_map_seq_0. intros Hj. by apply (Hbig j).
  - intros Hsw. split; [|split].
    + intros j l. rewrite lookup_map_seq_0. intros Hj.
      specialize (Hsorted Hsw). rewrite Forall_forall in Hsorted.
      apply Hsorted. by eapply list_elem_of_lookup_2.
    + by intros e l ?%not_elem_of_nil.
    + intros k a b _ Ha. done.
  - rewrite (mergeLoop_fill fuel budget _ _ rests1 h1) by (try done; lia).
    simpl in Hperm. rewrite pending_map_seq in Hperm.
    destruct (mergeLoop_ok chunkFunc less chunk_eof budget
                (length (concat runs)) (S fuel) rests1 h1 w)
      as (L & st1 & Hrun & HL & HLs); try done; try lia.
    + rewrite <-(Permutation_length Hperm), length_app, length_fmap. lia.
    + exists L, st1. split; [done|]. split; [by rewrite HL|done].
Qed.
End SortFacts.

(** ** Spilling and closing, nothing failing *)

Lemma quot_budget M d s : 1 <= d -> 0 <= s -> M <= s -> Z.quot M d <= s.
Proof.
  intros Hd Hs HM. destruct (Z.le_gt_cases 0 M) as [H0|H0].
  - rewrite Z.quot_div_nonneg by lia.
    assert (M / d <= M) by (apply Z.div_le_upper_bound; nia). lia.
  - assert (Z.quot M d <= 0); [|lia].
    rewrite <-(Z.opp_involutive M), Z.quot_opp_l by lia.
    assert (0 <= Z.quot (- M) d) by (apply Z.quot_pos; lia). lia.
Qed.

Section WriteFacts.
Import extsort.
Context `{GoSort}.
Variable chunkFunc : Chunk.
Variable less : bytes -> bytes -> bool.

(** The engine has spilled the runs [runs], in this order, and holds
    [buf]; nothing has reached the output yet. *)
Record spilled (M : Z) (runs : list (list bytes)) (buf : list bytes)
    (se : sortEngine) (w : World) : Prop := {
  sp_limit : memLimit se = M;
  sp_number : tmpFilesNumber se = length runs;
  sp_buffer : memoryBuffer se = buf;
  sp_used : memUsed se = sumLen buf;
  sp_dir : tmpDirExists w = true;
  sp_files : tmpFiles w = map_seq 0 (@concat byte <$> runs);
  sp_out : outWritten w = []
}.

(** A run written by [Write]: not empty, at least [M] bytes, and sorted
    when [less] is a strict weak ordering. *)
Definition fullRun (M : Z) (run : list bytes) : Prop :=
  run <> [] /\ M <= sumLen run /\
  (StrictWeak less -> StronglySorted (ordered less) run).

Lemma overwrite_new new : overwrite [] new = new.
Proof. unfold overwrite. by rewrite drop_nil, app_nil_r. Qed.

Lemma sortSlice_strongly l :
  StrictWeak less -> StronglySorted (ordered less) (sortSlice less l).
Proof.
  intros Hsw. apply Sorted_StronglySorted; [|by apply sortSlice_sorted].
  intros a b c. apply (sw_trans _ Hsw).
Qed.

Lemma sortSlice_nonempty l : l <> [] -> sortSlice less l <> [].
Proof.
  intros Hl E. pose proof (sortSlice_perm less l) as Hp. rewrite E in Hp.
  by apply Permutation_nil_l in Hp.
Qed.

(** A spill that nothing disturbs adds the sorted buffer as the next run. *)
Lemma flush_spilled M runs buf se w :
  spilled M runs buf se w ->
  exists se1 w1,
    flushToTempFile less None se w = (None, se1, w1) /\
    spilled M (runs ++ [sortSlice less buf]) [] se1 w1 /\
    outIsCloser w1 = outIsCloser w /\ outClosed w1 = outClosed w.
Proof.
  intros [HM Hn Hb Hu Hd Hf Ho]. unfold flushToTempFile. rewrite Hd. simpl.
  eexists _, _. split; [done|]. split; [|done].
  split; simpl; try done.
  - rewrite length_app. simpl. lia.
  - unfold fileContent. rewrite Hf, Hn, Hb.
    rewrite lookup_map_seq_0, lookup_ge_None_2 by (rewrite length_fmap; lia).
    simpl. rewrite overwrite_new, fmap_app. cbn [fmap list_fmap].
    rewrite map_seq_snoc. simpl. by rewrite length_fmap.
Qed.

Lemma Write_spilled M runs buf se w b :
  spilled M runs buf se w ->
  exists se1 w1 runs1 buf1,
    Write less None b se w = ((len b, None), se1, w1) /\
    spilled M (runs ++ runs1) buf1 se1 w1 /\
    concat runs1 ++ buf1 ≡ₚ buf ++ [b] /\
    Forall (fullRun M) runs1 /\
    outIsCloser w1 = outIsCloser w /\ outClosed w1 = outClosed w.
Proof.
  intros Hsp. pose proof Hsp as [HM Hn Hb Hu Hd Hf Ho]. unfold Write. simpl.
  rewrite HM, Hu, Hb.
  assert (Hsum : sumLen buf + len b = sumLen (buf ++ [b])).
  { rewrite sumLen_app. simpl. lia. }
  destruct (Z.leb_spec M (sumLen buf + len b)) as [Hfull|Hroom].
  - destruct (flush_spilled M runs (buf ++ [b])
                {| memLimit := memLimit se; memUsed := sumLen buf + len b;
                   tmpFilesNumber := tmpFilesNumber se;
                   memoryBuffer := buf ++ [b] |} w)
      as (se1 & w1 & Hflush & Hsp1 & Hc1 & Hc2).
    { by split. }
    rewrite HM in Hflush. rewrite Hflush.
    exists se1, w1, [sortSlice less (buf ++ [b])], [].
    split; [done|]. split; [done|]. split.
    { simpl. rewrite !app_nil_r. apply sortSlice_perm. }
    split; [|done]. constructor; [|done]. split; [|split].
    + apply sortSlice_nonempty. by destruct buf.
    + rewrite (sumLen_perm _ _ (sortSlice_perm less (buf ++ [b]))). lia.
    + apply sortSlice_strongly.
  - eexists _, w, [], (buf ++ [b]). split; [done|].
    split; [|done]. rewrite app_nil_r. by split.
Qed.

Lemma writeAll_spilled M rs : forall runs buf se w,
  spilled M runs buf se w ->
  exists runs1 buf1,
    spilled M (runs ++ runs1) buf1 (writeAll less rs (se, w)).1 (writeAll less rs (se, w)).2 /\
    concat runs1 ++ buf1 ≡ₚ buf ++ rs /\
    Forall (fullRun M) runs1 /\
    outIsCloser (writeAll less rs (se, w)).2 = outIsCloser w /\
    outClosed (writeAll less rs (se, w)).2 = outClosed w.
Proof.
  induction rs as [|b rs IH]; intros runs buf se w Hsp.
  - exists [], buf. simpl. by rewrite !app_nil_r.
  - destruct (Write_spilled M runs buf se w b Hsp)
      as (se1 & w1 & runs1 & buf1 & HW & Hsp1 & Hp1 & Hfull1 & Hc1 & Hc2).
    unfold writeAll. simpl. rewrite HW. fold (writeAll less rs (se1, w1)).
    destruct (IH _ _ _ _ Hsp1) as (runs2 & buf2 & Hsp2 & Hp2 & Hfull2 & Hc3 & Hc4).
    exists (runs1 ++ runs2), buf2. rewrite app_assoc. split; [done|].
    split.
    { rewrite concat_app, <-app_assoc, Hp2, app_assoc, Hp1.
      by rewrite <-app_assoc. }
    split; [by apply Forall_app|]. split; congruence.
Qed.

(** *** [Close], nothing failing *)

Hypothesis chunk_eof : eofAtEnd chunkFunc.

Lemma map_seq_snoc_0 {A} (xs : list A) x :
  <[length xs := x]> (map_seq (M:=gmap nat A) 0 xs) = map_seq 0 (xs ++ [x]).
Proof. by rewrite map_seq_snoc. Qed.

Lemma openTmpFiles_all w : forall cs2 cs1,
  tmpFiles w = map_seq 0 (cs1 ++ cs2) ->
  openTmpFiles None w (length cs2) (length cs1) (map_seq 0 cs1) =
    inr (map_seq 0 (cs1 ++ cs2)).
Proof.
  induction cs2 as [|c cs2 IH]; intros cs1 Hf; simpl.
  - by rewrite app_nil_r.
  - rewrite Hf, lookup_map_seq_0, lookup_app_r, Nat.sub_diag by lia. simpl.
    rewrite map_seq_snoc_0.
    replace (S (length cs1)) with (length (cs1 ++ [c]))
      by (rewrite length_app; simpl; lia).
    rewrite IH; [by rewrite <-app_assoc|]. by rewrite <-app_assoc.
Qed.

Lemma sumLen_pos (l : list bytes) :
  Forall (fun r => r <> []) l -> l <> [] -> 0 < sumLen l.
Proof.
  intros Hl Hne. destruct l as [|r l]; [done|]. simpl.
  apply Forall_cons in Hl as [Hr _]. pose proof (sumLen_nonneg l).
  destruct r; [done|]. unfold len. simpl. lia.
Qed.

Lemma length_runs_le (runs : list (list bytes)) :
  Forall (fun run => run <> []) runs -> (length runs <= length (concat runs))%nat.
Proof.
  induction 1 as [|run runs Hr _ IH]; simpl; [lia|].
  rewrite length_app. destruct run; [done|]. simpl. lia.
Qed.

Definition removed (w : World) : World :=
  {| tmpDirExists := false; tmpFiles := ∅; outWritten := outWritten w;
     outIsCloser := outIsCloser w; outClosed := outClosed w |}.

(** Opening, copying or merging, and closing the output. *)
Lemma mergeRuns_spilled M runs se w fuel :
  spilled M runs [] se w ->
  Forall (Forall (framed chunkFunc)) runs ->
  (forall i run, runs !! i = Some run -> (S i < length runs)%nat ->
     run <> [] /\ M <= sumLen run) ->
  (StrictWeak less -> Forall (StronglySorted (ordered less)) runs) ->
  (length runs + length (concat runs) + 3 <= fuel)%nat ->
  exists L w1,
    mergeRuns chunkFunc less fuel noFaults se w = (Returned None, w1) /\
    outWritten w1 = concat L /\ L ≡ₚ concat runs /\
    (StrictWeak less -> StronglySorted (ordered less) L).
Proof.
  intros [HM Hn Hb Hu Hd Hf Ho] Hfr Hbig Hsorted Hfuel.
  unfold mergeRuns. cbn [openFault sinkFault sortRemoveErr sinkCloseErr noFaults].
  rewrite Hn. rewrite <-(length_fmap (@concat byte) runs).
  change 0%nat with (length (@nil bytes)) at 1.
  change (∅ : gmap nat bytes) with (map_seq (M:=gmap nat bytes) 0 []).
  rewrite openTmpFiles_all by done. cbn [app]. rewrite length_fmap.
  destruct (Nat.eqb_spec (length runs) 1) as [H1|H1].
  - destruct runs as [|run [|??]]; try done.
    cbn [fmap list_fmap map_seq]. rewrite lookup_insert_eq.
    unfold closeOut. simpl. exists run.
    destruct (outIsCloser w); eexists;
      (split; [done|]); simpl; rewrite Ho, app_nil_r;
      (split; [done|]); (split; [done|]);
      intros Hsw; specialize (Hsorted Hsw); by apply Forall_cons in Hsorted as [? _].
  - unfold sort. rewrite HM, Hn.
    destruct (mergeLoop_runs chunkFunc less chunk_eof
                (Z.quot M (Z.of_nat (length runs) + 1)) runs fuel w)
      as (L & st1 & Hrun & HL & HLs); try done.
    { intros i run Hi HSi. destruct (Hbig i run Hi HSi) as [Hne Hm].
      split; [done|]. apply quot_budget; [lia|apply sumLen_nonneg|done]. }
    rewrite Hrun. cbn [deferredRemoveTempFiles removeTempFiles].
    unfold closeOut. exists L. cbn [outIsCloser appendOut].
    destruct (outIsCloser w); eexists; (split; [done|]);
      cbn [outWritten appendOut]; rewrite Ho; done.
Qed.

(** The flush of the remainder. *)
Lemma flushRemainder_spilled M runs buf se w :
  spilled M runs buf se w -> Forall (fun r => r <> []) buf ->
  exists se1 w1 runs1,
    flushRemainder less None se w = (None, se1, w1) /\
    spilled M (runs ++ runs1) [] se1 w1 /\
    concat runs1 ≡ₚ buf /\
    (length runs1 <= 1)%nat /\
    Forall (fun run => run <> []) runs1 /\
    (StrictWeak less -> Forall (StronglySorted (ordered less)) runs1).
Proof.
  intros Hsp Hne. pose proof Hsp as [HM Hn Hb Hu Hd Hf Ho].
  unfold flushRemainder. rewrite Hu.
  destruct (Z.ltb_spec 0 (sumLen buf)) as [Hpos|Hzero].
  - destruct (flush_spilled M runs buf se w Hsp) as (se1 & w1 & Hflush & Hsp1 & _).
    rewrite Hflush. eexists _, w1, [sortSlice less buf].
    split; [done|]. split.
    { destruct Hsp1. by split. }
    simpl. rewrite app_nil_r. split; [apply sortSlice_perm|].
    split; [lia|]. split.
    + constructor; [|done]. apply sortSlice_nonempty. intros ->. simpl in Hpos. lia.
    + intros Hsw. constructor; [|done]. by apply sortSlice_strongly.
  - assert (buf = []) as ->.
    { destruct buf as [|r buf]; [done|].
      pose proof (sumLen_pos (r :: buf) Hne ltac:(done)). lia. }
    eexists _, w, []. split; [done|]. rewrite app_nil_r. split.
    { by split. }
    simpl. split; [done|]. split; [lia|]. split; by constructor.
Qed.

(** Writing the records [rs] into a fresh engine and closing it: the
    call returns without error, and the output is the concatenation of a
    permutation of [rs], ordered when [less] is a strict weak ordering. *)
Lemma Close_writeAll (rs : list bytes) (M : Z) (closer : bool) (fuel : nat) :
  Forall (framed chunkFunc) rs ->
  (2 * length rs + 3 <= fuel)%nat ->
  exists L se1 w1,
    Close chunkFunc less fuel noFaults
      (writeAll less rs (fresh closer M)).1 (writeAll less rs (fresh closer M)).2 =
      (Returned None, se1, w1) /\
    outWritten w1 = concat L /\ L ≡ₚ rs /\
    (StrictWeak less -> StronglySorted (ordered less) L).
Proof.
  intros Hfr Hfuel.
  destruct (writeAll_spilled M rs [] [] (fresh closer M).1 (fresh closer M).2)
    as (runs1 & buf1 & Hsp & Hperm & Hfull & _).
  { by split. }
  simpl in Hsp, Hperm. change (_, _) with (fresh closer M) in Hsp.
  set (se := (writeAll less rs (fresh closer M)).1) in *.
  set (w := (writeAll less rs (fresh closer M)).2) in *.
  assert (Hfr1 : Forall (framed chunkFunc) (concat runs1 ++ buf1)) by by rewrite Hperm.
  apply Forall_app in Hfr1 as [Hfr1 Hfrb].
  destruct (flushRemainder_spilled M runs1 buf1 se w Hsp)
    as (se1 & w1 & runs2 & Hflush & Hsp1 & Hperm2 & Hlen2 & Hne2 & Hs2).
  { eapply Forall_impl; [exact Hfrb|]. intros r. by apply framed_nonempty. }
  assert (Hall : concat (runs1 ++ runs2) ≡ₚ rs).
  { by rewrite concat_app, Hperm2. }
  assert (Hne : Forall (fun run => run <> []) (runs1 ++ runs2)).
  { apply Forall_app. split; [|done]. eapply Forall_impl; [exact Hfull|].
    by intros run [? _]. }
  destruct (mergeRuns_spilled M (runs1 ++ runs2) se1 w1 fuel Hsp1)
    as (L & w2 & Hmerge & Hout & HL & HLs).
  - apply Forall_forall. intros run Hrun. apply Forall_forall. intros r Hr.
    assert (r ∈ concat (runs1 ++ runs2)) by (apply elem_of_concat; eauto).
    rewrite Hall in H0. rewrite Forall_forall in Hfr. by apply Hfr.
  - intros i run Hi HSi. rewrite length_app in HSi.
    rewrite lookup_app_l in Hi by lia.
    rewrite Forall_forall in Hfull.
    destruct (Hfull run) as (? & ? & _); [by eapply list_elem_of_lookup_2|done].
  - intros Hsw. apply Forall_app. split; [|by apply Hs2].
    eapply Forall_impl; [exact Hfull|]. intros run (_ & _ & Hs). by apply Hs.
  - pose proof (length_runs_le _ Hne) as Hle.
    rewrite (Permutation_length Hall) in *. lia.
  - unfold Close, closeBody. cbn [spillFault closeRemoveErr noFaults].
    rewrite Hflush, Hmerge. cbn [deferredRemoveTempFiles removeTempFiles].
    exists L. eexists _, _. split; [done|]. cbn [outWritten].
    split; [done|]. split; [by rewrite HL|done].
Qed.
End WriteFacts.

(** ** The demonstration configuration meets the contracts *)

Module DemoFacts.
Import demo.

Lemma sinkLeft_perm less x rp : sinkLeft less x rp ≡ₚ x :: rp.
Proof.
  induction rp as [|y rp IH]; simpl; [done|].
  destruct (less x y); [|done]. by rewrite IH, Permutation_swap.
Qed.

Lemma insertionSort_perm less l : insertionSort less l ≡ₚ l.
Proof.
  unfold insertionSort. rewrite <-Permutation_rev.
  assert (Hgen : forall acc, foldl (fun rp x => sinkLeft less x rp) acc l ≡ₚ acc ++ l).
  { induction l as [|x l IH]; intros acc; simpl; [by rewrite app_nil_r|].
    by rewrite IH, sinkLeft_perm, <-Permutation_middle. }
  by rewrite Hgen.
Qed.

(** The sorted prefix, held last element first. *)
Definition descending (less : Less) (rp : list bytes) : Prop :=
  StronglySorted (fun a b => ordered less b a) rp.

Lemma sinkLeft_descending less x rp :
  StrictWeak less -> descending less rp -> descending less (sinkLeft less x rp).
Proof.
  intros Hsw. induction rp as [|y rp IH]; simpl; intros Hd.
  - by repeat constructor.
  - apply StronglySorted_inv in Hd as [Hd Hy].
    destruct (less x y) eqn:Hxy.
    + constructor; [by apply IH|].
      rewrite sinkLeft_perm. constructor; [|done].
      by apply (sw_asym _ Hsw).
    + constructor; [by constructor|]. constructor; [done|].
      eapply Forall_impl; [exact Hy|]. intros z Hz.
      by apply (sw_trans _ Hsw z y x).
Qed.

Lemma descending_rev less rp :
  descending less rp -> StronglySorted (ordered less) (rev rp).
Proof.
  induction 1 as [|y rp Hd IH Hy]; simpl; [constructor|].
  apply StronglySorted_app. split; [|split; [done|by repeat constructor]].
  intros x1 x2 Hx1 ->%list_elem_of_singleton.
  rewrite Forall_forall in Hy. apply Hy.
  apply list_elem_of_In, in_rev, list_elem_of_In. done.
Qed.

Lemma insertionSort_sorted less l :
  StrictWeak less -> Sorted (ordered less) (insertionSort less l).
Proof.
  intros Hsw. apply StronglySorted_Sorted, descending_rev.
  assert (Hgen : forall acc, descending less acc ->
            descending less (foldl (fun rp x => sinkLeft less x rp) acc l)).
  { induction l as [|x l IH]; intros acc Hacc; simpl; [done|].
    by apply IH, sinkLeft_descending. }
  apply Hgen. constructor.
Qed.

(** [sort.Sort], for the slices it sorts by insertion. *)
#[global] Instance insertionGoSort : GoSort := {|
  sortSlice := insertionSort;
  sortSlice_perm := insertionSort_perm;
  sortSlice_sorted := insertionSort_sorted
|}.

(** [bytes.Compare(b1, b2) < 0] is a strict weak ordering. *)
Lemma bytesLess_asym : forall a b, bytesLess a b = true -> bytesLess b a = false.
Proof.
  induction a as [|c1 a IH]; intros [|c2 b]; simpl; try done.
  destruct (N.ltb_spec (Byte.to_N c1) (Byte.to_N c2)),
           (N.ltb_spec (Byte.to_N c2) (Byte.to_N c1)); try done; try lia.
  apply IH.
Qed.

Lemma bytesLess_trans : forall a b c,
  bytesLess b a = false -> bytesLess c b = false -> bytesLess c a = false.
Proof.
  induction a as [|c1 a IH]; intros [|c2 b] [|c3 c]; simpl; try done.
  destruct (N.ltb_spec (Byte.to_N c2) (Byte.to_N c1)),
           (N.ltb_spec (Byte.to_N c1) (Byte.to_N c2)),
           (N.ltb_spec (Byte.to_N c3) (Byte.to_N c2)),
           (N.ltb_spec (Byte.to_N c2) (Byte.to_N c3)),
           (N.ltb_spec (Byte.to_N c3) (Byte.to_N c1)),
           (N.ltb_spec (Byte.to_N c1) (Byte.to_N c3)); try done; try lia.
  apply IH.
Qed.

Lemma lessFunc_StrictWeak : StrictWeak lessFunc.
Proof. split; [apply bytesLess_asym|]. intros a b c. apply bytesLess_trans. Qed.

(** [ReadBytes] gives back a line that ends with its only delimiter. *)
Lemma ReadBytes_line delim (l rest : bytes) :
  Forall (fun c => Byte.eqb c delim = false) l ->
  ReadBytes delim ((l ++ [delim]) ++ rest) = ((l ++ [delim], None), rest).
Proof.
  induction 1 as [|c l Hc _ IH]; simpl.
  - by rewrite Byte.byte_dec_lb.
  - by rewrite Hc, IH.
Qed.

Lemma chunkFunc_eofAtEnd : eofAtEnd chunkFunc.
Proof. by exists [], []. Qed.

Lemma line_framed (s : string) :
  forallb (fun c => negb (Byte.eqb c linesDelim)) (list_byte_of_string s) = true ->
  framed chunkFunc (line s).
Proof.
  intros Hs rest. apply ReadBytes_line.
  apply Forall_forall. intros c Hc. rewrite forallb_forall in Hs.
  apply negb_true_iff, Hs, list_elem_of_In, Hc.
Qed.
End DemoFacts.

(** ** The records of the output *)

Section OutputFacts.
Context `{GoSort}.
Variable chunkFunc : Chunk.
Variable less : bytes -> bytes -> bool.
Hypothesis chunk_eof : eofAtEnd chunkFunc.

Lemma unchunk_concat L : forall fuel,
  Forall (framed chunkFunc) L -> (length L < fuel)%nat ->
  unchunk chunkFunc fuel (concat L) = L.
Proof.
  induction L as [|r L IH]; intros [|fuel] Hfr Hfuel; simpl in Hfuel; try lia.
  - destruct chunk_eof as (b & rest & He). simpl. by rewrite He.
  - apply Forall_cons in Hfr as [Hr Hfr]. cbn [unchunk].
    rewrite (chunk_cons _ r L Hr). f_equal. apply IH; [done|lia].
Qed.

Lemma length_concat_framed L :
  Forall (framed chunkFunc) L -> (length L <= length (concat L))%nat.
Proof.
  induction 1 as [|r L Hr _ IH]; simpl; [lia|].
  rewrite length_app. pose proof (framed_nonempty _ chunk_eof r Hr).
  destruct r; [done|]. simpl. lia.
Qed.

Lemma recordsOf_concat L :
  Forall (framed chunkFunc) L -> recordsOf chunkFunc (concat L) = L.
Proof.
  intros Hfr. apply unchunk_concat; [done|].
  pose proof (length_concat_framed L Hfr). lia.
Qed.

Lemma StronglySorted_adjacent (L : list bytes) :
  StronglySorted (ordered less) L ->
  forall i a b, L !! i = Some a -> L !! S i = Some b -> less b a = false.
Proof.
  induction 1 as [|x L _ IH Hx]; intros [|i] a b Ha Hb; simpl in *; try done.
  - injection Ha as ->. rewrite Forall_forall in Hx.
    apply Hx. by eapply list_elem_of_lookup_2.
  - by apply (IH i).
Qed.

Lemma sortRecords_ok rs M closer fuel :
  Forall (framed chunkFunc) rs -> (2 * length rs + 3 <= fuel)%nat ->
  exists L,
    (sortRecords chunkFunc less fuel closer M rs).1.1 = Returned None /\
    recordsOf chunkFunc
      (extsort.outWritten (sortRecords chunkFunc less fuel closer M rs).2) = L /\
    L ≡ₚ rs /\
    (StrictWeak less -> StronglySorted (ordered less) L).
Proof.
  intros Hfr Hfuel. unfold sortRecords.
  destruct (Close_writeAll chunkFunc less chunk_eof rs M closer fuel Hfr Hfuel)
    as (L & se1 & w1 & -> & Hout & HL & HLs).
  exists L. simpl. rewrite Hout. split; [done|]. split; [|done].
  apply recordsOf_concat. by rewrite HL.
Qed.
End OutputFacts.

(** ** Counting the runs *)

Lemma ceilDiv_split k r :
  0 <= k -> 1 <= r ->
  ceilDiv k r = k / r + (if 0 <? k mod r then 1 else 0).
Proof.
  intros Hk Hr. unfold ceilDiv.
  pose proof (Z.div_mod k r ltac:(lia)) as Hdm.
  pose proof (Z.mod_pos_bound k r ltac:(lia)) as Hb.
  destruct (Z.ltb_spec 0 (k mod r)).
  - symmetry. apply (Z.div_unique _ _ _ (k mod r - 1)); [lia|].
    rewrite Z.mul_add_distr_l. lia.
  - symmetry. apply (Z.div_unique _ _ _ (r - 1)); [lia|].
    assert (k mod r = 0) by lia. lia.
Qed.
Lemma ceil_div_exact s M k : 0 < s -> 0 < M -> 0 <= k -> (s | M) ->
  ceilDiv k (ceilDiv M s) = ceilDiv (k * s) M.
Proof.
  intros Hs HM Hk [c ->]. assert (0 < c) by nia.
  assert (Hc : ceilDiv (c * s) s = c).
  { unfold ceilDiv. symmetry. apply (Z.div_unique _ _ _ (s - 1)); lia. }
  rewrite Hc. unfold ceilDiv.
  replace (k * s + c * s - 1) with ((k + c - 1) * s + (s - 1)) by lia.
  rewrite (Z.mul_comm c s).
  rewrite <-Z.div_div by lia.
  f_equal. apply (Z.div_unique _ _ (k + c - 1) (s - 1)); lia.
Qed.

Section CountFacts.
Import extsort.
Context `{GoSort}.
Variable chunkFunc : Chunk.
Variable less : bytes -> bytes -> bool.

(** What a [Write] that nothing disturbs does to the counters. *)
Lemma Write_counters b se w :
  tmpDirExists w = true ->
  tmpDirExists (Write less None b se w).2 = true /\
  memLimit (Write less None b se w).1.2 = memLimit se /\
  if memLimit se <=? memUsed se + len b
  then tmpFilesNumber (Write less None b se w).1.2 = S (tmpFilesNumber se) /\
       memUsed (Write less None b se w).1.2 = 0
  else tmpFilesNumber (Write less None b se w).1.2 = tmpFilesNumber se /\
       memUsed (Write less None b se w).1.2 = memUsed se + len b.
Proof.
  intros Hd. unfold Write, flushToTempFile. simpl. rewrite Hd. simpl.
  destruct (memLimit se <=? memUsed se + len b); simpl; done.
Qed.

Lemma writeAll_cons b rs se w :
  writeAll less (b :: rs) (se, w) =
    writeAll less rs ((Write less None b se w).1.2, (Write less None b se w).2).
Proof.
  unfold writeAll. simpl. by destruct (Write less None b se w) as [[? ?] ?].
Qed.

(** Records of [s] bytes each, [r] of which fill the limit [M]: with [t]
    records in the buffer, [k] more bring the number of runs up by
    [(t + k) / r] and leave [(t + k) mod r] in the buffer. *)
Lemma writeAll_uniform (s M r : Z) rs :
  0 < s -> 1 <= r -> (forall q, 0 <= q -> M <= s * q <-> r <= q) ->
  Forall (fun b => len b = s) rs ->
  forall se w t,
    tmpDirExists w = true -> memLimit se = M ->
    0 <= t < r -> memUsed se = s * t ->
    tmpDirExists (writeAll less rs (se, w)).2 = true /\
    memLimit (writeAll less rs (se, w)).1 = M /\
    Z.of_nat (tmpFilesNumber (writeAll less rs (se, w)).1) =
      Z.of_nat (tmpFilesNumber se) + (t + len rs) / r /\
    memUsed (writeAll less rs (se, w)).1 = s * ((t + len rs) mod r).
Proof.
  intros Hs Hr Hfill. induction 1 as [|b rs Hb _ IH]; intros se w t Hd HM Ht Hu.
  - unfold writeAll, len. simpl. rewrite Z.add_0_r, Z.div_small, Z.mod_small by lia.
    repeat split; try done; lia.
  - rewrite writeAll_cons.
    destruct (Write_counters b se w Hd) as (Hd1 & HM1 & Hc).
    rewrite HM, Hu, Hb in Hc.
    assert (Hlen : len (b :: rs) = 1 + len rs) by (unfold len; simpl; lia).
    assert (Hq : s * t + s = s * (t + 1)) by lia. rewrite Hq in Hc.
    pose proof (Hfill (t + 1) ltac:(lia)) as Hspill.
    assert (0 <= len rs) by (unfold len; lia).
    destruct (Z.leb_spec M (s * (t + 1))) as [Hfull|Hroom].
    + assert (t + 1 = r) as Ht1 by lia. destruct Hc as [Hn Hu1].
      destruct (IH (Write less None b se w).1.2 (Write less None b se w).2 0)
        as (Hd2 & HM2 & Hn2 & Hu2); [done|congruence|lia|lia|].
      split; [done|]. split; [done|]. rewrite Hn2, Hu2, Hn, Hlen.
      replace (t + (1 + len rs)) with (len rs + 1 * r) by lia.
      rewrite Z.div_add, Z.mod_add, !Z.add_0_l, Nat2Z.inj_succ by lia.
      split; [|done]. generalize (len rs / r). intros; lia.
    + destruct Hc as [Hn Hu1].
      destruct (IH (Write less None b se w).1.2 (Write less None b se w).2 (t + 1))
        as (Hd2 & HM2 & Hn2 & Hu2); [done|congruence|lia|lia|].
      split; [done|]. split; [done|]. rewrite Hn2, Hu2, Hn, Hlen.
      replace (t + (1 + len rs)) with (t + 1 + len rs) by lia. done.
Qed.

(** [Close] hands back the engine as the flush of the remainder left it. *)
Lemma Close_counters fuel se w :
  tmpDirExists w = true ->
  tmpFilesNumber (Close chunkFunc less fuel noFaults se w).1.2 =
    if 0 <? memUsed se then S (tmpFilesNumber se) else tmpFilesNumber se.
Proof.
  intros Hd. unfold Close, closeBody, flushRemainder, flushToTempFile. simpl.
  rewrite Hd. simpl.
  destruct (0 <? memUsed se); simpl;
    match goal with |- context [mergeRuns ?c ?l ?f ?ff ?s ?ww] =>
      destruct (mergeRuns c l f ff s ww) as [r w2] end;
    match goal with |- context [deferredRemoveTempFiles ?e ?r ?ww] =>
      destruct (deferredRemoveTempFiles e r ww) end; done.
Qed.

Lemma ceilDiv_fill (s M : Z) :
  0 < s -> 0 < M ->
  1 <= ceilDiv M s /\ forall q, 0 <= q -> M <= s * q <-> ceilDiv M s <= q.
Proof.
  intros Hs HM. unfold ceilDiv. split; [|intros q Hq; split; intros Hle]; nia.
Qed.

Lemma sortRecords_runs (s M : Z) rs fuel closer :
  0 < s -> 0 < M -> Forall (fun b => len b = s) rs ->
  Z.of_nat (tmpFilesNumber (sortRecords chunkFunc less fuel closer M rs).1.2) =
    ceilDiv (len rs) (ceilDiv M s).
Proof.
  intros Hs HM Hrs. destruct (ceilDiv_fill s M Hs HM) as [Hr Hfill].
  unfold sortRecords.
  destruct (writeAll_uniform s M (ceilDiv M s) rs Hs Hr Hfill Hrs
              (fresh closer M).1 (fresh closer M).2 0)
    as (Hd & HM1 & Hn & Hu); [done|done|lia|simpl; lia|].
  change (_, _) with (fresh closer M) in Hd, HM1, Hn, Hu.
  rewrite Close_counters by done. rewrite Hu. simpl in Hn.
  rewrite !Z.add_0_l in Hn |- *.
  assert (0 <= len rs) by (unfold len; lia).
  rewrite (ceilDiv_split (len rs) (ceilDiv M s)) by lia.
  pose proof (Z.mod_pos_bound (len rs) (ceilDiv M s) ltac:(lia)) as Hb.
  destruct (Z.ltb_spec 0 (s * (len rs mod ceilDiv M s))),
           (Z.ltb_spec 0 (len rs mod ceilDiv M s)); nia.
Qed.
End CountFacts.

Lemma sumLen_uniform (s : Z) rs :
  Forall (fun b => len b = s) rs -> sumLen rs = len rs * s.
Proof.
  induction 1 as [|b rs Hb _ IH]; [done|].
  cbn [sumLen foldr]. fold (sumLen rs). rewrite IH, Hb. unfold len. simpl length. lia.
Qed.

Lemma ceilDiv_exact (n M : Z) : 0 < M -> (M | n) -> ceilDiv n M = n / M.
Proof.
  intros HM [c ->]. unfold ceilDiv. rewrite Z.div_mul by lia.
  symmetry. apply (Z.div_unique _ _ c (M - 1)); lia.
Qed.

(** ** No run at all *)

(** With no run at all, [Close] only finds out that there is nothing to
    merge. *)
Lemma mergeLoop_nothing (chunkFunc : Chunk) (lessFunc : Less) fuel budget w :
  (2 <= fuel)%nat ->
  extsort.mergeLoop chunkFunc fuel budget None
    {| extsort.files := ∅; extsort.fileHeap := fileheap.NewHeap lessFunc |} w =
  (Returned None,
   {| extsort.files := ∅; extsort.fileHeap := fileheap.NewHeap lessFunc |}, w).
Proof.
  intros Hfuel. destruct fuel as [|[|fuel]]; [lia|lia|].
  pose proof (mergeLoop_done chunkFunc fuel budget (fileheap.NewHeap lessFunc) w
                eq_refl) as Hd.
  unfold mergeState in Hd. by rewrite fmap_empty in Hd.
Qed.

Lemma Close_no_runs `{GoSort} (chunkFunc : Chunk) (lessFunc : Less) fuel se w se1 w1 :
  extsort.flushRemainder lessFunc None se w = (None, se1, w1) ->
  extsort.tmpFilesNumber se1 = 0%nat -> (2 <= fuel)%nat ->
  (extsort.Close chunkFunc lessFunc fuel extsort.noFaults se w).1.1 = Returned None /\
  (extsort.Close chunkFunc lessFunc fuel extsort.noFaults se w).1.2 = se1 /\
  extsort.outWritten (extsort.Close chunkFunc lessFunc fuel extsort.noFaults se w).2 =
    extsort.outWritten w1.
Proof.
  intros Hflush Hn Hfuel.
  unfold extsort.Close, extsort.closeBody, extsort.mergeRuns, extsort.sort.
  cbn [extsort.spillFault extsort.openFault extsort.sinkFault extsort.sinkCloseErr
       extsort.sortRemoveErr extsort.closeRemoveErr extsort.noFaults].
  rewrite Hflush, Hn. cbn [extsort.openTmpFiles Nat.eqb].
  rewrite mergeLoop_nothing by done.
  unfold extsort.closeOut. simpl. by destruct (extsort.outIsCloser w1).
Qed.

(** ** The counter follows the buffer *)

Section BufferFacts.
Context `{GoSort}.
Variable chunkFunc : Chunk.
Variable lessFunc : Less.

Lemma flush_counter fault se w :
  counterMatchesBuffer se ->
  counterMatchesBuffer (extsort.flushToTempFile lessFunc fault se w).1.2.
Proof.
  unfold counterMatchesBuffer, extsort.flushToTempFile. intros Hinv.
  assert (Hs : extsort.memUsed se =
               sumLen (sortSlice lessFunc (extsort.memoryBuffer se))).
  { by rewrite (sumLen_perm _ _ (sortSlice_perm lessFunc (extsort.memoryBuffer se))). }
  destruct (negb (extsort.tmpDirExists w)); [done|].
  destruct fault as [[e|k p e|p e]|]; try destruct (k <? _)%nat; done.
Qed.

Lemma Write_counter fault b se w :
  counterMatchesBuffer se ->
  counterMatchesBuffer (extsort.Write lessFunc fault b se w).1.2.
Proof.
  intros Hinv. unfold extsort.Write. cbn [extsort.memLimit extsort.memUsed].
  fold (accepted b se).
  assert (Ha : counterMatchesBuffer (accepted b se)).
  { unfold counterMatchesBuffer, accepted in *. simpl.
    rewrite sumLen_app, Hinv. simpl. lia. }
  destruct (_ <=? _); [|done].
  pose proof (flush_counter fault (accepted b se) w Ha) as Hf.
  by destruct (extsort.flushToTempFile lessFunc fault (accepted b se) w)
    as [[[e|] se1] w1].
Qed.

Lemma Close_counter fuel f se w :
  counterMatchesBuffer se ->
  counterMatchesBuffer (extsort.Close chunkFunc lessFunc fuel f se w).1.2.
Proof.
  intros Hinv. unfold extsort.Close, extsort.closeBody, extsort.flushRemainder.
  assert (Hres : forall r se1 w1, counterMatchesBuffer se1 ->
    counterMatchesBuffer
      (let '(r1, w2) :=
         extsort.deferredRemoveTempFiles (extsort.closeRemoveErr f) r w1 in
       (r1, se1, w2)).1.2).
  { intros r se1 w1 H1.
    by destruct (extsort.deferredRemoveTempFiles (extsort.closeRemoveErr f) r w1). }
  destruct (Z.ltb_spec 0 (extsort.memUsed se)) as [Hpos|Hzero].
  - pose proof (flush_counter (extsort.spillFault f) se w Hinv) as Hf.
    assert (Hok : (extsort.flushToTempFile lessFunc (extsort.spillFault f) se w).1.1
                  = None ->
              extsort.memUsed
                (extsort.flushToTempFile lessFunc (extsort.spillFault f) se w).1.2 = 0).
    { unfold extsort.flushToTempFile.
      destruct (negb (extsort.tmpDirExists w)); [done|].
      destruct (extsort.spillFault f) as [[e|k p e|p e]|];
        try destruct (k <? _)%nat; done. }
    destruct (extsort.flushToTempFile lessFunc (extsort.spillFault f) se w)
      as [[[e|] se1] w1]; simpl in Hf, Hok.
    + by apply Hres.
    + destruct (extsort.mergeRuns _ _ _ _ _ _) as [r w2]. apply Hres.
      unfold counterMatchesBuffer. simpl. by apply Hok.
  - destruct (extsort.mergeRuns _ _ _ _ _ _) as [r w2]. apply Hres.
    unfold counterMatchesBuffer in *. simpl.
    pose proof (sumLen_nonneg (extsort.memoryBuffer se)). lia.
Qed.
End BufferFacts.

(** ** Records of no bytes *)

Lemma sumLen_zero rs : sumLen rs = 0 -> Forall (fun b : bytes => b = []) rs.
Proof.
  induction rs as [|b rs IH]; [done|]. cbn [sumLen foldr]. fold (sumLen rs).
  pose proof (sumLen_nonneg rs). intros Hs.
  assert (len b = 0 /\ sumLen rs = 0) as [Hb Hr] by (unfold len in *; lia).
  constructor; [|by apply IH]. destruct b; [done|]. unfold len in Hb. simpl in Hb. lia.
Qed.

Lemma writeAll_empty_records `{GoSort} (lessFunc : Less) rs :
  Forall (fun b : bytes => b = []) rs ->
  forall se w, 0 < extsort.memLimit se -> extsort.memUsed se = 0 ->
    extsort.writeAll lessFunc rs (se, w) =
      ({| extsort.memLimit := extsort.memLimit se; extsort.memUsed := 0;
          extsort.tmpFilesNumber := extsort.tmpFilesNumber se;
          extsort.memoryBuffer := extsort.memoryBuffer se ++ rs |}, w).
Proof.
  induction 1 as [|b rs -> _ IH]; intros se w HM Hu.
  - unfold extsort.writeAll. simpl. rewrite app_nil_r. destruct se. simpl in *. by subst.
  - rewrite writeAll_cons. unfold extsort.Write.
    cbn [extsort.memLimit extsort.memUsed]. rewrite Hu.
    change (len (@nil byte)) with 0. rewrite Z.add_0_l.
    destruct (Z.leb_spec (extsort.memLimit se) 0); [lia|]. cbn [fst snd].
    rewrite IH by (simpl; lia). simpl. by rewrite <-app_assoc.
Qed.

(** * The properties *)

(** ** Order and completeness of the output *)

(** C1.  Total order: records that the chunk function frames are written
    into a fresh engine, which is then closed, nothing failing and the
    comparator being a strict weak ordering.  [Close] returns without
    error, and every adjacent pair [a], [b] of records of the output
    satisfies: not [lessFunc b a]. *)
Theorem output_is_ordered `{GoSort} (chunkFunc : Chunk) (lessFunc : Less)
    (rs : list bytes) (memLimit : Z) (outIsCloser : bool) (fuel : nat) :
  eofAtEnd chunkFunc -> Forall (framed chunkFunc) rs -> StrictWeak lessFunc ->
  (2 * length rs + 3 <= fuel)%nat ->
  (sortRecords chunkFunc lessFunc fuel outIsCloser memLimit rs).1.1 = Returned None /\
  forall i a b,
    recordsOf chunkFunc
      (extsort.outWritten (sortRecords chunkFunc lessFunc fuel outIsCloser memLimit rs).2)
      !! i = Some a ->
    recordsOf chunkFunc
      (extsort.outWritten (sortRecords chunkFunc lessFunc fuel outIsCloser memLimit rs).2)
      !! S i = Some b ->
    lessFunc b a = false.
Proof.
  intros Heof Hfr Hsw Hfuel.
  destruct (sortRecords_ok chunkFunc lessFunc Heof rs memLimit outIsCloser fuel Hfr Hfuel)
    as (L & Hr & -> & _ & HLs).
  split; [done|]. by apply StronglySorted_adjacent, HLs.
Qed.

Lemma output_is_ordered_witness :
  let rs := [demo.line "4"; demo.line "8"; demo.line "6";
             demo.line "1"; demo.line "9"; demo.line "12"] in
  (sortRecords demo.chunkFunc demo.lessFunc 15 false 4 rs).1.1 = Returned None /\
  forall i a b,
    recordsOf demo.chunkFunc
      (extsort.outWritten (sortRecords demo.chunkFunc demo.lessFunc 15 false 4 rs).2)
      !! i = Some a ->
    recordsOf demo.chunkFunc
      (extsort.outWritten (sortRecords demo.chunkFunc demo.lessFunc 15 false 4 rs).2)
      !! S i = Some b ->
    demo.lessFunc b a = false.
Proof.
  intros rs.
  apply (output_is_ordered demo.chunkFunc demo.lessFunc rs 4 false 15).
  - exact DemoFacts.chunkFunc_eofAtEnd.
  - repeat constructor; apply DemoFacts.line_framed; reflexivity.
  - exact DemoFacts.lessFunc_StrictWeak.
  - simpl. lia.
Defined.

(** C2.  Completeness: under the same conditions, for every memory limit
    (so also for one that is at least the size of a record) and every
    comparator, the records of the output are a permutation of the records
    written: none is lost, none is duplicated. *)
Theorem output_is_permutation `{GoSort} (chunkFunc : Chunk) (lessFunc : Less)
    (rs : list bytes) (memLimit : Z) (outIsCloser : bool) (fuel : nat) :
  eofAtEnd chunkFunc -> Forall (framed chunkFunc) rs ->
  (2 * length rs + 3 <= fuel)%nat ->
  (sortRecords chunkFunc lessFunc fuel outIsCloser memLimit rs).1.1 = Returned None /\
  recordsOf chunkFunc
    (extsort.outWritten (sortRecords chunkFunc lessFunc fuel outIsCloser memLimit rs).2)
  ≡ₚ rs.
Proof.
  intros Heof Hfr Hfuel.
  destruct (sortRecords_ok chunkFunc lessFunc Heof rs memLimit outIsCloser fuel Hfr Hfuel)
    as (L & Hr & -> & HL & _).
  done.
Qed.

Lemma output_is_permutation_witness :
  let rs := [demo.line "4"; demo.line "8"; demo.line "6";
             demo.line "1"; demo.line "9"; demo.line "12"] in
  (sortRecords demo.chunkFunc demo.lessFunc 15 false 4 rs).1.1 = Returned None /\
  recordsOf demo.chunkFunc
    (extsort.outWritten (sortRecords demo.chunkFunc demo.lessFunc 15 false 4 rs).2)
  ≡ₚ rs.
Proof.
  intros rs.
  apply (output_is_permutation demo.chunkFunc demo.lessFunc rs 4 false 15).
  - exact DemoFacts.chunkFunc_eofAtEnd.
  - repeat constructor; apply DemoFacts.line_framed; reflexivity.
  - simpl. lia.
Defined.

(** ** The refill phase *)

(** C3, what the code does where the claim fails.  Limit 0 and the
    records [""], ["b\n"], ["a\n"]: each [Write] spills, run 0 is an empty
    file.  The first refill finds run 0 at its end and deletes its reader;
    [len(files)] is now 2, so the loop stops after index 1 and never visits
    run 2, whose reader stays open and unread, with nothing of it in the
    heap.  After ["b\n"] has been written out the heap is empty, the next
    refill looks up index 0, finds no reader, and the chunk function is
    called on nil: [Close] panics and ["a\n"] never reaches the output.
    The same happens with limit 4 and the records ["zzzz"] (no
    delimiter), ["cc\n"], ["dd\n"], ["aa\n"]. *)
Lemma refill_skips_an_open_reader :
  let st := {| extsort.files := map_seq 0 [[]; demo.line "b"; demo.line "a"];
               extsort.fileHeap := fileheap.NewHeap demo.lessFunc |} in
  (extsort.fillHeap demo.chunkFunc 10 0 st).1 = Returned None /\
  extsort.files (extsort.fillHeap demo.chunkFunc 10 0 st).2 !! 2%nat =
    Some (demo.line "a") /\
  fileheap.FileIdx <$>
    fileheap.entries (extsort.fileHeap (extsort.fillHeap demo.chunkFunc 10 0 st).2) =
    [1%nat] /\
  (sortRecords demo.chunkFunc demo.lessFunc 20 false 0
     [[]; demo.line "b"; demo.line "a"]).1.1 = Panicked extsort.nilReader /\
  extsort.outWritten
    (sortRecords demo.chunkFunc demo.lessFunc 20 false 0
       [[]; demo.line "b"; demo.line "a"]).2 = demo.line "b" /\
  (sortRecords demo.chunkFunc demo.lessFunc 20 false 4
     [list_byte_of_string "zzzz"; demo.line "cc"; demo.line "dd"; demo.line "aa"]).1.1 =
    Panicked extsort.nilReader /\
  extsort.outWritten
    (sortRecords demo.chunkFunc demo.lessFunc 20 false 4
       [list_byte_of_string "zzzz"; demo.line "cc"; demo.line "dd"; demo.line "aa"]).2 =
    demo.line "cc" ++ demo.line "dd".
Proof. vm_compute. repeat split. Qed.

(** ** The number of runs *)

(** C4 (as amended).  Records of [s] bytes each, [s > 0], written into a
    fresh engine of limit [M > 0], which is then closed, nothing failing.
    A run is spilled as soon as the buffered bytes reach [M], that is
    every [ceil(M / s)] records, and the remainder makes one more run only
    when there is one: the number of runs is
    [ceil(k / ceil(M / s))] for [k] records.  When [s] divides [M] this is
    [ceil(N / M)] for the [N] bytes written, and when moreover [M] divides
    [N] it is exactly [N / M]: no empty run is added at the end. *)
Theorem run_count_uniform `{GoSort} (chunkFunc : Chunk) (lessFunc : Less)
    (s M : Z) (rs : list bytes) (fuel : nat) (outIsCloser : bool) :
  0 < s -> 0 < M -> Forall (fun b => len b = s) rs ->
  let runs :=
    Z.of_nat (extsort.tmpFilesNumber
                (sortRecords chunkFunc lessFunc fuel outIsCloser M rs).1.2) in
  runs = ceilDiv (len rs) (ceilDiv M s) /\
  ((s | M) -> runs = ceilDiv (sumLen rs) M) /\
  ((s | M) -> (M | sumLen rs) -> runs = sumLen rs / M).
Proof.
  intros Hs HM Hrs runs.
  assert (Hruns : runs = ceilDiv (len rs) (ceilDiv M s))
    by by apply sortRecords_runs.
  assert (Hdiv : (s | M) -> runs = ceilDiv (sumLen rs) M).
  { intros Hd. rewrite Hruns, (sumLen_uniform s rs Hrs).
    apply ceil_div_exact; try done. unfold len. lia. }
  split; [done|]. split; [done|].
  intros Hd HN. rewrite Hdiv by done. by apply ceilDiv_exact.
Qed.

Lemma run_count_uniform_witness :
  let rs := [demo.line "4"; demo.line "8"; demo.line "6"; demo.line "1"] in
  let runs :=
    Z.of_nat (extsort.tmpFilesNumber
                (sortRecords demo.chunkFunc demo.lessFunc 11 false 4 rs).1.2) in
  runs = ceilDiv (len rs) (ceilDiv 4 2) /\
  ((2 | 4) -> runs = ceilDiv (sumLen rs) 4) /\
  ((2 | 4) -> (4 | sumLen rs) -> runs = sumLen rs / 4).
Proof.
  intros rs.
  apply (run_count_uniform demo.chunkFunc demo.lessFunc 2 4 rs 11 false).
  - lia.
  - lia.
  - repeat constructor.
Defined.

(** C4, the claim as stated fails: six records of 2 bytes with limit 3
    make 3 runs (each run takes two records, 4 bytes), where
    [ceil(12 / 3)] is 4. *)
Lemma run_count_not_ceil_N_M :
  let rs := replicate 6 (demo.line "a") in
  Forall (fun b => len b = 2) rs /\
  sumLen rs = 12 /\
  extsort.tmpFilesNumber
    (sortRecords demo.chunkFunc demo.lessFunc 20 false 3 rs).1.2 = 3%nat /\
  ceilDiv (sumLen rs) 3 = 4.
Proof. vm_compute. repeat split; repeat constructor. Qed.

(** ** A removal that fails *)

(** C5 (as amended).  When the removal of the directory that [Close]
    defers fails, [removeTempFiles] panics with an error value that wraps
    the failure: a [Close] that comes to its end panics, whatever its body
    had to return, and hands no error value back to the caller. *)
Theorem cleanup_failure_panics `{GoSort} (chunkFunc : Chunk) (lessFunc : Less)
    (fuel : nat) (f : extsort.CloseFaults) (se : extsort.sortEngine)
    (w : extsort.World) (e : error) :
  extsort.closeRemoveErr f = Some e ->
  (extsort.Close chunkFunc lessFunc fuel f se w).1.1 = OutOfFuel \/
  (extsort.Close chunkFunc lessFunc fuel f se w).1.1 =
    Panicked (Errorf "cannot remove temp files in %s: %s\n" e).
Proof.
  intros He. unfold extsort.Close.
  destruct (extsort.closeBody chunkFunc lessFunc fuel f se w) as [[r se1] w1].
  unfold extsort.deferredRemoveTempFiles, extsort.removeTempFiles. rewrite He.
  destruct r; simpl; auto.
Qed.

Lemma cleanup_failure_panics_witness :
  (extsort.Close demo.chunkFunc demo.lessFunc 5
     (removalFails (OsError "permission denied"))
     (extsort.fresh false 4).1 (extsort.fresh false 4).2).1.1 = OutOfFuel \/
  (extsort.Close demo.chunkFunc demo.lessFunc 5
     (removalFails (OsError "permission denied"))
     (extsort.fresh false 4).1 (extsort.fresh false 4).2).1.1 =
    Panicked (Errorf "cannot remove temp files in %s: %s\n"
                (OsError "permission denied")).
Proof.
  apply (cleanup_failure_panics demo.chunkFunc demo.lessFunc 5
           (removalFails (OsError "permission denied"))
           (extsort.fresh false 4).1 (extsort.fresh false 4).2
           (OsError "permission denied")).
  reflexivity.
Defined.

(** C5, the claim as stated fails: closing a fresh engine while the
    removal of its directory fails ends in a panic, not in a returned
    error. *)
Lemma cleanup_failure_is_not_returned :
  (extsort.Close demo.chunkFunc demo.lessFunc 5
     (removalFails (OsError "permission denied"))
     (extsort.fresh false 4).1 (extsort.fresh false 4).2).1.1 =
    Panicked (Errorf "cannot remove temp files in %s: %s\n"
                (OsError "permission denied")) /\
  forall err,
    (extsort.Close demo.chunkFunc demo.lessFunc 5
       (removalFails (OsError "permission denied"))
       (extsort.fresh false 4).1 (extsort.fresh false 4).2).1.1 <> Returned err.
Proof. split; [reflexivity|]. intros err. vm_compute. discriminate. Qed.

(** ** [Write] *)

(** C6.  [Write] appends the record and adds its length to the counter.
    Below the limit nothing else happens; once the counter has reached the
    limit the call is a spill of the engine that holds the record.  A
    spill happened exactly when the number of runs went up or an error
    came back, and that is exactly when the counter had reached the limit.
    A call that returns no error returns the length of the record. *)
Theorem Write_appends_counts_spills `{GoSort} (lessFunc : Less)
    (fault : option extsort.SpillFault) (b : bytes)
    (se : extsort.sortEngine) (w : extsort.World) :
  (extsort.memUsed se + len b < extsort.memLimit se ->
     extsort.Write lessFunc fault b se w = ((len b, None), accepted b se, w)) /\
  (extsort.memLimit se <= extsort.memUsed se + len b ->
     extsort.Write lessFunc fault b se w =
       let '(flushErr, se1, w1) :=
         extsort.flushToTempFile lessFunc fault (accepted b se) w in
       (match flushErr with
        | None => (len b, None)
        | Some e => (0, Some (Errorf extsort.memoryBufferFlushErr e))
        end, se1, w1)) /\
  ((extsort.tmpFilesNumber (extsort.Write lessFunc fault b se w).1.2 =
      S (extsort.tmpFilesNumber se) \/
    (extsort.Write lessFunc fault b se w).1.1.2 <> None) <->
   extsort.memLimit se <= extsort.memUsed se + len b) /\
  ((extsort.Write lessFunc fault b se w).1.1.2 = None ->
   (extsort.Write lessFunc fault b se w).1.1.1 = len b).
Proof.
  unfold extsort.Write. cbn [extsort.memLimit extsort.memUsed].
  fold (accepted b se).
  destruct (Z.leb_spec (extsort.memLimit se) (extsort.memUsed se + len b)) as [Hfull|Hroom].
  - split; [lia|]. split.
    { intros _. by destruct (extsort.flushToTempFile lessFunc fault (accepted b se) w)
        as [[[e|] se1] w1]. }
    split; [split; [done|intros _]|].
    + unfold extsort.flushToTempFile.
      destruct (negb (extsort.tmpDirExists w)); [right; simpl; congruence|].
      destruct fault as [[e|k p e|p e]|]; simpl;
        try (right; congruence); try (left; done).
      destruct (k <? _)%nat; right; simpl; congruence.
    + by destruct (extsort.flushToTempFile lessFunc fault (accepted b se) w)
        as [[[e|] se1] w1].
  - split; [done|]. split; [lia|]. split; [|done].
    simpl. split; [|lia]. intros [Hn|Hn]; [lia|done].
Qed.

(** ** The single-run shortcut *)

(** C7.  [se1], [w1] being the engine and the world after the flush of the
    remainder: with exactly one run, [Close] appends that run's bytes to
    the output as they are, for every chunk function, comparator and
    amount of fuel (none is needed: no loop of the merge is entered); with
    no run, the merge finds no reader, leaves its heap empty and the
    output as it was. *)
Theorem merge_only_for_several_runs `{GoSort} (chunkFunc : Chunk) (lessFunc : Less)
    (se se1 : extsort.sortEngine) (w w1 : extsort.World) :
  extsort.flushRemainder lessFunc None se w = (None, se1, w1) ->
  (extsort.tmpFilesNumber se1 = 1%nat ->
   forall content, extsort.tmpFiles w1 !! 0%nat = Some content ->
   forall fuel,
     (extsort.Close chunkFunc lessFunc fuel extsort.noFaults se w).1.1 = Returned None /\
     extsort.outWritten (extsort.Close chunkFunc lessFunc fuel extsort.noFaults se w).2 =
       extsort.outWritten w1 ++ content) /\
  (extsort.tmpFilesNumber se1 = 0%nat ->
   forall fuel, (2 <= fuel)%nat ->
     (extsort.Close chunkFunc lessFunc fuel extsort.noFaults se w).1.1 = Returned None /\
     extsort.outWritten (extsort.Close chunkFunc lessFunc fuel extsort.noFaults se w).2 =
       extsort.outWritten w1 /\
     forall budget,
       extsort.mergeLoop chunkFunc fuel budget None
         {| extsort.files := ∅; extsort.fileHeap := fileheap.NewHeap lessFunc |} w1 =
       (Returned None,
        {| extsort.files := ∅; extsort.fileHeap := fileheap.NewHeap lessFunc |}, w1)).
Proof.
  intros Hflush. split.
  - intros Hn content Hc fuel.
    unfold extsort.Close, extsort.closeBody, extsort.mergeRuns.
    cbn [extsort.spillFault extsort.openFault extsort.sinkFault extsort.sinkCloseErr
         extsort.sortRemoveErr extsort.closeRemoveErr extsort.noFaults].
    rewrite Hflush, Hn. cbn [extsort.openTmpFiles Nat.eqb]. rewrite Hc.
    rewrite lookup_insert_eq. unfold extsort.closeOut. simpl.
    by destruct (extsort.outIsCloser w1).
  - intros Hn fuel Hfuel.
    destruct (Close_no_runs chunkFunc lessFunc fuel se w se1 w1 Hflush Hn Hfuel)
      as (Hr & _ & Hout).
    split; [done|]. split; [done|]. intros budget. by apply mergeLoop_nothing.
Qed.

Lemma merge_only_for_several_runs_witness :
  let sw := extsort.writeAll demo.lessFunc [demo.line "b"; demo.line "a"]
              (extsort.fresh false 100) in
  let se1 := (extsort.flushRemainder demo.lessFunc None sw.1 sw.2).1.2 in
  let w1 := (extsort.flushRemainder demo.lessFunc None sw.1 sw.2).2 in
  (extsort.tmpFilesNumber se1 = 1%nat ->
   forall content, extsort.tmpFiles w1 !! 0%nat = Some content ->
   forall fuel,
     (extsort.Close demo.chunkFunc demo.lessFunc fuel extsort.noFaults sw.1 sw.2).1.1 =
       Returned None /\
     extsort.outWritten
       (extsort.Close demo.chunkFunc demo.lessFunc fuel extsort.noFaults sw.1 sw.2).2 =
       extsort.outWritten w1 ++ content) /\
  (extsort.tmpFilesNumber se1 = 0%nat ->
   forall fuel, (2 <= fuel)%nat ->
     (extsort.Close demo.chunkFunc demo.lessFunc fuel extsort.noFaults sw.1 sw.2).1.1 =
       Returned None /\
     extsort.outWritten
       (extsort.Close demo.chunkFunc demo.lessFunc fuel extsort.noFaults sw.1 sw.2).2 =
       extsort.outWritten w1 /\
     forall budget,
       extsort.mergeLoop demo.chunkFunc fuel budget None
         {| extsort.files := ∅; extsort.fileHeap := fileheap.NewHeap demo.lessFunc |} w1 =
       (Returned None,
        {| extsort.files := ∅; extsort.fileHeap := fileheap.NewHeap demo.lessFunc |}, w1)).
Proof.
  intros sw se1 w1.
  apply (merge_only_for_several_runs demo.chunkFunc demo.lessFunc sw.1 se1 sw.2 w1).
  reflexivity.
Defined.

(** ** Spills that fail *)

(** C8.  A spill in which creating the file, a write or the flush fails
    ([f] says which) returns a wrapped error and leaves the number of runs,
    the counter and the records of the buffer as they were; so does every
    spill that returns an error, whatever its cause.  [Write] then returns
    0 and the error wrapped once more; [Close] with bytes left to flush
    keeps the number of runs and, when its deferred removal does not fail
    in turn, returns the error wrapped once more. *)
Theorem failed_spill_is_not_counted `{GoSort} (lessFunc : Less)
    (f : extsort.SpillFault) :
  (forall se w,
     exists format cause,
       (extsort.flushToTempFile lessFunc (Some f) se w).1.1 = Some (Errorf format cause) /\
       extsort.tmpFilesNumber (extsort.flushToTempFile lessFunc (Some f) se w).1.2 =
         extsort.tmpFilesNumber se /\
       extsort.memUsed (extsort.flushToTempFile lessFunc (Some f) se w).1.2 =
         extsort.memUsed se /\
       extsort.memoryBuffer (extsort.flushToTempFile lessFunc (Some f) se w).1.2
         ≡ₚ extsort.memoryBuffer se) /\
  (forall fault se w,
     (extsort.flushToTempFile lessFunc fault se w).1.1 <> None ->
     extsort.tmpFilesNumber (extsort.flushToTempFile lessFunc fault se w).1.2 =
       extsort.tmpFilesNumber se) /\
  (forall b se w,
     extsort.memLimit se <= extsort.memUsed se + len b ->
     exists format cause,
       (extsort.Write lessFunc (Some f) b se w).1.1 =
         (0, Some (Errorf extsort.memoryBufferFlushErr (Errorf format cause))) /\
       extsort.tmpFilesNumber (extsort.Write lessFunc (Some f) b se w).1.2 =
         extsort.tmpFilesNumber se) /\
  (forall chunkFunc fuel cf se w,
     extsort.spillFault cf = Some f -> 0 < extsort.memUsed se ->
     extsort.tmpFilesNumber (extsort.Close chunkFunc lessFunc fuel cf se w).1.2 =
       extsort.tmpFilesNumber se /\
     (extsort.closeRemoveErr cf = None ->
      exists format cause,
        (extsort.Close chunkFunc lessFunc fuel cf se w).1.1 =
          Returned (Some (Errorf extsort.memoryBufferFlushErr (Errorf format cause))))).
Proof.
  assert (Hflush : forall se w,
     exists format cause,
       (extsort.flushToTempFile lessFunc (Some f) se w).1.1 = Some (Errorf format cause) /\
       extsort.tmpFilesNumber (extsort.flushToTempFile lessFunc (Some f) se w).1.2 =
         extsort.tmpFilesNumber se /\
       extsort.memUsed (extsort.flushToTempFile lessFunc (Some f) se w).1.2 =
         extsort.memUsed se /\
       extsort.memoryBuffer (extsort.flushToTempFile lessFunc (Some f) se w).1.2
         ≡ₚ extsort.memoryBuffer se).
  { intros se w. unfold extsort.flushToTempFile.
    destruct (negb (extsort.tmpDirExists w)); [|destruct f as [e|k p e|p e]];
      try destruct (k <? _)%nat; simpl; eexists _, _;
      (split; [reflexivity|]); (split; [done|]); (split; [done|]);
      apply sortSlice_perm. }
  split; [done|]. split.
  { intros fault se w. unfold extsort.flushToTempFile.
    destruct (negb (extsort.tmpDirExists w)); [done|].
    destruct fault as [[e|k p e|p e]|]; try destruct (k <? _)%nat; done. }
  split.
  - intros b se w Hfull. unfold extsort.Write.
    cbn [extsort.memLimit extsort.memUsed]. fold (accepted b se).
    destruct (Z.leb_spec (extsort.memLimit se) (extsort.memUsed se + len b)); [|lia].
    destruct (Hflush (accepted b se) w) as (format & cause & He & Hn & _).
    destruct (extsort.flushToTempFile lessFunc (Some f) (accepted b se) w)
      as [[ferr se1] w1].
    simpl in He, Hn. subst ferr. simpl. eauto.
  - intros chunkFunc fuel cf se w Hcf Hused.
    unfold extsort.Close, extsort.closeBody, extsort.flushRemainder.
    rewrite Hcf. destruct (Z.ltb_spec 0 (extsort.memUsed se)); [|lia].
    destruct (Hflush se w) as (format & cause & He & Hn & _).
    destruct (extsort.flushToTempFile lessFunc (Some f) se w) as [[ferr se1] w1].
    simpl in He, Hn. subst ferr.
    unfold extsort.deferredRemoveTempFiles, extsort.removeTempFiles.
    split.
    + by destruct (extsort.closeRemoveErr cf).
    + intros ->. simpl. eauto.
Qed.

(** ** The buffer and its counter *)

(** C9.  After any sequence of [Write] and [Close] calls on an engine
    made by [New], whatever fails in them, the counter is the sum of the
    lengths of the records in the buffer; and a spill that succeeds leaves
    the buffer empty and the counter at zero. *)
Theorem counter_matches_buffer `{GoSort} (chunkFunc : Chunk) (lessFunc : Less)
    (outIsCloser : bool) (memLimit : Z) (ops : list operation) :
  counterMatchesBuffer
    (foldl (perform chunkFunc lessFunc) (extsort.fresh outIsCloser memLimit) ops).1 /\
  forall fault se w,
    (extsort.flushToTempFile lessFunc fault se w).1.1 = None ->
    extsort.memoryBuffer (extsort.flushToTempFile lessFunc fault se w).1.2 = [] /\
    extsort.memUsed (extsort.flushToTempFile lessFunc fault se w).1.2 = 0.
Proof.
  split.
  - assert (Hgen : forall sw, counterMatchesBuffer sw.1 ->
              counterMatchesBuffer (foldl (perform chunkFunc lessFunc) sw ops).1).
    { induction ops as [|o ops' IH]; intros sw Hinv; [done|].
      simpl. apply IH. destruct o as [fault b|fuel f]; simpl.
      - by apply Write_counter.
      - by apply Close_counter. }
    by apply Hgen.
  - intros fault se w. unfold extsort.flushToTempFile.
    destruct (negb (extsort.tmpDirExists w)); [done|].
    destruct fault as [[e|k p e|p e]|]; try destruct (k <? _)%nat; done.
Qed.

(** ** Records without bytes *)

(** C10.  Records whose bytes add up to zero, written into a fresh engine
    with a positive limit: they are all held in the buffer while the
    counter stays at zero, so [Close] flushes nothing; no run is ever
    created and the output stays empty. *)
Theorem zero_length_records_are_dropped `{GoSort} (chunkFunc : Chunk)
    (lessFunc : Less) (rs : list bytes) (memLimit : Z) (outIsCloser : bool)
    (fuel : nat) :
  0 < memLimit -> sumLen rs = 0 -> (2 <= fuel)%nat ->
  extsort.memoryBuffer
    (extsort.writeAll lessFunc rs (extsort.fresh outIsCloser memLimit)).1 = rs /\
  extsort.memUsed
    (extsort.writeAll lessFunc rs (extsort.fresh outIsCloser memLimit)).1 = 0 /\
  extsort.tmpFiles
    (extsort.writeAll lessFunc rs (extsort.fresh outIsCloser memLimit)).2 = ∅ /\
  (sortRecords chunkFunc lessFunc fuel outIsCloser memLimit rs).1.1 = Returned None /\
  extsort.tmpFilesNumber
    (sortRecords chunkFunc lessFunc fuel outIsCloser memLimit rs).1.2 = 0%nat /\
  extsort.outWritten (sortRecords chunkFunc lessFunc fuel outIsCloser memLimit rs).2 = [].
Proof.
  intros HM Hsum Hfuel. unfold sortRecords, extsort.fresh.
  rewrite (writeAll_empty_records lessFunc rs (sumLen_zero rs Hsum)) by done.
  cbn [fst snd extsort.memoryBuffer extsort.memUsed extsort.tmpFiles app].
  repeat (split; [done|]).
  match goal with |- context [extsort.Close _ _ _ _ ?se ?w] =>
    destruct (Close_no_runs chunkFunc lessFunc fuel se w
                {| extsort.memLimit := memLimit; extsort.memUsed := 0;
                   extsort.tmpFilesNumber := 0; extsort.memoryBuffer := [] |} w)
      as (Hr & Hse & Hout); [done|done|done|]
  end.
  by rewrite Hr, Hse, Hout.
Qed.

Lemma zero_length_records_are_dropped_witness :
  extsort.memoryBuffer
    (extsort.writeAll demo.lessFunc [[]; []] (extsort.fresh false 3)).1 = [[]; []] /\
  extsort.memUsed
    (extsort.writeAll demo.lessFunc [[]; []] (extsort.fresh false 3)).1 = 0 /\
  extsort.tmpFiles
    (extsort.writeAll demo.lessFunc [[]; []] (extsort.fresh false 3)).2 = ∅ /\
  (sortRecords demo.chunkFunc demo.lessFunc 2 false 3 [[]; []]).1.1 = Returned None /\
  extsort.tmpFilesNumber
    (sortRecords demo.chunkFunc demo.lessFunc 2 false 3 [[]; []]).1.2 = 0%nat /\
  extsort.outWritten (sortRecords demo.chunkFunc demo.lessFunc 2 false 3 [[]; []]).2 = [].
Proof.
  apply (zero_length_records_are_dropped demo.chunkFunc demo.lessFunc [[]; []] 3 false 2).
  - lia.
  - reflexivity.
  - lia.
Defined.

(** * Further properties of the code *)

(** ** The file heap on its own, and under [container/heap] *)

Section HeapUse.
Import fileheap HeapFacts.

Lemma fileheap_Pop_Push h x : fileheap.Pop (fileheap.Push h x) = Some (x, h).
Proof.
  unfold fileheap.Pop, fileheap.Push. cbn [entries lessFunc].
  rewrite last_snoc, length_app. cbn [length].
  replace (length (entries h) + 1 - 1)%nat with (length (entries h)) by lia.
  rewrite take_app_length. by destruct h.
Qed.

Lemma fileheap_Pop_None h : fileheap.Pop h = None <-> Len h = 0%nat.
Proof.
  unfold fileheap.Pop, Len. destruct (entries h) as [|e es] using rev_ind.
  - done.
  - rewrite last_snoc, length_app. simpl. split; [done|lia].
Qed.

(** X1.  The methods [Push] and [Pop] of the file heap work as a stack:
    [Pop] gives back what [Push] has just appended and the heap as it was
    before; [Push] makes the heap longer by one; [Pop] panics exactly on
    the empty heap, and otherwise takes the last entry off. *)
Theorem Push_then_Pop (h : FileHeap) (x : Entry) :
  fileheap.Pop (fileheap.Push h x) = Some (x, h) /\
  Len (fileheap.Push h x) = S (Len h) /\
  (fileheap.Pop h = None <-> Len h = 0%nat) /\
  (forall e h1, fileheap.Pop h = Some (e, h1) ->
     entries h = entries h1 ++ [e] /\ lessFunc h1 = lessFunc h).
Proof.
  split; [apply fileheap_Pop_Push|]. split.
  { unfold Len, fileheap.Push. cbn [entries]. rewrite length_app. simpl. lia. }
  split; [apply fileheap_Pop_None|].
  intros e h1. unfold fileheap.Pop.
  destruct (entries h) as [|e' es _] using rev_ind; [done|].
  rewrite last_snoc, length_app. cbn [length].
  replace (length es + 1 - 1)%nat with (length es) by lia.
  rewrite take_app_length. intros [= -> <-]. done.
Qed.

(** X2.  [Swap] with both indices below [Len] exchanges the two entries
    and leaves every other entry and the length as they are; swapping
    twice gives the heap back. *)
Theorem Swap_twice (h : FileHeap) (i j : nat) :
  (i < Len h)%nat -> (j < Len h)%nat ->
  Swap (Swap h i j) i j = h /\
  entries (Swap h i j) !! i = entries h !! j /\
  entries (Swap h i j) !! j = entries h !! i /\
  (forall k, k <> i -> k <> j -> entries (Swap h i j) !! k = entries h !! k) /\
  Len (Swap h i j) = Len h.
Proof.
  unfold Len. intros Hi Hj.
  assert (Hl : forall k, entries (Swap h i j) !! k =
             if decide (k = i) then entries h !! j
             else if decide (k = j) then entries h !! i else entries h !! k)
    by (intros k; by apply Swap_lookup).
  split.
  - assert (He : entries (Swap (Swap h i j) i j) = entries h).
    { apply list_eq. intros k. rewrite Swap_lookup by (by rewrite Swap_length).
      rewrite !Hl. repeat case_decide; congruence. }
    assert (Hf : lessFunc (Swap (Swap h i j) i j) = lessFunc h)
      by (by rewrite !Swap_lessFunc).
    destruct (Swap (Swap h i j) i j), h. simpl in *. by subst.
  - split; [rewrite Hl; by case_decide|].
    split; [rewrite Hl; repeat case_decide; congruence|].
    split; [|apply Swap_length].
    intros k Hki Hkj. rewrite Hl. by repeat case_decide.
Qed.

Lemma Swap_twice_witness :
  let h := pushAll (NewHeap demo.lessFunc)
             [NewEntry 0 (demo.line "b"); NewEntry 1 (demo.line "a")] in
  Swap (Swap h 0 1) 0 1 = h /\
  entries (Swap h 0 1) !! 0%nat = entries h !! 1%nat /\
  entries (Swap h 0 1) !! 1%nat = entries h !! 0%nat /\
  (forall k, k <> 0%nat -> k <> 1%nat -> entries (Swap h 0 1) !! k = entries h !! k) /\
  Len (Swap h 0 1) = Len h.
Proof.
  intros h. apply (Swap_twice h 0 1); vm_compute; lia.
Defined.

Lemma heapOrdered_NewHeap less : heapOrdered (NewHeap less).
Proof. intros k a b Hk. simpl in Hk. lia. Qed.

(** X3.  [heap.Push] on a file heap that is ordered, under a strict weak
    [lessFunc]: the heap stays ordered, holds the new entry and the old
    ones, each once, and is longer by one. *)
Theorem heap_Push_keeps_heap (h : FileHeap) (x : Entry) :
  StrictWeak (lessFunc h) -> heapOrdered h ->
  heapOrdered (heap.Push h x) /\
  entries (heap.Push h x) ≡ₚ x :: entries h /\
  Len (heap.Push h x) = S (Len h) /\
  lessFunc (heap.Push h x) = lessFunc h.
Proof.
  intros Hsw Hh. split; [by apply Push_heapOrdered|].
  split; [apply Push_perm|]. split; [|apply Push_lessFunc].
  unfold Len. by rewrite (Permutation_length (Push_perm h x)).
Qed.

Lemma heap_Push_keeps_heap_witness :
  let h := NewHeap demo.lessFunc in
  let x := NewEntry 0 (demo.line "a") in
  heapOrdered (heap.Push h x) /\
  entries (heap.Push h x) ≡ₚ x :: entries h /\
  Len (heap.Push h x) = S (Len h) /\
  lessFunc (heap.Push h x) = lessFunc h.
Proof.
  intros h x. apply (heap_Push_keeps_heap h x).
  - exact DemoFacts.lessFunc_StrictWeak.
  - apply heapOrdered_NewHeap.
Defined.

Lemma heap_Pop_empty h : entries h = [] -> heap.Pop h = None.
Proof.
  intros Hh. unfold heap.Pop, Len. rewrite Hh. cbn [length Nat.sub].
  unfold Swap. rewrite Hh. cbn [lookup list_lookup].
  cbn [heap.down Nat.leb Nat.mul Nat.add].
  unfold fileheap.Pop. by rewrite Hh.
Qed.

(** X4.  [heap.Pop] on a file heap that is ordered, under a strict weak
    [lessFunc]: on the empty heap it panics; otherwise it takes out the
    root, before which no entry of the heap comes, and what is left is
    again an ordered heap of the other entries. *)
Theorem heap_Pop_takes_minimum (h : FileHeap) :
  StrictWeak (lessFunc h) -> heapOrdered h ->
  match heap.Pop h with
  | None => entries h = []
  | Some (e, h1) =>
      entries h ≡ₚ e :: entries h1 /\
      (forall x, x ∈ entries h -> lessFunc h (Data x) (Data e) = false) /\
      heapOrdered h1 /\ lessFunc h1 = lessFunc h /\
      entries h !! 0%nat = Some e
  end.
Proof.
  intros Hsw Hh. destruct (entries h) as [|r es] eqn:Hes.
  - rewrite heap_Pop_empty by done. done.
  - destruct (Pop_spec h r) as (h1 & -> & Hl & Hp & Hmin); [by rewrite Hes|].
    destruct (Hmin Hsw Hh) as [Hh1 Hm]. rewrite Hes in Hp, Hm. done.
Qed.

Lemma heap_Pop_takes_minimum_witness :
  let h := pushAll (NewHeap demo.lessFunc)
             [NewEntry 0 (demo.line "b"); NewEntry 1 (demo.line "a")] in
  match heap.Pop h with
  | None => entries h = []
  | Some (e, h1) =>
      entries h ≡ₚ e :: entries h1 /\
      (forall x, x ∈ entries h -> lessFunc h (Data x) (Data e) = false) /\
      heapOrdered h1 /\ lessFunc h1 = lessFunc h /\
      entries h !! 0%nat = Some e
  end.
Proof.
  intros h. apply (heap_Pop_takes_minimum h).
  - exact DemoFacts.lessFunc_StrictWeak.
  - intros k a b Hk. vm_compute in Hk.
    assert (k = 1%nat) as -> by lia. vm_compute. by intros [= <-] [= <-].
Defined.

Lemma pushAll_spec es : forall h,
  lessFunc (pushAll h es) = lessFunc h /\
  entries (pushAll h es) ≡ₚ entries h ++ es /\
  (StrictWeak (lessFunc h) -> heapOrdered h -> heapOrdered (pushAll h es)).
Proof.
  induction es as [|x es IH]; intros h; simpl.
  - by rewrite app_nil_r.
  - destruct (IH (heap.Push h x)) as (Hl & Hp & Ho).
    fold (pushAll (heap.Push h x) es).
    split; [by rewrite Hl, Push_lessFunc|].
    split; [by rewrite Hp, Push_perm, <-Permutation_middle|].
    intros Hsw Hh. apply Ho; [by rewrite Push_lessFunc|by apply Push_heapOrdered].
Qed.

Lemma popAll_spec n : forall h,
  StrictWeak (lessFunc h) -> heapOrdered h -> length (entries h) = n ->
  exists out h1,
    popAll n h = Some (out, h1) /\ entries h1 = [] /\
    out ≡ₚ entries h /\
    StronglySorted (entryOrdered (lessFunc h)) out.
Proof.
  induction n as [|n IH]; intros h Hsw Hh Hn.
  - exists [], h. destruct (entries h); [|done]. repeat split; try done. constructor.
  - destruct (entries h) as [|r es] eqn:Hes; [done|].
    destruct (Pop_spec h r) as (h1 & Hpop & Hl & Hp & Hmin); [by rewrite Hes|].
    destruct (Hmin Hsw Hh) as [Hh1 Hm]. rewrite Hes in Hp, Hm.
    destruct (IH h1) as (out & h2 & Hall & He & Hout & Hs).
    { by rewrite Hl. } { done. }
    { apply Permutation_length in Hp. simpl in *. lia. }
    exists (r :: out), h2. cbn [popAll]. rewrite Hpop, Hall.
    split; [done|]. split; [done|]. split; [by rewrite Hp, Hout|].
    constructor; [by rewrite <-Hl|].
    apply Forall_forall. intros x Hx. unfold entryOrdered, ordered.
    apply Hm. rewrite Hp. right. by rewrite <-Hout.
Qed.

(** X5.  The file heap sorts: entries pushed with [heap.Push] onto a heap
    made by [NewHeap], in any order, come out of as many [heap.Pop] as
    a permutation of what went in, ordered by [less] on their data (for a
    strict weak [less]), and the heap is empty again. *)
Theorem heap_sorts (less : bytes -> bytes -> bool) (es : list Entry) :
  StrictWeak less ->
  exists out h1,
    popAll (length es) (pushAll (NewHeap less) es) = Some (out, h1) /\
    Len h1 = 0%nat /\
    out ≡ₚ es /\
    StronglySorted (entryOrdered less) out.
Proof.
  intros Hsw. destruct (pushAll_spec es (NewHeap less)) as (Hl & Hp & Ho).
  simpl in Hl, Hp.
  destruct (popAll_spec (length es) (pushAll (NewHeap less) es))
    as (out & h1 & Hall & He & Hout & Hs).
  { by rewrite Hl. } { apply Ho; [done|apply heapOrdered_NewHeap]. }
  { by rewrite Hp. }
  exists out, h1. split; [done|]. split; [unfold Len; by rewrite He|].
  split; [by rewrite Hout, Hp|]. by rewrite Hl in Hs.
Qed.

Lemma heap_sorts_witness :
  let es := [NewEntry 0 (demo.line "4"); NewEntry 1 (demo.line "1");
             NewEntry 2 (demo.line "9"); NewEntry 1 (demo.line "6")] in
  exists out h1,
    popAll (length es) (pushAll (NewHeap demo.lessFunc) es) = Some (out, h1) /\
    Len h1 = 0%nat /\
    out ≡ₚ es /\
    StronglySorted (entryOrdered demo.lessFunc) out.
Proof.
  intros es. apply (heap_sorts demo.lessFunc es).
  exact DemoFacts.lessFunc_StrictWeak.
Defined.

End HeapUse.


(** ** [sort.Sort] through the methods of the buffer *)

Section SortInterface.
Import extsort.fileChunkInMemoryRepresentation.

Lemma Less_at (less : bytes -> bytes -> bool) (p : list bytes) y x q :
  Less {| memoryBuffer := p ++ y :: x :: q; lessFunc := less |}
    (S (length p)) (S (length p) - 1) = less x y.
Proof.
  unfold Less. cbn [memoryBuffer lessFunc].
  replace (S (length p) - 1)%nat with (length p) by lia.
  rewrite lookup_app_r by lia. rewrite lookup_app_r by lia.
  replace (S (length p) - length p)%nat with 1%nat by lia.
  by rewrite Nat.sub_diag.
Qed.

Lemma Swap_at (less : bytes -> bytes -> bool) (p : list bytes) y x q :
  Swap {| memoryBuffer := p ++ y :: x :: q; lessFunc := less |}
    (S (length p)) (S (length p) - 1) =
  {| memoryBuffer := p ++ x :: y :: q; lessFunc := less |}.
Proof.
  unfold Swap. cbn [memoryBuffer lessFunc].
  replace (S (length p) - 1)%nat with (length p) by lia.
  rewrite lookup_app_r by lia. rewrite lookup_app_r by lia.
  replace (S (length p) - length p)%nat with 1%nat by lia.
  rewrite Nat.sub_diag. cbn [lookup list_lookup]. f_equal.
  rewrite insert_app_r_alt by lia. rewrite Nat.sub_diag. cbn [insert list_insert].
  rewrite insert_app_r_alt by lia.
  by replace (S (length p) - length p)%nat with 1%nat by lia.
Qed.

(** The inner loop is [sinkLeft] on the sorted prefix, held last element
    first. *)
Lemma sink_sinkLeft (less : bytes -> bytes -> bool) x rp : forall steps q,
  (length rp <= steps)%nat ->
  sortpkg.sink steps
    {| memoryBuffer := rev rp ++ x :: q; lessFunc := less |} 0 (length rp) =
  {| memoryBuffer := rev (demo.sinkLeft less x rp) ++ q; lessFunc := less |}.
Proof.
  induction rp as [|y rp IH]; intros steps q Hsteps.
  - destruct steps; done.
  - destruct steps as [|steps]; [simpl in Hsteps; lia|].
    cbn [sortpkg.sink length rev demo.sinkLeft].
    rewrite <-(length_rev rp), <-app_assoc. cbn [app].
    rewrite Less_at. cbn [Nat.ltb Nat.leb andb].
    destruct (less x y).
    + rewrite Swap_at.
      replace (S (length (rev rp)) - 1)%nat with (length rp)
        by (rewrite length_rev; lia).
      rewrite IH by (simpl in Hsteps; lia).
      cbn [rev]. by rewrite <-app_assoc.
    + cbn [rev]. by rewrite <-!app_assoc.
Qed.

Lemma sinkLeft_length less x rp : length (demo.sinkLeft less x rp) = S (length rp).
Proof. apply (Permutation_length (DemoFacts.sinkLeft_perm less x rp)). Qed.

Lemma insertionSortFrom_foldl (less : bytes -> bytes -> bool) rest : forall rp,
  sortpkg.insertionSortFrom (length rest)
    {| memoryBuffer := rev rp ++ rest; lessFunc := less |} 0 (length rp) =
  {| memoryBuffer := rev (foldl (fun rp x => demo.sinkLeft less x rp) rp rest);
     lessFunc := less |}.
Proof.
  induction rest as [|x rest IH]; intros rp.
  - simpl. by rewrite app_nil_r.
  - cbn [length sortpkg.insertionSortFrom foldl]. rewrite Nat.sub_0_r.
    rewrite sink_sinkLeft by lia.
    rewrite <-(sinkLeft_length less x rp). apply IH.
Qed.

(** X6.  The insertion sort of package [sort], run on the buffer through
    its methods [Len], [Less] and [Swap], leaves in the buffer the records
    it held, each once, in the order the list-level insertion sort gives
    them: that is, ordered by [lessFunc] when it is a strict weak
    ordering.  The comparator is not touched. *)
Theorem insertion_sort_through_the_buffer_methods (fc : t) :
  memoryBuffer (sortpkg.insertionSort fc 0 (Len fc)) =
    demo.insertionSort (lessFunc fc) (memoryBuffer fc) /\
  lessFunc (sortpkg.insertionSort fc 0 (Len fc)) = lessFunc fc /\
  memoryBuffer (sortpkg.insertionSort fc 0 (Len fc)) ≡ₚ memoryBuffer fc /\
  (StrictWeak (lessFunc fc) ->
   StronglySorted (ordered (lessFunc fc))
     (memoryBuffer (sortpkg.insertionSort fc 0 (Len fc)))).
Proof.
  assert (Heq : sortpkg.insertionSort fc 0 (Len fc) =
                {| memoryBuffer := demo.insertionSort (lessFunc fc) (memoryBuffer fc);
                   lessFunc := lessFunc fc |}).
  { destruct fc as [l less]. unfold sortpkg.insertionSort, Len, demo.insertionSort.
    cbn [memoryBuffer lessFunc]. destruct l as [|x rest]; [done|].
    cbn [length Nat.add Nat.sub foldl demo.sinkLeft]. rewrite Nat.sub_0_r.
    apply (insertionSortFrom_foldl less rest [x]). }
  rewrite Heq. cbn [memoryBuffer lessFunc].
  split; [done|]. split; [done|].
  split; [apply DemoFacts.insertionSort_perm|].
  intros Hsw. apply Sorted_StronglySorted.
  - intros a b c. apply (sw_trans _ Hsw).
  - by apply DemoFacts.insertionSort_sorted.
Qed.

End SortInterface.

(** ** The buffer and the runs *)

Section BufferBound.
Import extsort.
Context `{GoSort}.
Variable lessFunc : bytes -> bytes -> bool.

Lemma Write_below_limit fault b se w :
  0 < memLimit se -> 0 <= memUsed se ->
  (Write lessFunc fault b se w).1.1.2 = None ->
  0 <= memUsed (Write lessFunc fault b se w).1.2 < memLimit se.
Proof.
  intros HM Hu. unfold Write. cbn [memLimit memUsed].
  assert (0 <= len b) by (unfold len; lia).
  destruct (Z.leb_spec (memLimit se) (memUsed se + len b)); [|simpl; lia].
  unfold flushToTempFile. destruct (negb (tmpDirExists w)); [done|].
  destruct fault as [[e|k p e|p e]|]; try destruct (k <? _)%nat; simpl; try done;
    lia.
Qed.

Lemma Write_ok b se w :
  tmpDirExists w = true ->
  (Write lessFunc None b se w).1.1 = (len b, None).
Proof.
  intros Hd. unfold Write, flushToTempFile. simpl. rewrite Hd. simpl.
  by destruct (_ <=? _).
Qed.

Lemma writeAll_below_limit rs : forall se w,
  tmpDirExists w = true -> 0 < memLimit se -> 0 <= memUsed se < memLimit se ->
  tmpDirExists (writeAll lessFunc rs (se, w)).2 = true /\
  memLimit (writeAll lessFunc rs (se, w)).1 = memLimit se /\
  0 <= memUsed (writeAll lessFunc rs (se, w)).1 < memLimit se.
Proof.
  induction rs as [|b rs IH]; intros se w Hd HM Hu; [done|].
  rewrite writeAll_cons.
  destruct (Write_counters lessFunc b se w Hd) as (Hd1 & HM1 & _).
  pose proof (Write_below_limit None b se w HM ltac:(lia)) as Hb.
  rewrite Write_ok in Hb by done. specialize (Hb eq_refl).
  destruct (IH (Write lessFunc None b se w).1.2 (Write lessFunc None b se w).2)
    as (Hd2 & HM2 & Hu2); [done|lia|lia|].
  split; [done|]. split; [congruence|]. lia.
Qed.

(** X7.  With a positive limit the buffer never holds as many bytes as
    the limit once a [Write] has returned without error, whatever the
    [Write] had to do; so after any number of [Write]s into a fresh engine,
    nothing failing, the counter is below the limit. *)
Theorem buffer_stays_below_limit :
  (forall fault b se w,
     0 < memLimit se -> 0 <= memUsed se ->
     (Write lessFunc fault b se w).1.1.2 = None ->
     0 <= memUsed (Write lessFunc fault b se w).1.2 < memLimit se) /\
  (forall rs closer M,
     0 < M ->
     0 <= memUsed (writeAll lessFunc rs (fresh closer M)).1 < M).
Proof.
  split; [apply Write_below_limit|].
  intros rs closer M HM.
  destruct (writeAll_below_limit rs (fresh closer M).1 (fresh closer M).2)
    as (_ & _ & Hu); simpl; try done; lia.
Qed.

Lemma sortSlice_singleton (b : bytes) : sortSlice lessFunc [b] = [b].
Proof. apply Permutation_singleton_r, sortSlice_perm. Qed.

Lemma writeAll_each_spilled M rs : forall runs se w,
  M <= 0 -> spilled M runs [] se w ->
  spilled M (runs ++ ((fun b => [b]) <$> rs)) []
    (writeAll lessFunc rs (se, w)).1 (writeAll lessFunc rs (se, w)).2.
Proof.
  induction rs as [|b rs IH]; intros runs se w HM Hsp.
  - simpl. by rewrite app_nil_r.
  - rewrite writeAll_cons. pose proof Hsp as [HM0 Hn Hb Hu Hd Hf Ho].
    assert (Hsp1 : spilled M runs [b] (accepted b se) w).
    { split; simpl; try done. - by rewrite Hb. - rewrite Hu. simpl. lia. }
    destruct (flush_spilled lessFunc M runs [b] (accepted b se) w Hsp1)
      as (se1 & w1 & Hflush & Hsp2 & _).
    rewrite sortSlice_singleton in Hsp2.
    assert (HW : Write lessFunc None b se w = ((len b, None), se1, w1)).
    { unfold Write. cbn [memLimit memUsed]. fold (accepted b se).
      rewrite HM0, Hu. simpl.
      assert (0 <= len b) by (unfold len; lia).
      destruct (Z.leb_spec M (0 + len b)); [|lia]. by rewrite Hflush. }
    rewrite HW. cbn [fst snd fmap list_fmap].
    specialize (IH (runs ++ [[b]]) se1 w1 HM Hsp2).
    by rewrite <-app_assoc in IH.
Qed.

(** X8.  With a limit of zero or less every [Write] spills: after the
    records [rs] have been written into a fresh engine, nothing failing,
    there are as many runs as records, run number [i] holds record
    number [i] and nothing else, and the buffer is empty. *)
Theorem nonpositive_limit_spills_every_record (rs : list bytes)
    (closer : bool) (M : Z) :
  M <= 0 ->
  tmpFilesNumber (writeAll lessFunc rs (fresh closer M)).1 = length rs /\
  memoryBuffer (writeAll lessFunc rs (fresh closer M)).1 = [] /\
  tmpFiles (writeAll lessFunc rs (fresh closer M)).2 = map_seq 0 rs.
Proof.
  intros HM.
  destruct (writeAll_each_spilled M rs [] (fresh closer M).1 (fresh closer M).2 HM)
    as [_ Hn Hb _ _ Hf _]; [by split|].
  change (_, _) with (fresh closer M) in Hn, Hb, Hf. simpl in Hn, Hf.
  split; [by rewrite Hn, length_fmap|]. split; [done|].
  rewrite Hf. f_equal. clear.
  induction rs as [|b rs IH]; [done|].
  rewrite !fmap_cons. cbn [concat]. rewrite app_nil_r. by f_equal.
Qed.

(** X9.  After the records [rs] have been written into a fresh engine,
    nothing failing, the files of the directory are the runs 0, 1, ... of
    the engine's count; every run is the concatenation of records, at
    least one and at least [M] bytes, ordered by [lessFunc] when it is a
    strict weak ordering; runs and buffer together hold the records
    written, each once; and nothing has reached the output. *)
Theorem runs_hold_what_was_written (rs : list bytes) (closer : bool) (M : Z) :
  exists runs,
    tmpFiles (writeAll lessFunc rs (fresh closer M)).2 =
      map_seq 0 (@concat byte <$> runs) /\
    tmpFilesNumber (writeAll lessFunc rs (fresh closer M)).1 = length runs /\
    concat runs ++ memoryBuffer (writeAll lessFunc rs (fresh closer M)).1 ≡ₚ rs /\
    Forall (fun run => run <> [] /\ M <= sumLen run /\
              (StrictWeak lessFunc -> StronglySorted (ordered lessFunc) run)) runs /\
    outWritten (writeAll lessFunc rs (fresh closer M)).2 = [].
Proof.
  destruct (writeAll_spilled lessFunc M rs [] [] (fresh closer M).1 (fresh closer M).2)
    as (runs & buf & [_ Hn Hb _ _ Hf Ho] & Hp & Hfull & _); [by split|].
  change (_, _) with (fresh closer M) in Hn, Hb, Hf, Ho. simpl in Hp, Hn, Hf.
  exists runs. rewrite Hb. done.
Qed.

End BufferBound.

Lemma nonpositive_limit_spills_every_record_witness :
  let rs := [demo.line "b"; []; demo.line "a"] in
  extsort.tmpFilesNumber
    (extsort.writeAll demo.lessFunc rs (extsort.fresh false 0)).1 = length rs /\
  extsort.memoryBuffer
    (extsort.writeAll demo.lessFunc rs (extsort.fresh false 0)).1 = [] /\
  extsort.tmpFiles
    (extsort.writeAll demo.lessFunc rs (extsort.fresh false 0)).2 = map_seq 0 rs.
Proof.
  intros rs.
  apply (nonpositive_limit_spills_every_record demo.lessFunc rs false 0). lia.
Defined.

(** ** What [Write] and [Close] leave alone *)

Section EngineFacts.
Import extsort.
Context `{GoSort}.
Variable chunkFunc : Chunk.
Variable lessFunc : bytes -> bytes -> bool.

(** What no spill changes. *)
Lemma flush_frame fault se w :
  outWritten (flushToTempFile lessFunc fault se w).2 = outWritten w /\
  outClosed (flushToTempFile lessFunc fault se w).2 = outClosed w /\
  outIsCloser (flushToTempFile lessFunc fault se w).2 = outIsCloser w /\
  tmpDirExists (flushToTempFile lessFunc fault se w).2 = tmpDirExists w /\
  (forall i, i <> tmpFilesNumber se ->
     tmpFiles (flushToTempFile lessFunc fault se w).2 !! i = tmpFiles w !! i) /\
  memLimit (flushToTempFile lessFunc fault se w).1.2 = memLimit se.
Proof.
  unfold flushToTempFile.
  destruct (negb (tmpDirExists w)); [done|].
  destruct fault as [[e|k p e|p e]|]; try destruct (k <? _)%nat; cbn;
    repeat (split; [done|]); try done;
    (split; [|done]); intros i Hi; by rewrite lookup_insert_ne.
Qed.

(** X10.  [Write], whatever fails in it, touches nothing but the file
    named by the current number of runs: the output writer has received
    and been closed as before, the directory is there or not as before,
    every other file holds what it held, and the limit of the engine is
    unchanged. *)
Theorem Write_touches_one_file (fault : option SpillFault) (b : bytes)
    (se : sortEngine) (w : World) :
  outWritten (Write lessFunc fault b se w).2 = outWritten w /\
  outClosed (Write lessFunc fault b se w).2 = outClosed w /\
  outIsCloser (Write lessFunc fault b se w).2 = outIsCloser w /\
  tmpDirExists (Write lessFunc fault b se w).2 = tmpDirExists w /\
  (forall i, i <> tmpFilesNumber se ->
     tmpFiles (Write lessFunc fault b se w).2 !! i = tmpFiles w !! i) /\
  memLimit (Write lessFunc fault b se w).1.2 = memLimit se.
Proof.
  unfold Write. cbn [memLimit memUsed]. fold (accepted b se).
  destruct (_ <=? _); [|done].
  pose proof (flush_frame fault (accepted b se) w) as Hf.
  by destruct (flushToTempFile lessFunc fault (accepted b se) w) as [[[e|] se1] w1].
Qed.


Lemma outputExtended_refl w : outputExtended w w.
Proof. repeat split. exists []. by rewrite app_nil_r. Qed.

Lemma outputExtended_trans w1 w2 w3 :
  outputExtended w1 w2 -> outputExtended w2 w3 -> outputExtended w1 w3.
Proof.
  intros (?&?&?&?&s1&?) (?&?&?&?&s2&?). repeat split; try congruence.
  exists (s1 ++ s2). rewrite app_assoc. congruence.
Qed.

Lemma outWrite_extended sinkFail b w :
  outputExtended w (outWrite sinkFail b w).2.
Proof.
  unfold outWrite. destruct sinkFail as [[[|k] e]|]; simpl;
    try apply outputExtended_refl; repeat split; by eexists.
Qed.

Lemma mergeLoop_extended fuel : forall budget sinkFail st w,
  outputExtended w (mergeLoop chunkFunc fuel budget sinkFail st w).2.
Proof.
  induction fuel as [|fuel IH]; intros budget sinkFail st w;
    [apply outputExtended_refl|].
  cbn [mergeLoop].
  destruct (if (fileheap.Len (fileHeap st) =? 0)%nat
            then fillHeap chunkFunc fuel budget st else (Returned None, st))
    as [filled st1].
  destruct filled as [[e|]| |]; try apply outputExtended_refl.
  destruct (fileheap.Len (fileHeap st1) =? 0)%nat; [apply outputExtended_refl|].
  destruct (heap.Pop (fileHeap st1)) as [[heapEntry fh]|]; [|apply outputExtended_refl].
  pose proof (outWrite_extended sinkFail (fileheap.Data heapEntry) w) as Hw.
  destruct (outWrite sinkFail (fileheap.Data heapEntry) w) as [[[e|] sf1] w1];
    simpl in Hw; [done|].
  cbn [files fileHeap].
  destruct (files st1 !! fileheap.FileIdx heapEntry) as [file|].
  - destruct (chunkFunc file) as [[b [e|]] rest].
    + destruct (is_EOF e); [|done].
      eapply outputExtended_trans; [exact Hw|apply IH].
    + eapply outputExtended_trans; [exact Hw|apply IH].
  - eapply outputExtended_trans; [exact Hw|apply IH].
Qed.


(** ** [sort], [Close] and the output *)

Lemma outputExtended_sink w w1 : outputExtended w w1 -> sinkExtended w w1.
Proof. intros (?&?&?&?&?). by repeat split. Qed.

Lemma sinkExtended_trans w1 w2 w3 :
  sinkExtended w1 w2 -> sinkExtended w2 w3 -> sinkExtended w1 w3.
Proof.
  intros (?&?&s1&?) (?&?&s2&?). repeat split; try congruence.
  exists (s1 ++ s2). rewrite app_assoc. congruence.
Qed.

Lemma deferredRemove_sink removeErr r w :
  sinkExtended w (deferredRemoveTempFiles removeErr r w).2.
Proof.
  unfold deferredRemoveTempFiles, removeTempFiles.
  destruct r, removeErr; simpl; repeat split; exists []; by rewrite app_nil_r.
Qed.

Lemma sort_sink fuel sinkFail removeErr se fs w :
  sinkExtended w (sort chunkFunc lessFunc fuel sinkFail removeErr se fs w).2.
Proof.
  unfold sort.
  pose proof (mergeLoop_extended fuel
    (Z.quot (memLimit se) (Z.of_nat (tmpFilesNumber se) + 1)) sinkFail
    {| files := fs; fileHeap := fileheap.NewHeap lessFunc |} w) as Hm.
  destruct (mergeLoop _ _ _ _ _ _) as [[r st] w1]. simpl in Hm.
  eapply sinkExtended_trans; [by apply outputExtended_sink|apply deferredRemove_sink].
Qed.

(** The output after [mergeRuns]: extended, and closed once exactly when
    the call went as far as closing it. *)
Lemma mergeRuns_sink fuel f se w :
  outIsCloser (mergeRuns chunkFunc lessFunc fuel f se w).2 = outIsCloser w /\
  (exists suffix,
     outWritten (mergeRuns chunkFunc lessFunc fuel f se w).2 = outWritten w ++ suffix) /\
  (outClosed (mergeRuns chunkFunc lessFunc fuel f se w).2 = outClosed w /\
   (mergeRuns chunkFunc lessFunc fuel f se w).1 <> Returned None \/
   outClosed (mergeRuns chunkFunc lessFunc fuel f se w).2 = S (outClosed w) /\
   outIsCloser w = true /\
   (mergeRuns chunkFunc lessFunc fuel f se w).1 = Returned (sinkCloseErr f) \/
   outClosed (mergeRuns chunkFunc lessFunc fuel f se w).2 = outClosed w /\
   outIsCloser w = false /\
   (mergeRuns chunkFunc lessFunc fuel f se w).1 = Returned None).
Proof.
  unfold mergeRuns.
  destruct (openTmpFiles (openFault f) w (tmpFilesNumber se) 0 ∅) as [err|fs].
  { simpl. split; [done|]. split; [exists []; by rewrite app_nil_r|]. by left. }
  assert (Hstep : exists r w1,
    (if (tmpFilesNumber se =? 1)%nat
     then
       match outWrite (sinkFault f) (default [] (fs !! 0%nat)) w with
       | (Some copyErr, _, w1) =>
           (Returned (Some (Errorf "cannot write temp file content to output: %s\n"
                              copyErr)), w1)
       | (None, _, w1) => (Returned None, w1)
       end
     else
       match sort chunkFunc lessFunc fuel (sinkFault f) (sortRemoveErr f) se fs w with
       | (Returned (Some sortErr), w1) =>
           (Returned (Some (Errorf "cannot sort temp files: %s\n" sortErr)), w1)
       | other => other
       end) = (r, w1) /\ sinkExtended w w1).
  { destruct (tmpFilesNumber se =? 1)%nat.
    - pose proof (outWrite_extended (sinkFault f) (default [] (fs !! 0%nat)) w) as Hw.
      apply outputExtended_sink in Hw.
      destruct (outWrite _ _ _) as [[[e|] sf] w1]; eauto.
    - pose proof (sort_sink fuel (sinkFault f) (sortRemoveErr f) se fs w) as Hs.
      destruct (sort _ _ _ _ _ _ _ _) as [[[e|]| |] w1]; eauto. }
  destruct Hstep as (r & w1 & -> & Hc & Hn & Hs).
  destruct r as [[e|]|v|]; simpl; try (split; [done|]; split; [done|]; by left).
  unfold closeOut. rewrite Hc.
  destruct (outIsCloser w) eqn:Hcl; simpl.
  - split; [done|]. split; [done|]. right. left. by rewrite Hn.
  - split; [done|]. split; [done|]. right. right. done.
Qed.

Lemma flushRemainder_frame fault se w :
  outWritten (flushRemainder lessFunc fault se w).2 = outWritten w /\
  outClosed (flushRemainder lessFunc fault se w).2 = outClosed w /\
  outIsCloser (flushRemainder lessFunc fault se w).2 = outIsCloser w /\
  tmpDirExists (flushRemainder lessFunc fault se w).2 = tmpDirExists w.
Proof.
  unfold flushRemainder. destruct (0 <? memUsed se).
  - pose proof (flush_frame fault se w) as Hf.
    destruct (flushToTempFile lessFunc fault se w) as [[[e|] se1] w1]; simpl in *; tauto.
  - done.
Qed.

(** X11.  [Close] closes the output writer at most once, and only after
    everything before has gone well: when the output has been closed, the
    writer is an [io.Closer] and, unless the removal of the directory then
    fails, [Close] returns exactly what the writer's [Close] returned.  A
    [Close] that returns nil has closed a writer that is an [io.Closer]
    exactly once. *)
Theorem Close_closes_output_once (fuel : nat) (f : CloseFaults)
    (se : sortEngine) (w : World) :
  outIsCloser (Close chunkFunc lessFunc fuel f se w).2 = outIsCloser w /\
  (outClosed (Close chunkFunc lessFunc fuel f se w).2 = outClosed w \/
   outClosed (Close chunkFunc lessFunc fuel f se w).2 = S (outClosed w) /\
   outIsCloser w = true /\
   (closeRemoveErr f = None ->
    (Close chunkFunc lessFunc fuel f se w).1.1 = Returned (sinkCloseErr f))) /\
  ((Close chunkFunc lessFunc fuel f se w).1.1 = Returned None ->
   outIsCloser w = true ->
   outClosed (Close chunkFunc lessFunc fuel f se w).2 = S (outClosed w)).
Proof.
  unfold Close, closeBody.
  pose proof (flushRemainder_frame (spillFault f) se w) as (_ & Hc0 & Hi0 & _).
  destruct (flushRemainder lessFunc (spillFault f) se w) as [[[err|] se1] w1];
    simpl in Hc0, Hi0.
  - pose proof (deferredRemove_sink (closeRemoveErr f) (Returned (Some err)) w1)
      as (Hi & Hc & _).
    assert (Hr : (deferredRemoveTempFiles (closeRemoveErr f) (Returned (Some err)) w1).1
                 <> Returned None).
    { unfold deferredRemoveTempFiles, removeTempFiles.
      by destruct (closeRemoveErr f). }
    destruct (deferredRemoveTempFiles _ _ _) as [r1 w2]. simpl in *.
    split; [congruence|]. split; [left; congruence|]. done.
  - pose proof (mergeRuns_sink fuel f se1 w1) as (Hi1 & _ & Hc1).
    destruct (mergeRuns chunkFunc lessFunc fuel f se1 w1) as [r w2]. simpl in Hi1, Hc1.
    pose proof (deferredRemove_sink (closeRemoveErr f) r w2) as (Hi & Hc & _).
    assert (Hr : closeRemoveErr f = None ->
              (deferredRemoveTempFiles (closeRemoveErr f) r w2).1 = r).
    { intros ->. by destruct r. }
    assert (Hr2 : (deferredRemoveTempFiles (closeRemoveErr f) r w2).1 = Returned None ->
              r = Returned None).
    { unfold deferredRemoveTempFiles, removeTempFiles.
      destruct r, (closeRemoveErr f); simpl; congruence. }
    destruct (deferredRemoveTempFiles _ _ _) as [r1 w3]. simpl in *.
    split; [congruence|].
    destruct Hc1 as [[Hc1 Hne]|[(Hc1 & Hcl & Hrr)|(Hc1 & Hcl & Hrr)]].
    + split; [left; congruence|]. intros -> _. by specialize (Hr2 eq_refl).
    + split; [right; repeat split; try congruence; intros E; rewrite Hr by done; done|].
      intros _ _. congruence.
    + split; [left; congruence|]. intros _ E. congruence.
Qed.

(** X12.  [Close] only appends to the output: whatever fails, however the
    call ends, what the writer had received is still there, in front. *)
Theorem Close_only_appends (fuel : nat) (f : CloseFaults)
    (se : sortEngine) (w : World) :
  exists suffix,
    outWritten (Close chunkFunc lessFunc fuel f se w).2 = outWritten w ++ suffix.
Proof.
  unfold Close, closeBody.
  pose proof (flushRemainder_frame (spillFault f) se w) as (Ho0 & _).
  destruct (flushRemainder lessFunc (spillFault f) se w) as [[[err|] se1] w1];
    simpl in Ho0.
  - pose proof (deferredRemove_sink (closeRemoveErr f) (Returned (Some err)) w1)
      as (_ & _ & s & Hs).
    destruct (deferredRemoveTempFiles _ _ _) as [r1 w2]. simpl in *.
    exists s. congruence.
  - pose proof (mergeRuns_sink fuel f se1 w1) as (_ & (s1 & Hs1) & _).
    destruct (mergeRuns chunkFunc lessFunc fuel f se1 w1) as [r w2]. simpl in Hs1.
    pose proof (deferredRemove_sink (closeRemoveErr f) r w2) as (_ & _ & s & Hs).
    destruct (deferredRemoveTempFiles _ _ _) as [r1 w3]. simpl in *.
    exists (s1 ++ s). rewrite Hs, Hs1, Ho0. by rewrite app_assoc.
Qed.

Lemma Close_removed fuel f se w :
  closeRemoveErr f = None ->
  (Close chunkFunc lessFunc fuel f se w).1.1 <> OutOfFuel ->
  tmpDirExists (Close chunkFunc lessFunc fuel f se w).2 = false /\
  tmpFiles (Close chunkFunc lessFunc fuel f se w).2 = ∅.
Proof.
  unfold Close. intros Hf.
  destruct (closeBody chunkFunc lessFunc fuel f se w) as [[r se1] w1].
  unfold deferredRemoveTempFiles, removeTempFiles. rewrite Hf.
  by destruct r.
Qed.

(** X13.  The directory does not outlive [Close]: when the removal that
    [Close] defers does not fail, a [Close] that ends, with or without an
    error or a panic of its body, leaves no directory and no file.  The
    merge defers a removal of its own, so the directory is already gone
    when [sort] hands back to [Close]. *)
Theorem Close_removes_directory (fuel : nat) (f : CloseFaults)
    (se : sortEngine) (w : World) :
  (closeRemoveErr f = None ->
   (Close chunkFunc lessFunc fuel f se w).1.1 <> OutOfFuel ->
   tmpDirExists (Close chunkFunc lessFunc fuel f se w).2 = false /\
   tmpFiles (Close chunkFunc lessFunc fuel f se w).2 = ∅) /\
  (forall fs,
     sortRemoveErr f = None ->
     (sort chunkFunc lessFunc fuel (sinkFault f) (sortRemoveErr f) se fs w).1
       <> OutOfFuel ->
     tmpDirExists
       (sort chunkFunc lessFunc fuel (sinkFault f) (sortRemoveErr f) se fs w).2 = false /\
     tmpFiles
       (sort chunkFunc lessFunc fuel (sinkFault f) (sortRemoveErr f) se fs w).2 = ∅).
Proof.
  split; [apply Close_removed|].
  intros fs Hf. unfold sort.
  destruct (mergeLoop _ _ _ _ _ _) as [[r st] w1].
  unfold deferredRemoveTempFiles, removeTempFiles. rewrite Hf.
  by destruct r.
Qed.

(** ** After [Close] *)

Lemma flush_no_directory fault se w :
  tmpDirExists w = false ->
  (flushToTempFile lessFunc fault se w).1.1 =
    Some (Errorf "cannot create temp file to flush memory buffer: %s\n"
            (OsError "no such file or directory")) /\
  (flushToTempFile lessFunc fault se w).2 = w.
Proof. intros Hd. unfold flushToTempFile. by rewrite Hd. Qed.

Lemma openTmpFiles_missing fault w count : forall i fs,
  tmpFiles w = ∅ -> (0 < count)%nat ->
  exists cause,
    openTmpFiles fault w count i fs =
      inl (Errorf "cannot open temp file: %s\n" cause).
Proof.
  intros i fs Hw Hc. destruct count as [|count]; [lia|]. simpl.
  rewrite Hw, lookup_empty.
  destruct fault as [[k e]|]; [destruct (k =? i)%nat|]; eauto.
Qed.

(** X14.  An engine is spent once [Close] has ended (its removal not
    failing): the directory is gone, so every later [Write] that has to
    spill returns 0 and the error of a file that cannot be created, and a
    later [Close] that finds bytes to flush or runs to open returns an
    error and leaves the output as it was, neither written to nor closed
    again. *)
Theorem engine_is_spent_after_Close (fuel : nat) (f : CloseFaults)
    (se : sortEngine) (w : World) :
  closeRemoveErr f = None ->
  (Close chunkFunc lessFunc fuel f se w).1.1 <> OutOfFuel ->
  (forall fault b,
     memLimit (Close chunkFunc lessFunc fuel f se w).1.2 <=
       memUsed (Close chunkFunc lessFunc fuel f se w).1.2 + len b ->
     (Write lessFunc fault b (Close chunkFunc lessFunc fuel f se w).1.2
        (Close chunkFunc lessFunc fuel f se w).2).1.1 =
       (0, Some (Errorf memoryBufferFlushErr
                   (Errorf "cannot create temp file to flush memory buffer: %s\n"
                      (OsError "no such file or directory"))))) /\
  (forall fuel2 f2,
     0 < memUsed (Close chunkFunc lessFunc fuel f se w).1.2 \/
     (0 < tmpFilesNumber (Close chunkFunc lessFunc fuel f se w).1.2)%nat ->
     closeRemoveErr f2 = None ->
     (exists e,
        (Close chunkFunc lessFunc fuel2 f2 (Close chunkFunc lessFunc fuel f se w).1.2
           (Close chunkFunc lessFunc fuel f se w).2).1.1 = Returned (Some e)) /\
     outWritten
       (Close chunkFunc lessFunc fuel2 f2 (Close chunkFunc lessFunc fuel f se w).1.2
          (Close chunkFunc lessFunc fuel f se w).2).2 =
       outWritten (Close chunkFunc lessFunc fuel f se w).2 /\
     outClosed
       (Close chunkFunc lessFunc fuel2 f2 (Close chunkFunc lessFunc fuel f se w).1.2
          (Close chunkFunc lessFunc fuel f se w).2).2 =
       outClosed (Close chunkFunc lessFunc fuel f se w).2).
Proof.
  intros Hf Hr. destruct (Close_removed fuel f se w Hf Hr) as [Hd Hfs].
  destruct (Close chunkFunc lessFunc fuel f se w) as [[r se1] w1].
  cbn [fst snd] in *. clear Hr. split.
  - intros fault b Hfull. unfold Write. cbn [memLimit memUsed].
    destruct (Z.leb_spec (memLimit se1) (memUsed se1 + len b)); [|lia].
    match goal with |- context [flushToTempFile lessFunc fault ?s w1] =>
      destruct (flush_no_directory fault s w1 Hd) as [He _];
      destruct (flushToTempFile lessFunc fault s w1) as [[ferr se2] w2] end.
    simpl in He. by subst ferr.
  - intros fuel2 f2 Hleft Hf2. unfold Close, closeBody, flushRemainder.
    destruct (Z.ltb_spec 0 (memUsed se1)) as [Hpos|Hzero].
    + destruct (flush_no_directory (spillFault f2) se1 w1 Hd) as [He Hw].
      destruct (flushToTempFile lessFunc (spillFault f2) se1 w1) as [[ferr se2] w2].
      simpl in He, Hw. subst ferr w2.
      unfold deferredRemoveTempFiles, removeTempFiles. rewrite Hf2. simpl. eauto.
    + destruct Hleft as [?|Hn]; [lia|]. unfold mergeRuns. cbn [tmpFilesNumber].
      destruct (openTmpFiles_missing (openFault f2) w1 (tmpFilesNumber se1) 0%nat ∅)
        as [cause ->]; [done|done|].
      unfold deferredRemoveTempFiles, removeTempFiles. rewrite Hf2. simpl. eauto.
Qed.


(** ** A run that cannot be opened *)

Lemma openTmpFiles_fault w k e count : forall i fs,
  (i <= k < i + count)%nat ->
  exists cause,
    openTmpFiles (Some (k, e)) w count i fs =
      inl (Errorf "cannot open temp file: %s\n" cause).
Proof.
  induction count as [|count IH]; intros i fs Hk; [lia|]. simpl.
  destruct (Nat.eqb_spec k i) as [->|Hne]; [eauto|].
  destruct (tmpFiles w !! i); [|eauto]. apply IH. lia.
Qed.

Lemma flushRemainder_number fault se w :
  (tmpFilesNumber se <= tmpFilesNumber (flushRemainder lessFunc fault se w).1.2)%nat.
Proof.
  unfold flushRemainder, flushToTempFile.
  destruct (0 <? memUsed se); [|simpl; lia].
  destruct (negb (tmpDirExists w)); [simpl; lia|].
  destruct fault as [[e|k p e|p e]|]; try destruct (k <? _)%nat; simpl; lia.
Qed.

(** X15.  When a run cannot be opened for reading, [Close] returns the
    error of the open, wrapped, after the flush of the remainder; nothing
    is written to the output and the output is not closed. *)
Theorem unopened_run_stops_Close (fuel : nat) (f : CloseFaults)
    (se : sortEngine) (w : World) (k : nat) (e : error) :
  openFault f = Some (k, e) -> (k < tmpFilesNumber se)%nat ->
  (flushRemainder lessFunc (spillFault f) se w).1.1 = None ->
  closeRemoveErr f = None ->
  (exists cause,
     (Close chunkFunc lessFunc fuel f se w).1.1 =
       Returned (Some (Errorf "cannot open temp file: %s\n" cause))) /\
  outWritten (Close chunkFunc lessFunc fuel f se w).2 = outWritten w /\
  outClosed (Close chunkFunc lessFunc fuel f se w).2 = outClosed w.
Proof.
  intros Hopen Hk Hflush Hrm. unfold Close, closeBody.
  pose proof (flushRemainder_frame (spillFault f) se w) as (Ho & Hc & _).
  pose proof (flushRemainder_number (spillFault f) se w) as Hn.
  destruct (flushRemainder lessFunc (spillFault f) se w) as [[ferr se1] w1].
  simpl in Hflush, Ho, Hc, Hn. subst ferr. unfold mergeRuns. rewrite Hopen.
  destruct (openTmpFiles_fault w1 k e (tmpFilesNumber se1) 0%nat ∅) as [cause ->];
    [lia|].
  unfold deferredRemoveTempFiles, removeTempFiles. rewrite Hrm. simpl. eauto.
Qed.

End EngineFacts.

Lemma engine_is_spent_after_Close_witness :
  let sw := extsort.writeAll demo.lessFunc
              [demo.line "b"; demo.line "a"; demo.line "c"] (extsort.fresh false 4) in
  let after :=
    extsort.Close demo.chunkFunc demo.lessFunc 9 extsort.noFaults sw.1 sw.2 in
  (forall fault b,
     extsort.memLimit after.1.2 <= extsort.memUsed after.1.2 + len b ->
     (extsort.Write demo.lessFunc fault b after.1.2 after.2).1.1 =
       (0, Some (Errorf extsort.memoryBufferFlushErr
                   (Errorf "cannot create temp file to flush memory buffer: %s\n"
                      (OsError "no such file or directory"))))) /\
  (forall fuel2 f2,
     0 < extsort.memUsed after.1.2 \/ (0 < extsort.tmpFilesNumber after.1.2)%nat ->
     extsort.closeRemoveErr f2 = None ->
     (exists e,
        (extsort.Close demo.chunkFunc demo.lessFunc fuel2 f2 after.1.2 after.2).1.1 =
          Returned (Some e)) /\
     extsort.outWritten
       (extsort.Close demo.chunkFunc demo.lessFunc fuel2 f2 after.1.2 after.2).2 =
       extsort.outWritten after.2 /\
     extsort.outClosed
       (extsort.Close demo.chunkFunc demo.lessFunc fuel2 f2 after.1.2 after.2).2 =
       extsort.outClosed after.2).
Proof.
  intros sw after.
  apply (engine_is_spent_after_Close demo.chunkFunc demo.lessFunc 9
           extsort.noFaults sw.1 sw.2).
  - reflexivity.
  - vm_compute. discriminate.
Defined.

Lemma unopened_run_stops_Close_witness :
  let sw := extsort.writeAll demo.lessFunc
              [demo.line "b"; demo.line "a"; demo.line "c"] (extsort.fresh true 4) in
  let f := {| extsort.spillFault := None;
              extsort.openFault := Some (0%nat, OsError "too many open files");
              extsort.sinkFault := None; extsort.sinkCloseErr := None;
              extsort.sortRemoveErr := None; extsort.closeRemoveErr := None |} in
  (exists cause,
     (extsort.Close demo.chunkFunc demo.lessFunc 9 f sw.1 sw.2).1.1 =
       Returned (Some (Errorf "cannot open temp file: %s\n" cause))) /\
  extsort.outWritten (extsort.Close demo.chunkFunc demo.lessFunc 9 f sw.1 sw.2).2 =
    extsort.outWritten sw.2 /\
  extsort.outClosed (extsort.Close demo.chunkFunc demo.lessFunc 9 f sw.1 sw.2).2 =
    extsort.outClosed sw.2.
Proof.
  intros sw f.
  apply (unopened_run_stops_Close demo.chunkFunc demo.lessFunc 9 f sw.1 sw.2
           0%nat (OsError "too many open files")).
  - reflexivity.
  - vm_compute. lia.
  - reflexivity.
  - reflexivity.
Defined.

(** ** Spills that are tried again *)

Section RetryFacts.
Import extsort.
Context `{GoSort}.
Variable chunkFunc : Chunk.
Variable lessFunc : bytes -> bytes -> bool.

Lemma len_concat (l : list bytes) : len (concat l) = sumLen l.
Proof.
  induction l as [|r l IH]; [done|]. simpl. unfold len in *.
  rewrite length_app. lia.
Qed.

Lemma len_overwrite old new :
  len (overwrite old new) = Z.max (len old) (len new).
Proof. unfold overwrite, len. rewrite length_app, length_drop. lia. Qed.

Lemma noStaleBytes_removed se w w1 :
  noStaleBytes se w -> tmpFiles w1 = ∅ -> noStaleBytes se w1.
Proof.
  intros (Hc & _ & _) Hw. split; [done|]. rewrite Hw.
  split; intros *; by rewrite lookup_empty.
Qed.

Lemma flush_noStale fault se w :
  noStaleBytes se w ->
  noStaleBytes (flushToTempFile lessFunc fault se w).1.2
    (flushToTempFile lessFunc fault se w).2.
Proof.
  intros (Hc & Hkeys & Hlen).
  pose proof (flush_counter lessFunc fault se w Hc) as Hc1.
  split; [done|]. clear Hc1. revert Hkeys Hlen. unfold flushToTempFile.
  pose proof (sumLen_perm _ _ (sortSlice_perm lessFunc (memoryBuffer se))) as Hs.
  intros Hkeys Hlen.
  assert (Hold : len (fileContent w (tmpFilesNumber se)) <= sumLen (memoryBuffer se)).
  { unfold fileContent. destruct (tmpFiles w !! tmpFilesNumber se) as [c|] eqn:E.
    - simpl. by apply Hlen.
    - simpl. apply sumLen_nonneg. }
  assert (Hsame : forall buf,
            sumLen buf = sumLen (memoryBuffer se) ->
            (forall i c, tmpFiles w !! i = Some c -> (i <= tmpFilesNumber se)%nat) /\
            (forall c, tmpFiles w !! tmpFilesNumber se = Some c -> len c <= sumLen buf)).
  { intros buf Hb. split; [done|]. intros c Hcf. rewrite Hb. by apply Hlen. }
  assert (Hpart : forall p,
            (forall i c,
               <[tmpFilesNumber se :=
                   overwrite (fileContent w (tmpFilesNumber se))
                     (take p (concat (sortSlice lessFunc (memoryBuffer se))))]>
                 (tmpFiles w) !! i = Some c -> (i <= tmpFilesNumber se)%nat) /\
            (forall c,
               <[tmpFilesNumber se :=
                   overwrite (fileContent w (tmpFilesNumber se))
                     (take p (concat (sortSlice lessFunc (memoryBuffer se))))]>
                 (tmpFiles w) !! tmpFilesNumber se = Some c ->
               len c <= sumLen (sortSlice lessFunc (memoryBuffer se)))).
  { intros p. split.
    - intros i c [[<- _]|[_ Hi]]%lookup_insert_Some; [lia|by eapply Hkeys].
    - intros c. rewrite lookup_insert_eq. intros [= <-].
      rewrite len_overwrite, Hs.
      assert (len (take p (concat (sortSlice lessFunc (memoryBuffer se)))) <=
              sumLen (memoryBuffer se)).
      { rewrite <-Hs, <-len_concat. unfold len. rewrite length_take. lia. }
      lia. }
  destruct (negb (tmpDirExists w)); [by apply Hsame|].
  destruct fault as [[e|k p e|p e]|]; try destruct (k <? _)%nat;
    cbn [fst snd tmpFilesNumber memoryBuffer tmpFiles setTmpFiles];
    try (by apply Hsame); try apply Hpart.
  split.
  - intros i c [[<- _]|[_ Hi]]%lookup_insert_Some; [lia|].
    specialize (Hkeys i c Hi). lia.
  - intros c. rewrite lookup_insert_ne by lia. intros Hi.
    specialize (Hkeys _ c Hi). lia.
Qed.

Lemma accepted_noStale b se w :
  noStaleBytes se w -> noStaleBytes (accepted b se) w.
Proof.
  intros (Hc & Hkeys & Hlen). unfold accepted. split; [|split].
  - unfold counterMatchesBuffer in *. simpl. rewrite sumLen_app, Hc. simpl. lia.
  - done.
  - simpl. intros c Hcf. specialize (Hlen c Hcf). rewrite sumLen_app. simpl.
    unfold len in *. lia.
Qed.

Lemma Write_noStale fault b se w :
  noStaleBytes se w ->
  noStaleBytes (Write lessFunc fault b se w).1.2 (Write lessFunc fault b se w).2.
Proof.
  intros Hinv. apply (accepted_noStale b) in Hinv.
  unfold Write. cbn [memLimit memUsed]. fold (accepted b se).
  destruct (_ <=? _); [|done].
  pose proof (flush_noStale fault (accepted b se) w Hinv) as Hf.
  by destruct (flushToTempFile lessFunc fault (accepted b se) w) as [[[e|] se1] w1].
Qed.

Lemma flushRemainder_noStale fault se w :
  noStaleBytes se w ->
  noStaleBytes (flushRemainder lessFunc fault se w).1.2
    (flushRemainder lessFunc fault se w).2.
Proof.
  intros Hinv. unfold flushRemainder.
  destruct (Z.ltb_spec 0 (memUsed se)) as [Hpos|Hzero].
  - pose proof (flush_noStale fault se w Hinv) as Hf.
    destruct (flushToTempFile lessFunc fault se w) as [[[e|] se1] w1] eqn:E;
      [done|]. cbn [fst snd] in *.
    assert (Hb : memoryBuffer se1 = []).
    { pose proof (f_equal (fun x => x.1.1) E) as E1.
      pose proof (f_equal (fun x => memoryBuffer x.1.2) E) as E2.
      revert E1 E2. unfold flushToTempFile.
      destruct (negb (tmpDirExists w)); [done|].
      destruct fault as [[e|k p e|p e]|]; try destruct (k <? _)%nat;
        first [done | simpl; by intros _ <-]. }
    destruct Hf as (Hc & Hkeys & Hlen). split; [|split]; try done.
    + unfold counterMatchesBuffer in *. simpl. by rewrite Hc, Hb.
    + simpl. intros c Hcf. specialize (Hlen c Hcf). by rewrite Hb in Hlen.
  - destruct Hinv as (Hc & Hkeys & Hlen). cbn [fst snd].
    unfold counterMatchesBuffer in Hc.
    pose proof (sumLen_nonneg (memoryBuffer se)).
    split; [|split]; try done.
    + unfold counterMatchesBuffer. simpl. lia.
    + simpl. intros c Hcf. specialize (Hlen c Hcf). lia.
Qed.

Lemma deferredRemove_filesKept removeErr r w :
  filesKept w (deferredRemoveTempFiles removeErr r w).2.
Proof.
  unfold deferredRemoveTempFiles, removeTempFiles, filesKept.
  destruct r, removeErr; simpl; auto.
Qed.

Lemma filesKept_trans w1 w2 w3 :
  filesKept w1 w2 -> filesKept w2 w3 -> filesKept w1 w3.
Proof. unfold filesKept. intros [?|?] [?|?]; try (right; congruence). left; congruence. Qed.

Lemma mergeRuns_filesKept fuel f se w :
  filesKept w (mergeRuns chunkFunc lessFunc fuel f se w).2.
Proof.
  unfold mergeRuns.
  destruct (openTmpFiles (openFault f) w (tmpFilesNumber se) 0 ∅) as [err|fs];
    [by left|].
  assert (Hstep : exists r w1,
    (if (tmpFilesNumber se =? 1)%nat
     then
       match outWrite (sinkFault f) (default [] (fs !! 0%nat)) w with
       | (Some copyErr, _, w1) =>
           (Returned (Some (Errorf "cannot write temp file content to output: %s\n"
                              copyErr)), w1)
       | (None, _, w1) => (Returned None, w1)
       end
     else
       match sort chunkFunc lessFunc fuel (sinkFault f) (sortRemoveErr f) se fs w with
       | (Returned (Some sortErr), w1) =>
           (Returned (Some (Errorf "cannot sort temp files: %s\n" sortErr)), w1)
       | other => other
       end) = (r, w1) /\ filesKept w w1).
  { destruct (tmpFilesNumber se =? 1)%nat.
    - pose proof (outWrite_extended (sinkFault f) (default [] (fs !! 0%nat)) w)
        as (_ & Hw & _).
      destruct (outWrite _ _ _) as [[[e|] sf] w1]; simpl in Hw;
        eexists _, _; (split; [done|]); by left.
    - assert (Hs : filesKept w
                (sort chunkFunc lessFunc fuel (sinkFault f) (sortRemoveErr f) se fs w).2).
      { unfold sort.
        pose proof (mergeLoop_extended chunkFunc fuel
          (Z.quot (memLimit se) (Z.of_nat (tmpFilesNumber se) + 1)) (sinkFault f)
          {| files := fs; fileHeap := fileheap.NewHeap lessFunc |} w) as (_ & Hm & _).
        destruct (mergeLoop _ _ _ _ _ _) as [[r st] w1]. simpl in Hm.
        eapply filesKept_trans; [by left|apply deferredRemove_filesKept]. }
      destruct (sort _ _ _ _ _ _ _ _) as [[[e|]| |] w1]; eauto. }
  destruct Hstep as (r & w1 & -> & Hk).
  destruct r as [[e|]|v|]; simpl; try done.
  unfold closeOut. by destruct (outIsCloser w1).
Qed.

Lemma Close_noStale fuel f se w :
  noStaleBytes se w ->
  noStaleBytes (Close chunkFunc lessFunc fuel f se w).1.2
    (Close chunkFunc lessFunc fuel f se w).2.
Proof.
  intros Hinv. apply (flushRemainder_noStale (spillFault f)) in Hinv.
  unfold Close, closeBody.
  destruct (flushRemainder lessFunc (spillFault f) se w) as [[[err|] se1] w1];
    cbn [fst snd] in Hinv.
  - pose proof (deferredRemove_filesKept (closeRemoveErr f) (Returned (Some err)) w1)
      as Hk.
    destruct (deferredRemoveTempFiles _ _ _) as [r1 w2]. simpl in *.
    destruct Hk as [Hk|Hk]; [|by eapply noStaleBytes_removed].
    destruct Hinv as (? & ? & ?). split; [done|]. by rewrite Hk.
  - pose proof (mergeRuns_filesKept fuel f se1 w1) as Hk1.
    destruct (mergeRuns chunkFunc lessFunc fuel f se1 w1) as [r w2]. simpl in Hk1.
    pose proof (deferredRemove_filesKept (closeRemoveErr f) r w2) as Hk2.
    destruct (deferredRemoveTempFiles _ _ _) as [r1 w3]. simpl in *.
    destruct (filesKept_trans _ _ _ Hk1 Hk2) as [Hk|Hk];
      [|by eapply noStaleBytes_removed].
    destruct Hinv as (? & ? & ?). split; [done|]. by rewrite Hk.
Qed.

Lemma perform_noStale ops : forall sw,
  noStaleBytes sw.1 sw.2 ->
  noStaleBytes (foldl (perform chunkFunc lessFunc) sw ops).1
    (foldl (perform chunkFunc lessFunc) sw ops).2.
Proof.
  induction ops as [|o ops IH]; intros sw Hinv; [done|].
  simpl. apply IH. destruct o as [fault b|fuel f]; simpl.
  - by apply Write_noStale.
  - by apply Close_noStale.
Qed.

(** X16.  A spill that goes through leaves no stale bytes.  The run files
    are opened without truncation, and a spill that fails half-way leaves a
    part of its file behind; but after any sequence of [Write] and [Close]
    calls on a fresh engine, whatever failed in them, a [Write] that
    brings the number of runs up has left in the new run exactly the
    buffer with its record, sorted, and nothing after it. *)
Theorem a_spill_leaves_no_stale_bytes (closer : bool) (M : Z)
    (ops : list operation) (fault : option SpillFault) (b : bytes) :
  tmpFilesNumber
    (Write lessFunc fault b
       (foldl (perform chunkFunc lessFunc) (fresh closer M) ops).1
       (foldl (perform chunkFunc lessFunc) (fresh closer M) ops).2).1.2 =
    S (tmpFilesNumber (foldl (perform chunkFunc lessFunc) (fresh closer M) ops).1) ->
  tmpFiles
    (Write lessFunc fault b
       (foldl (perform chunkFunc lessFunc) (fresh closer M) ops).1
       (foldl (perform chunkFunc lessFunc) (fresh closer M) ops).2).2
    !! tmpFilesNumber (foldl (perform chunkFunc lessFunc) (fresh closer M) ops).1 =
    Some (concat
            (sortSlice lessFunc
               (memoryBuffer (foldl (perform chunkFunc lessFunc) (fresh closer M) ops).1
                ++ [b]))).
Proof.
  pose proof (perform_noStale ops (fresh closer M)) as Hinv.
  destruct (foldl (perform chunkFunc lessFunc) (fresh closer M) ops) as [se w].
  cbn [fst snd] in *.
  assert (Hfresh : noStaleBytes (fresh closer M).1 (fresh closer M).2).
  { split; [done|]. split; intros *; simpl; by rewrite lookup_empty. }
  specialize (Hinv Hfresh). apply (accepted_noStale b) in Hinv.
  destruct Hinv as (_ & _ & Hlen).
  unfold Write. cbn [memLimit memUsed]. fold (accepted b se).
  destruct (_ <=? _); [|simpl; lia].
  assert (Hflush :
    tmpFilesNumber (flushToTempFile lessFunc fault (accepted b se) w).1.2 =
      S (tmpFilesNumber se) ->
    tmpFiles (flushToTempFile lessFunc fault (accepted b se) w).2 !! tmpFilesNumber se =
      Some (concat (sortSlice lessFunc (memoryBuffer se ++ [b])))).
  { unfold flushToTempFile. cbn [tmpFilesNumber memoryBuffer accepted].
    destruct (negb (tmpDirExists w)); [simpl; lia|].
    destruct fault as [[e|k p e|p e]|]; try destruct (k <? _)%nat;
      try (simpl; lia).
    intros _. cbn [snd tmpFiles setTmpFiles]. rewrite lookup_insert_eq. f_equal.
    unfold overwrite. rewrite drop_ge, app_nil_r; [done|].
    assert (Hold : len (fileContent w (tmpFilesNumber se)) <= sumLen (memoryBuffer se ++ [b])).
    { unfold fileContent. destruct (tmpFiles w !! tmpFilesNumber se) as [c|] eqn:E.
      - simpl. by apply Hlen.
      - simpl. apply sumLen_nonneg. }
    rewrite <-(sumLen_perm _ _ (sortSlice_perm lessFunc (memoryBuffer se ++ [b]))),
      <-len_concat in Hold.
    unfold len in Hold. lia. }
  by destruct (flushToTempFile lessFunc fault (accepted b se) w) as [[[e|] se1] w1].
Qed.

End RetryFacts.

Lemma a_spill_leaves_no_stale_bytes_witness :
  let ops := [DoWrite (Some (extsort.WriteFails 0 3 (OsError "no space left on device")))
                (demo.line "bbb")] in
  let sw := foldl (perform demo.chunkFunc demo.lessFunc) (extsort.fresh false 4) ops in
  extsort.tmpFiles (extsort.Write demo.lessFunc None (demo.line "a") sw.1 sw.2).2
    !! extsort.tmpFilesNumber sw.1 =
    Some (concat (sortSlice demo.lessFunc
                    (extsort.memoryBuffer sw.1 ++ [demo.line "a"]))).
Proof.
  intros ops sw.
  apply (a_spill_leaves_no_stale_bytes demo.chunkFunc demo.lessFunc false 4 ops
           None (demo.line "a")).
  reflexivity.
Defined.

(** ** Empty records among the others *)

Lemma dropEmpty_cons r l :
  dropEmpty (r :: l) = match r with [] => dropEmpty l | _ => r :: dropEmpty l end.
Proof. by destruct r. Qed.

Lemma concat_dropEmpty l : concat (dropEmpty l) = concat l.
Proof. induction l as [|[|c r] l IH]; simpl; by rewrite ?IH. Qed.

Lemma sumLen_dropEmpty l : sumLen (dropEmpty l) = sumLen l.
Proof. induction l as [|[|c r] l IH]; simpl; by rewrite ?IH. Qed.

Lemma dropEmpty_app l1 l2 : dropEmpty (l1 ++ l2) = dropEmpty l1 ++ dropEmpty l2.
Proof. induction l1 as [|[|c r] l1 IH]; simpl; by rewrite ?IH. Qed.

Lemma dropEmpty_perm l1 l2 : l1 ≡ₚ l2 -> dropEmpty l1 ≡ₚ dropEmpty l2.
Proof.
  induction 1 as [|r l1 l2 _ IH|r1 r2 l|l1 l2 l3 _ IH1 _ IH2].
  - done.
  - destruct r; simpl; by rewrite IH.
  - destruct r1, r2; simpl; try done. apply Permutation_swap.
  - by rewrite IH1.
Qed.

Lemma elem_of_dropEmpty r l : r ∈ dropEmpty l <-> r ∈ l /\ r <> [].
Proof.
  induction l as [|[|c x] l IH]; simpl.
  - split; [by intros ?%not_elem_of_nil|by intros [?%not_elem_of_nil _]].
  - rewrite IH, elem_of_cons. split; [intros [? ?]; by split; [right|]|].
    intros [[->|?] ?]; done.
  - rewrite !elem_of_cons, IH. split.
    + intros [->|[? ?]]; [by split; [left|]|by split; [right|]].
    + intros [[->|?] ?]; [by left|by right].
Qed.

Lemma dropEmpty_nonempty l : Forall (fun r => r <> []) (dropEmpty l).
Proof. apply Forall_forall. intros r Hr. by apply elem_of_dropEmpty in Hr as [_ ?]. Qed.


Lemma dropEmpty_sorted (R : bytes -> bytes -> Prop) l :
  StronglySorted R l -> StronglySorted R (dropEmpty l).
Proof.
  induction 1 as [|r l _ IH Hr]; [constructor|].
  rewrite dropEmpty_cons.
  assert (Hd : Forall (R r) (dropEmpty l)).
  { apply Forall_forall. intros x [Hx _]%elem_of_dropEmpty.
    rewrite Forall_forall in Hr. by apply Hr. }
  destruct r; [done|]. by constructor.
Qed.

Lemma length_dropEmpty l : (length (dropEmpty l) <= length l)%nat.
Proof. induction l as [|[|c r] l IH]; simpl; lia. Qed.

Section LooseFacts.
Import extsort.
Context `{GoSort}.
Variable chunkFunc : Chunk.
Variable less : bytes -> bytes -> bool.
Hypothesis chunk_eof : eofAtEnd chunkFunc.

Lemma spilled_last M runs run run' buf se w :
  spilled M (runs ++ [run]) buf se w -> concat run' = concat run ->
  spilled M (runs ++ [run']) buf se w.
Proof.
  intros [HM Hn Hb Hu Hd Hf Ho] Hc. split; try done.
  - by rewrite Hn, !length_app.
  - rewrite Hf, !fmap_app. simpl. by rewrite Hc.
Qed.

Lemma sumLen_nonempty (l : list bytes) : 0 < sumLen l -> dropEmpty l <> [].
Proof. intros Hs E. rewrite <-sumLen_dropEmpty, E in Hs. simpl in Hs. lia. Qed.

(** A spill of a buffer that may hold empty records. *)
Lemma flush_spilled_loose M runs buf se w :
  spilled M runs buf se w ->
  exists se1 w1,
    flushToTempFile less None se w = (None, se1, w1) /\
    spilled M (runs ++ [dropEmpty (sortSlice less buf)]) [] se1 w1 /\
    outIsCloser w1 = outIsCloser w /\ outClosed w1 = outClosed w.
Proof.
  intros Hsp.
  destruct (flush_spilled less M runs buf se w Hsp) as (se1 & w1 & Hf & Hsp1 & Hc).
  exists se1, w1. split; [done|]. split; [|done].
  eapply spilled_last; [exact Hsp1|apply concat_dropEmpty].
Qed.

Lemma Write_spilled_loose M runs buf se w b :
  0 < M -> spilled M runs buf se w ->
  exists se1 w1 runs1 buf1,
    Write less None b se w = ((len b, None), se1, w1) /\
    spilled M (runs ++ runs1) buf1 se1 w1 /\
    concat runs1 ++ dropEmpty buf1 ≡ₚ dropEmpty (buf ++ [b]) /\
    Forall (fullRun less M) runs1 /\
    outIsCloser w1 = outIsCloser w /\ outClosed w1 = outClosed w.
Proof.
  intros HMpos Hsp. pose proof Hsp as [HM Hn Hb Hu Hd Hf Ho]. unfold Write. simpl.
  rewrite HM, Hu, Hb.
  assert (Hsum : sumLen buf + len b = sumLen (buf ++ [b])).
  { rewrite sumLen_app. simpl. lia. }
  destruct (Z.leb_spec M (sumLen buf + len b)) as [Hfull|Hroom].
  - destruct (flush_spilled_loose M runs (buf ++ [b])
                {| memLimit := memLimit se; memUsed := sumLen buf + len b;
                   tmpFilesNumber := tmpFilesNumber se;
                   memoryBuffer := buf ++ [b] |} w)
      as (se1 & w1 & Hflush & Hsp1 & Hc1 & Hc2).
    { by split. }
    rewrite HM in Hflush. rewrite Hflush.
    exists se1, w1, [dropEmpty (sortSlice less (buf ++ [b]))], [].
    split; [done|]. split; [done|]. split.
    { simpl. rewrite !app_nil_r. apply dropEmpty_perm, sortSlice_perm. }
    split; [|done]. constructor; [|done].
    assert (Hs : sumLen (sortSlice less (buf ++ [b])) = sumLen (buf ++ [b]))
      by apply sumLen_perm, sortSlice_perm.
    split; [|split].
    + apply sumLen_nonempty. lia.
    + rewrite sumLen_dropEmpty. lia.
    + intros Hsw. by apply dropEmpty_sorted, sortSlice_strongly.
  - eexists _, w, [], (buf ++ [b]). split; [done|].
    split; [|done]. rewrite app_nil_r. by split.
Qed.

Lemma writeAll_spilled_loose M rs : forall runs buf se w,
  0 < M -> spilled M runs buf se w ->
  exists runs1 buf1,
    spilled M (runs ++ runs1) buf1 (writeAll less rs (se, w)).1 (writeAll less rs (se, w)).2 /\
    concat runs1 ++ dropEmpty buf1 ≡ₚ dropEmpty (buf ++ rs) /\
    Forall (fullRun less M) runs1 /\
    outIsCloser (writeAll less rs (se, w)).2 = outIsCloser w /\
    outClosed (writeAll less rs (se, w)).2 = outClosed w.
Proof.
  induction rs as [|b rs IH]; intros runs buf se w HM Hsp.
  - exists [], buf. simpl. by rewrite !app_nil_r.
  - destruct (Write_spilled_loose M runs buf se w b HM Hsp)
      as (se1 & w1 & runs1 & buf1 & HW & Hsp1 & Hp1 & Hfull1 & Hc1 & Hc2).
    unfold writeAll. simpl. rewrite HW. fold (writeAll less rs (se1, w1)).
    destruct (IH _ _ _ _ HM Hsp1) as (runs2 & buf2 & Hsp2 & Hp2 & Hfull2 & Hc3 & Hc4).
    exists (runs1 ++ runs2), buf2. rewrite app_assoc. split; [done|].
    split.
    { rewrite concat_app, <-app_assoc, Hp2, dropEmpty_app, app_assoc, Hp1.
      by rewrite <-dropEmpty_app, <-app_assoc. }
    split; [by apply Forall_app|]. split; congruence.
Qed.

Lemma flushRemainder_spilled_loose M runs buf se w :
  spilled M runs buf se w ->
  exists se1 w1 runs1,
    flushRemainder less None se w = (None, se1, w1) /\
    spilled M (runs ++ runs1) [] se1 w1 /\
    concat runs1 ≡ₚ dropEmpty buf /\
    (length runs1 <= 1)%nat /\
    Forall (fun run => run <> []) runs1 /\
    (StrictWeak less -> Forall (StronglySorted (ordered less)) runs1) /\
    outIsCloser w1 = outIsCloser w /\ outClosed w1 = outClosed w.
Proof.
  intros Hsp. pose proof Hsp as [HM Hn Hb Hu Hd Hf Ho].
  unfold flushRemainder. rewrite Hu.
  destruct (Z.ltb_spec 0 (sumLen buf)) as [Hpos|Hzero].
  - destruct (flush_spilled_loose M runs buf se w Hsp)
      as (se1 & w1 & Hflush & Hsp1 & Hc1 & Hc2).
    rewrite Hflush. eexists _, w1, [dropEmpty (sortSlice less buf)].
    split; [done|]. split.
    { destruct Hsp1. by split. }
    simpl. rewrite app_nil_r. split; [apply dropEmpty_perm, sortSlice_perm|].
    split; [lia|]. split; [|split; [|done]].
    + constructor; [|done]. apply sumLen_nonempty.
      by rewrite (sumLen_perm _ _ (sortSlice_perm less buf)).
    + intros Hsw. constructor; [|done]. by apply dropEmpty_sorted, sortSlice_strongly.
  - assert (Hall : dropEmpty buf = []).
    { pose proof (sumLen_nonneg buf).
      pose proof (sumLen_zero buf ltac:(lia)) as Hz.
      clear -Hz. induction Hz as [|r l -> _ IH]; [done|exact IH]. }
    eexists _, w, []. split; [done|]. rewrite app_nil_r. split.
    { split; try done. simpl. pose proof (sumLen_nonneg buf). lia. }
    simpl. rewrite Hall. split; [done|]. split; [lia|].
    split; [by constructor|]. split; [by constructor|done].
Qed.

(** Records that are framed or empty, and a positive limit. *)
Lemma Close_writeAll_loose (rs : list bytes) (M : Z) (closer : bool) (fuel : nat) :
  0 < M ->
  Forall (fun r => r = [] \/ framed chunkFunc r) rs ->
  (2 * length rs + 3 <= fuel)%nat ->
  exists L se1 w1,
    Close chunkFunc less fuel noFaults
      (writeAll less rs (fresh closer M)).1 (writeAll less rs (fresh closer M)).2 =
      (Returned None, se1, w1) /\
    outWritten w1 = concat L /\ L ≡ₚ dropEmpty rs /\
    (StrictWeak less -> StronglySorted (ordered less) L) /\
    outClosed w1 = (if closer then 1 else 0)%nat.
Proof.
  intros HM Hfr Hfuel.
  destruct (writeAll_spilled_loose M rs [] [] (fresh closer M).1 (fresh closer M).2 HM)
    as (runs1 & buf1 & Hsp & Hperm & Hfull & Hcl1 & Hcl2).
  { by split. }
  simpl in Hsp, Hperm, Hcl1, Hcl2. change (_, _) with (fresh closer M) in Hsp, Hcl1, Hcl2.
  set (se := (writeAll less rs (fresh closer M)).1) in *.
  set (w := (writeAll less rs (fresh closer M)).2) in *.
  destruct (flushRemainder_spilled_loose M runs1 buf1 se w Hsp)
    as (se1 & w1 & runs2 & Hflush & Hsp1 & Hperm2 & Hlen2 & Hne2 & Hs2 & Hcl3 & Hcl4).
  assert (Hall : concat (runs1 ++ runs2) ≡ₚ dropEmpty rs).
  { by rewrite concat_app, Hperm2. }
  assert (Hne : Forall (fun run => run <> []) (runs1 ++ runs2)).
  { apply Forall_app. split; [|done]. eapply Forall_impl; [exact Hfull|].
    by intros run [? _]. }
  assert (Hframed : forall r, r ∈ dropEmpty rs -> framed chunkFunc r).
  { intros r [Hr Hrne]%elem_of_dropEmpty. rewrite Forall_forall in Hfr.
    by destruct (Hfr r Hr). }
  destruct (mergeRuns_spilled chunkFunc less chunk_eof M (runs1 ++ runs2) se1 w1 fuel Hsp1)
    as (L & w2 & Hmerge & Hout & HL & HLs).
  - apply Forall_forall. intros run Hrun. apply Forall_forall. intros r Hr.
    apply Hframed. rewrite <-Hall. apply elem_of_concat. eauto.
  - intros i run Hi HSi. rewrite length_app in HSi.
    rewrite lookup_app_l in Hi by lia.
    rewrite Forall_forall in Hfull.
    destruct (Hfull run) as (? & ? & _); [by eapply list_elem_of_lookup_2|done].
  - intros Hsw. apply Forall_app. split; [|by apply Hs2].
    eapply Forall_impl; [exact Hfull|]. intros run (_ & _ & Hs). by apply Hs.
  - pose proof (length_runs_le less _ Hne) as Hle.
    pose proof (length_dropEmpty rs).
    rewrite (Permutation_length Hall) in *. lia.
  - pose proof (mergeRuns_sink chunkFunc less fuel noFaults se1 w1) as (_ & _ & Hcl).
    rewrite Hmerge in Hcl. cbn [fst snd sinkCloseErr noFaults] in Hcl.
    unfold Close, closeBody. cbn [spillFault closeRemoveErr noFaults].
    rewrite Hflush, Hmerge. cbn [deferredRemoveTempFiles removeTempFiles].
    exists L. eexists _, _. split; [done|]. cbn [outWritten outClosed].
    split; [done|]. split; [by rewrite HL|]. split; [done|].
    rewrite Hcl3, Hcl1, Hcl4, Hcl2 in Hcl.
    destruct Hcl as [[_ ?]|[(-> & -> & _)|(-> & -> & _)]]; done.
Qed.

(** X17.  Records of no bytes among the others, with a positive limit:
    when every record written is empty or framed by the chunk function,
    [Close] returns without error and the records of the output are the
    records written that hold bytes, each once, in order when the
    comparator is a strict weak ordering.  The empty ones are gone. *)
Theorem empty_records_are_left_out (rs : list bytes) (M : Z) (closer : bool)
    (fuel : nat) :
  0 < M -> Forall (fun r => r = [] \/ framed chunkFunc r) rs ->
  (2 * length rs + 3 <= fuel)%nat ->
  (sortRecords chunkFunc less fuel closer M rs).1.1 = Returned None /\
  recordsOf chunkFunc
    (outWritten (sortRecords chunkFunc less fuel closer M rs).2) ≡ₚ dropEmpty rs /\
  (StrictWeak less ->
   forall i a b,
     recordsOf chunkFunc
       (outWritten (sortRecords chunkFunc less fuel closer M rs).2) !! i = Some a ->
     recordsOf chunkFunc
       (outWritten (sortRecords chunkFunc less fuel closer M rs).2) !! S i = Some b ->
     less b a = false).
Proof.
  intros HM Hfr Hfuel. unfold sortRecords.
  destruct (Close_writeAll_loose rs M closer fuel HM Hfr Hfuel)
    as (L & se1 & w1 & -> & Hout & HL & HLs & _).
  cbn [fst snd]. rewrite Hout.
  assert (HLfr : Forall (framed chunkFunc) L).
  { apply Forall_forall. intros r Hr. rewrite HL in Hr.
    apply elem_of_dropEmpty in Hr as [Hr Hne]. rewrite Forall_forall in Hfr.
    by destruct (Hfr r Hr). }
  rewrite (recordsOf_concat chunkFunc less chunk_eof L HLfr).
  split; [done|]. split; [done|]. intros Hsw.
  by apply StronglySorted_adjacent, HLs.
Qed.

End LooseFacts.

Lemma empty_records_are_left_out_witness :
  let rs := [[]; demo.line "b"; []; demo.line "a"; demo.line "c"; []] in
  (sortRecords demo.chunkFunc demo.lessFunc 15 false 4 rs).1.1 = Returned None /\
  recordsOf demo.chunkFunc
    (extsort.outWritten (sortRecords demo.chunkFunc demo.lessFunc 15 false 4 rs).2)
    ≡ₚ dropEmpty rs /\
  (StrictWeak demo.lessFunc ->
   forall i a b,
     recordsOf demo.chunkFunc
       (extsort.outWritten (sortRecords demo.chunkFunc demo.lessFunc 15 false 4 rs).2)
       !! i = Some a ->
     recordsOf demo.chunkFunc
       (extsort.outWritten (sortRecords demo.chunkFunc demo.lessFunc 15 false 4 rs).2)
       !! S i = Some b ->
     demo.lessFunc b a = false).
Proof.
  intros rs.
  apply (empty_records_are_left_out demo.chunkFunc demo.lessFunc
           DemoFacts.chunkFunc_eofAtEnd rs 4 false 15).
  - lia.
  - repeat constructor; try (by left);
      right; apply DemoFacts.line_framed; reflexivity.
  - simpl. lia.
Defined.

(** ** The refill of one reader *)

Section RefillFacts.
Import fileheap HeapFacts.
Variable chunkFunc : Chunk.
Hypothesis chunk_eof : eofAtEnd chunkFunc.

Lemma fillFromFile_budget l : forall fuel budget i rb rests h,
  Forall (framed chunkFunc) l -> (length l < fuel)%nat ->
  exists taken left h1 (eof : bool),
    l = taken ++ left /\
    extsort.fillFromFile chunkFunc fuel budget i (concat l) rb (mergeState rests h) =
      (Returned None,
       mergeState (if eof then delete i rests else <[i := left]> rests) h1) /\
    entries h1 ≡ₚ (NewEntry i <$> taken) ++ entries h /\
    (eof = true -> left = [] /\ rb + sumLen l < budget \/ left = [] /\ l = []) /\
    (eof = false ->
     taken <> [] /\ budget <= rb + sumLen taken /\
     forall p r, taken = p ++ [r] -> p <> [] -> rb + sumLen p < budget).
Proof.
  induction l as [|r l IH]; intros fuel budget i rb rests h Hfr Hfuel;
    (destruct fuel as [|fuel]; [simpl in Hfuel; lia|]); rewrite fillFromFile_S.
  - destruct chunk_eof as (b & rest & He). simpl. rewrite He. simpl.
    exists [], [], h, true. unfold mergeState. simpl. rewrite fmap_delete.
    repeat split; try done. by right.
  - apply Forall_cons in Hfr as [Hr Hfr].
    rewrite (chunk_cons _ r l Hr). cbv zeta.
    cbn [mergeState extsort.files extsort.fileHeap].
    rewrite <-fmap_insert.
    fold (mergeState (<[i := l]> rests) (heap.Push h (NewEntry i r))).
    destruct (Z.leb_spec budget (rb + len r)) as [Hstop|Hmore].
    + exists [r], l, (heap.Push h (NewEntry i r)), false.
      split; [done|]. split; [done|]. split; [by rewrite Push_perm|].
      split; [done|]. intros _. split; [done|]. split; [simpl; lia|].
      intros p r0 Hp Hne. destruct p as [|? [|? ?]]; done.
    + destruct (IH fuel budget i (rb + len r) (<[i := l]> rests)
                  (heap.Push h (NewEntry i r)) Hfr)
        as (taken & left & h1 & eof & Hl & Hrun & Hperm & Heof & Hmore1).
      { simpl in Hfuel. lia. }
      exists (r :: taken), left, h1, eof.
      split; [by rewrite Hl|]. split.
      { rewrite Hrun. destruct eof.
        - by rewrite delete_insert_eq.
        - by rewrite insert_insert_eq. }
      split; [by rewrite Hperm, Push_perm, fmap_cons, <-Permutation_middle|].
      split.
      { intros E. left. destruct (Heof E) as [[-> Hb]|[-> ->]].
        - split; [done|]. cbn [sumLen foldr]. fold (sumLen l). lia.
        - split; [done|]. simpl. lia. }
      intros E. destruct (Hmore1 E) as (Hne & Hb & Hmin).
      split; [done|]. split; [cbn [sumLen foldr]; fold (sumLen taken); lia|].
      intros p r0 Hp Hpne. destruct p as [|r1 p]; [done|].
      injection Hp as <- Hp. cbn [sumLen foldr]. fold (sumLen p).
      destruct p as [|r2 p]; [simpl; lia|].
      specialize (Hmin (r2 :: p) r0 Hp ltac:(done)). lia.
Qed.

(** X18.  One reader in the refill, holding the framed records [l]: the
    inner loop of [fillHeap] pushes an entry for each record of a prefix
    [taken] of [l] and leaves the rest to the reader.  Either the bytes of
    [taken] have reached the budget, and no shorter prefix but the empty
    one has: the reader stays open even when nothing is left in it.  Or
    the records ran out before the budget was reached: everything is
    taken and the reader is deleted. *)
Theorem refill_reads_up_to_the_budget (l : list bytes) (fuel : nat) (budget : Z)
    (i : nat) (rests : gmap nat (list bytes)) (h : FileHeap) :
  Forall (framed chunkFunc) l -> (length l < fuel)%nat ->
  exists taken left h1,
    l = taken ++ left /\
    entries h1 ≡ₚ (NewEntry i <$> taken) ++ entries h /\
    (extsort.fillFromFile chunkFunc fuel budget i (concat l) 0 (mergeState rests h) =
       (Returned None, mergeState (<[i := left]> rests) h1) /\
     taken <> [] /\ budget <= sumLen taken /\
     (forall p r, taken = p ++ [r] -> p <> [] -> sumLen p < budget)
     \/
     extsort.fillFromFile chunkFunc fuel budget i (concat l) 0 (mergeState rests h) =
       (Returned None, mergeState (delete i rests) h1) /\
     left = [] /\ (l = [] \/ sumLen l < budget)).
Proof.
  intros Hfr Hfuel.
  destruct (fillFromFile_budget l fuel budget i 0 rests h Hfr Hfuel)
    as (taken & left & h1 & eof & Hl & Hrun & Hperm & Heof & Hmore).
  exists taken, left, h1. split; [done|]. split; [done|].
  destruct eof.
  - right. split; [done|]. destruct (Heof eq_refl) as [[-> Hb]|[-> ->]].
    + split; [done|]. right. lia.
    + split; [done|]. by left.
  - left. split; [done|]. destruct (Hmore eq_refl) as (Hne & Hb & Hmin).
    split; [done|]. split; [lia|]. intros p r Hp Hpne.
    specialize (Hmin p r Hp Hpne). lia.
Qed.

End RefillFacts.

Lemma refill_reads_up_to_the_budget_witness :
  let l := [demo.line "a"; demo.line "bb"; demo.line "c"] in
  exists taken left h1,
    l = taken ++ left /\
    fileheap.entries h1 ≡ₚ (fileheap.NewEntry 0 <$> taken) ++
      fileheap.entries (fileheap.NewHeap demo.lessFunc) /\
    (extsort.fillFromFile demo.chunkFunc 4 4 0 (concat l) 0
       (mergeState ∅ (fileheap.NewHeap demo.lessFunc)) =
       (Returned None, mergeState (<[0%nat := left]> ∅) h1) /\
     taken <> [] /\ 4 <= sumLen taken /\
     (forall p r, taken = p ++ [r] -> p <> [] -> sumLen p < 4)
     \/
     extsort.fillFromFile demo.chunkFunc 4 4 0 (concat l) 0
       (mergeState ∅ (fileheap.NewHeap demo.lessFunc)) =
       (Returned None, mergeState (delete 0%nat ∅) h1) /\
     left = [] /\ (l = [] \/ sumLen l < 4)).
Proof.
  intros l.
  apply (refill_reads_up_to_the_budget demo.chunkFunc DemoFacts.chunkFunc_eofAtEnd
           l 4 4 0 ∅ (fileheap.NewHeap demo.lessFunc)).
  - repeat constructor; apply DemoFacts.line_framed; reflexivity.
  - simpl. lia.
Defined.

(** ** The strategies of the driver *)

Section DriverStrategies.
Import demo.

Lemma to_N_inj (c1 c2 : byte) : Byte.to_N c1 = Byte.to_N c2 -> c1 = c2.
Proof.
  intros E. pose proof (Byte.of_to_N c1) as H1. pose proof (Byte.of_to_N c2) as H2.
  rewrite E in H1. congruence.
Qed.

Lemma bytesLess_total : forall a b,
  bytesLess a b = false -> bytesLess b a = false -> a = b.
Proof.
  induction a as [|c1 a IH]; intros [|c2 b]; simpl; try done.
  destruct (N.ltb_spec (Byte.to_N c1) (Byte.to_N c2)),
           (N.ltb_spec (Byte.to_N c2) (Byte.to_N c1)); try done.
  intros Hab Hba. f_equal; [apply to_N_inj; lia|by apply IH].
Qed.

Lemma bytesLess_lt_trans : forall a b c,
  bytesLess a b = true -> bytesLess b c = true -> bytesLess a c = true.
Proof.
  induction a as [|c1 a IH]; intros [|c2 b] [|c3 c]; simpl; try done.
  destruct (N.ltb_spec (Byte.to_N c1) (Byte.to_N c2)),
           (N.ltb_spec (Byte.to_N c2) (Byte.to_N c1)),
           (N.ltb_spec (Byte.to_N c2) (Byte.to_N c3)),
           (N.ltb_spec (Byte.to_N c3) (Byte.to_N c2)),
           (N.ltb_spec (Byte.to_N c1) (Byte.to_N c3)),
           (N.ltb_spec (Byte.to_N c3) (Byte.to_N c1)); try done; try lia.
  apply IH.
Qed.

Lemma bytesLess_prefix a b : b <> [] -> bytesLess a (a ++ b) = true.
Proof.
  intros Hb. induction a as [|c a IH]; simpl.
  - by destruct b.
  - destruct (N.ltb_spec (Byte.to_N c) (Byte.to_N c)); [lia|done].
Qed.

(** X19.  The comparator of the driver, [bytes.Compare(b1, b2) < 0], is
    a strict total order on byte slices: irreflexive, asymmetric,
    transitive, and two slices neither of which comes before the other are
    equal; a slice comes before each of its proper extensions. *)
Theorem lessFunc_is_a_strict_total_order :
  (forall a, lessFunc a a = false) /\
  (forall a b, lessFunc a b = true -> lessFunc b a = false) /\
  (forall a b c, lessFunc a b = true -> lessFunc b c = true -> lessFunc a c = true) /\
  (forall a b, lessFunc a b = false -> lessFunc b a = false -> a = b) /\
  (forall a b, b <> [] -> lessFunc a (a ++ b) = true).
Proof.
  split; [intros a; apply (HeapFacts.less_irrefl lessFunc a DemoFacts.lessFunc_StrictWeak)|].
  split; [apply DemoFacts.bytesLess_asym|].
  split; [apply bytesLess_lt_trans|].
  split; [apply bytesLess_total|apply bytesLess_prefix].
Qed.

(** X20.  The chunk function of the driver loses no byte: what it
    returns and what it leaves in the reader are the reader's bytes.
    Without error it returns the bytes up to the first delimiter and that
    delimiter.  Otherwise the error is [io.EOF], the reader held no
    delimiter, all of it is returned and nothing is left. *)
Theorem chunkFunc_splits_at_the_first_delimiter (r : bytes) :
  (chunkFunc r).1.1 ++ (chunkFunc r).2 = r /\
  match (chunkFunc r).1.2 with
  | None =>
      exists l, (chunkFunc r).1.1 = l ++ [linesDelim] /\ linesDelim ∉ l
  | Some e =>
      e = EOF /\ (chunkFunc r).2 = [] /\ linesDelim ∉ (chunkFunc r).1.1
  end.
Proof.
  unfold chunkFunc. generalize linesDelim. intros delim.
  induction r as [|c r IH]; simpl.
  - split; [done|]. split; [done|]. split; [done|]. apply not_elem_of_nil.
  - destruct (Byte.eqb c delim) eqn:Hc; simpl.
    + apply Byte.byte_dec_bl in Hc as ->. split; [done|]. exists [].
      split; [done|]. apply not_elem_of_nil.
    + assert (Hne : c <> delim).
      { intros ->. by rewrite Byte.byte_dec_lb in Hc. }
      destruct (ReadBytes delim r) as [[line err] rest]. simpl in *.
      destruct IH as [Hcat Hshape]. split; [by rewrite Hcat|].
      destruct err as [e|].
      * destruct Hshape as (-> & -> & Hl). repeat split; try done.
        by intros [?|?]%elem_of_cons.
      * destruct Hshape as (l & -> & Hl). exists (c :: l). split; [done|].
        by intros [?|?]%elem_of_cons.
Qed.

End DriverStrategies.

(** ** The generator *)

Section GeneratorFacts.
Import generator.

Lemma Int63_nonneg src k : 0 <= Int63 src k.
Proof. unfold Int63. apply Z.mod_pos_bound. lia. Qed.

Lemma pick_spec dictionary v :
  0 <= v ->
  match pick dictionary v with
  | inr c => c ∈ dictionary
  | inl _ => dictionary = []
  end.
Proof.
  intros Hv. unfold pick, len.
  destruct (Z.eqb_spec (Z.of_nat (length dictionary)) 0) as [E|E].
  - destruct dictionary; [done|simpl in E; lia].
  - assert (Hi : (Z.to_nat (Z.rem v (Z.of_nat (length dictionary))) <
                  length dictionary)%nat).
    { pose proof (Z.rem_bound_pos v (Z.of_nat (length dictionary)) Hv ltac:(lia)). lia. }
    destruct (lookup_lt_is_Some_2 _ _ Hi) as [c Hc]. rewrite Hc.
    by eapply list_elem_of_lookup_2.
Qed.

Lemma fill_spec dictionary src n : forall pos,
  match fill dictionary src pos n with
  | inr b => length b = n /\ Forall (fun c => c ∈ dictionary) b
  | inl _ => dictionary = [] /\ (0 < n)%nat
  end.
Proof.
  induction n as [|n IH]; intros pos; simpl; [done|].
  pose proof (pick_spec dictionary (Int63 src pos) (Int63_nonneg src pos)) as Hp.
  destruct (pick dictionary (Int63 src pos)) as [v|c]; [split; [done|lia]|].
  specialize (IH (S pos)).
  destruct (fill dictionary src (S pos) n) as [v|b].
  - destruct IH as [-> _]. by apply not_elem_of_nil in Hp.
  - destruct IH as [Hl Hb]. split; [simpl; lia|by constructor].
Qed.


Lemma generateRandomString_ok dictionary length src pos :
  dictionary <> [] -> 0 <= length ->
  exists s,
    generateRandomString dictionary length src pos = inr s /\
    len s = length /\ Forall (fun c => c ∈ dictionary) s.
Proof.
  intros Hd Hl. unfold generateRandomString.
  destruct (Z.ltb_spec length 0); [lia|].
  pose proof (fill_spec dictionary src (Z.to_nat length) pos) as Hf.
  destruct (fill dictionary src pos (Z.to_nat length)) as [v|b].
  - by destruct Hf.
  - destruct Hf as [Hn Hb]. exists b. split; [done|]. split; [unfold len; lia|done].
Qed.

Lemma generateLines_ok g src count : forall call pos handed,
  dictionary g <> [] -> 0 <= lineLength g ->
  exists lines,
    generateLines count call g src pos None handed =
      (Returned None, handed ++ concat lines) /\
    length lines = count /\ Forall (generatedLine g) lines.
Proof.
  induction count as [|count IH]; intros call pos handed Hd Hl.
  - exists []. simpl. by rewrite app_nil_r.
  - cbn [generateLines reports].
    destruct (generateRandomString_ok (dictionary g) (lineLength g) src pos Hd Hl)
      as (s & -> & Hlen & Hin).
    destruct (IH (S (S call)) (pos + Z.to_nat (lineLength g))%nat
                (handed ++ s ++ EncodeRune (linesDelim g)) Hd Hl)
      as (lines & -> & Hn & Hlines).
    exists ((s ++ EncodeRune (linesDelim g)) :: lines).
    split; [simpl; by rewrite <-!app_assoc|]. split; [simpl; lia|].
    constructor; [|done]. by exists s.
Qed.


(** *** What the writer's failure does to [Generate] *)

Lemma generateLines_before_fault g src k p e count : forall call pos handed,
  (call + 2 * count <= k)%nat ->
  generateLines count call g src pos (Some (FailsAt k p e)) handed =
  generateLines count call g src pos None handed.
Proof.
  induction count as [|count IH]; intros call pos handed Hk; [done|].
  cbn [generateLines reports].
  destruct (generateRandomString (dictionary g) (lineLength g) src pos) as [v|s];
    [done|].
  destruct (Nat.eqb_spec k call); [lia|].
  destruct (Nat.eqb_spec k (S call)); [lia|].
  apply IH. lia.
Qed.

Lemma generateLines_fault g src k p e count : forall call pos handed,
  dictionary g <> [] -> 0 <= lineLength g ->
  (call <= k < call + 2 * count)%nat ->
  (generateLines count call g src pos (Some (FailsAt k p e)) handed).1 =
    Returned (Some (Errorf writeErr e)).
Proof.
  induction count as [|count IH]; intros call pos handed Hd Hl Hk; [lia|].
  cbn [generateLines reports].
  destruct (generateRandomString_ok (dictionary g) (lineLength g) src pos Hd Hl)
    as (s & -> & _).
  destruct (Nat.eqb_spec k call); [done|].
  destruct (Nat.eqb_spec k (S call)); [done|].
  apply IH; try done. lia.
Qed.


(** *** [New] and the panics of [Generate] *)

Lemma New_dictionary d n l delim : dictionary (New d n l delim) <> [].
Proof. unfold New. by destruct d. Qed.



(** *** The generated file and the chunk function of the driver *)





End GeneratorFacts.




(** ** The driver *)

Section DriverFacts.
Import extsort.
Context `{GoSort}.

Lemma ReadBytes_no_delimiter delim (tail : bytes) :
  delim ∉ tail -> demo.ReadBytes delim tail = ((tail, Some EOF), []).
Proof.
  induction tail as [|c tail IH]; intros Hd; [done|]. simpl.
  destruct (Byte.eqb c delim) eqn:Hc.
  - apply Byte.byte_dec_bl in Hc as ->. destruct Hd. by left.
  - rewrite IH; [done|]. intros ?. apply Hd. by right.
Qed.

Lemma Write_no_fault less b se w :
  tmpDirExists w = true ->
  exists se1 w1,
    Write less None b se w = ((len b, None), se1, w1) /\ tmpDirExists w1 = true.
Proof.
  intros Hd. unfold Write, flushToTempFile. simpl. rewrite Hd. simpl.
  destruct (_ <=? _); eauto.
Qed.

Lemma readLines_lines (lines : list bytes) (tail : bytes) : forall fuel se w,
  Forall (framed demo.chunkFunc) lines -> demo.linesDelim ∉ tail ->
  tmpDirExists w = true -> (length lines < fuel)%nat ->
  demo.readLines fuel (concat lines ++ tail) se w =
    (Returned None,
     (writeAll demo.lessFunc (lines ++ [tail]) (se, w)).1,
     (writeAll demo.lessFunc (lines ++ [tail]) (se, w)).2).
Proof.
  induction lines as [|r lines IH]; intros fuel se w Hfr Ht Hd Hfuel;
    (destruct fuel as [|fuel]; [simpl in Hfuel; lia|]).
  - cbn [concat app demo.readLines]. rewrite ReadBytes_no_delimiter by done.
    destruct (Write_no_fault demo.lessFunc tail se w Hd) as (se1 & w1 & HW & _).
    unfold writeAll. cbn [foldl fst snd]. by rewrite HW.
  - apply Forall_cons in Hfr as [Hr Hfr].
    cbn [concat demo.readLines]. rewrite <-app_assoc.
    pose proof (Hr (concat lines ++ tail)) as Hchunk.
    unfold demo.chunkFunc in Hchunk. rewrite Hchunk.
    destruct (Write_no_fault demo.lessFunc r se w Hd) as (se1 & w1 & HW & Hd1).
    rewrite HW. rewrite IH by (try done; simpl in Hfuel; lia).
    unfold writeAll. cbn [app foldl fst snd]. by rewrite HW.
Qed.

(** The same, with the fuel [sortLargeFile] gives the loop. *)
Lemma readLines_input (lines : list bytes) (se : sortEngine) (w : World) :
  Forall (framed demo.chunkFunc) lines -> tmpDirExists w = true ->
  demo.readLines (S (length (concat lines))) (concat lines) se w =
    (Returned None,
     (writeAll demo.lessFunc (lines ++ [[]]) (se, w)).1,
     (writeAll demo.lessFunc (lines ++ [[]]) (se, w)).2).
Proof.
  intros Hfr Hd.
  pose proof (readLines_lines lines [] (S (length (concat lines))) se w Hfr
                ltac:(apply not_elem_of_nil) Hd) as Hread.
  rewrite app_nil_r in Hread. apply Hread.
  pose proof (length_concat_framed demo.chunkFunc demo.lessFunc
                DemoFacts.chunkFunc_eofAtEnd lines Hfr). lia.
Qed.

(** X26.  The loop of the driver over an input made of lines that end
    with their only delimiter, followed by bytes [tail] without
    delimiter: it hands every line to [Write], in order, and then [tail],
    also when [tail] is empty, because it writes what was read before it
    looks at the end of the file.  It ends without panic as long as the
    directory of the engine is there. *)
Theorem readLines_writes_every_line (lines : list bytes) (tail : bytes)
    (se : sortEngine) (w : World) :
  Forall (framed demo.chunkFunc) lines -> demo.linesDelim ∉ tail ->
  tmpDirExists w = true ->
  demo.readLines (S (length (concat lines ++ tail))) (concat lines ++ tail) se w =
    (Returned None,
     (writeAll demo.lessFunc (lines ++ [tail]) (se, w)).1,
     (writeAll demo.lessFunc (lines ++ [tail]) (se, w)).2).
Proof.
  intros Hfr Ht Hd. apply readLines_lines; try done.
  pose proof (length_concat_framed demo.chunkFunc demo.lessFunc
                DemoFacts.chunkFunc_eofAtEnd lines Hfr).
  rewrite length_app. lia.
Qed.





Lemma writeAll_snoc less rs b sw :
  writeAll less (rs ++ [b]) sw =
    ((Write less None b (writeAll less rs sw).1 (writeAll less rs sw).2).1.2,
     (Write less None b (writeAll less rs sw).1 (writeAll less rs sw).2).2).
Proof.
  unfold writeAll. rewrite foldl_app. cbn [foldl].
  by destruct (Write less None b _ _) as [[? ?] ?].
Qed.

(** X28.  The limit the driver passes is 120 bytes: [mb] is [10 ^ 6],
    the exclusive or of 10 and 6, that is 12.  Its lines are 30 bytes and
    a delimiter, so a run is spilled with every fourth line: an input of
    [k] such lines makes [ceil(k / 4)] runs, 250000 for the 1000000 lines
    the driver generates. *)
Theorem driver_spills_every_fourth_line (lines : list bytes) (fuel : nat) :
  Forall (framed demo.chunkFunc) lines ->
  Forall (fun b => len b = demo.lineLength + 1) lines ->
  demo.memLimit = 120 /\
  Z.of_nat
    (tmpFilesNumber
       (Close demo.chunkFunc demo.lessFunc fuel noFaults
          (demo.readLines (S (length (concat lines))) (concat lines)
             (fresh true demo.memLimit).1 (fresh true demo.memLimit).2).1.2
          (demo.readLines (S (length (concat lines))) (concat lines)
             (fresh true demo.memLimit).1 (fresh true demo.memLimit).2).2).1.2) =
    ceilDiv (len lines) 4 /\
  (len lines = demo.linesNumber -> ceilDiv (len lines) 4 = 250000).
Proof.
  intros Hfr Hlen. split; [reflexivity|].
  split; [|by intros ->].
  rewrite (readLines_input lines (fresh true demo.memLimit).1
             (fresh true demo.memLimit).2 Hfr eq_refl).
  cbn [fst snd].
  rewrite writeAll_snoc. cbn [fst snd].
  destruct (writeAll_uniform demo.lessFunc 31 120 4 lines) with
    (se := (fresh true demo.memLimit).1) (w := (fresh true demo.memLimit).2) (t := 0)
    as (Hd & HM & Hn & Hu); try done; try lia.
  change ((fresh true demo.memLimit).1, (fresh true demo.memLimit).2)
    with (fresh true demo.memLimit) in Hd, HM, Hn, Hu |- *.
  set (sw := writeAll demo.lessFunc lines (fresh true demo.memLimit)) in *.
  simpl in Hn. rewrite !Z.add_0_l in Hn, Hu.
  assert (0 <= len lines) by (unfold len; lia).
  pose proof (Z.mod_pos_bound (len lines) 4 ltac:(lia)) as Hb.
  destruct (Write_counters demo.lessFunc [] sw.1 sw.2 Hd) as (Hd1 & HM1 & Hc).
  rewrite HM, Hu in Hc. change (len (@nil byte)) with 0 in Hc.
  destruct (Z.leb_spec 120 (31 * (len lines mod 4) + 0)); [lia|].
  destruct Hc as [Hn1 Hu1].
  rewrite Close_counters by done. rewrite Hu1, Hn1.
  rewrite (ceilDiv_split (len lines) 4) by lia.
  destruct (Z.ltb_spec 0 (31 * (len lines mod 4) + 0)),
           (Z.ltb_spec 0 (len lines mod 4)); lia.
Qed.


(** X29.  A writer that fails under [generateLargeFile].  When a call of
    the loop of [Generate] reports the failure, [generateLargeFile]
    panics, but the value of the panic is built from the error of the
    creation of the file, nil at that point: whatever the failure was, it
    is not in the panic.  When only the deferred flush meets the failure,
    [generateLargeFile] returns as if all were well, and the file holds
    only what had reached it. *)
Theorem generation_failure_loses_its_cause (src : nat -> Z) (k p : nat)
    (e : error) (old : bytes) :
  ((k < 2 * Z.to_nat demo.linesNumber)%nat ->
   (demo.generateLargeFile None src (Some (generator.FailsAt k p e)) old).1 =
     Panicked (Errorf "cannot generate %s: %s" demo.nilError)) /\
  ((2 * Z.to_nat demo.linesNumber <= k)%nat ->
   demo.generateLargeFile None src (Some (generator.FailsAt k p e)) old =
     (Returned None,
      overwrite old
        (take p (demo.generateLargeFile None src None []).2))).
Proof.
  unfold demo.generateLargeFile, generator.Generate.
  set (g := generator.New [] demo.linesNumber demo.lineLength
              (Z.of_N (Byte.to_N demo.linesDelim))).
  assert (Hd : generator.dictionary g <> []) by apply New_dictionary.
  assert (Hl : 0 <= generator.lineLength g) by (unfold g, demo.lineLength; cbn; lia).
  change (generator.linesNumber g) with demo.linesNumber.
  generalize (Z.to_nat demo.linesNumber). intros count. split; intros Hk.
  - pose proof (generateLines_fault g src k p e count 0%nat 0%nat [] Hd Hl
                  ltac:(lia)) as Hf.
    destruct (generator.generateLines _ _ _ _ _ (Some _) _) as [r handed].
    cbn [fst] in Hf. by rewrite Hf.
  - rewrite generateLines_before_fault by lia.
    destruct (generateLines_ok g src count 0%nat 0%nat [] Hd Hl) as (lines & -> & _).
    by rewrite overwrite_new.
Qed.

End DriverFacts.


Lemma driver_spills_every_fourth_line_witness :
  let lines := replicate 6 (demo.line "0123456789abcdefghijklmnopqrst") in
  demo.memLimit = 120 /\
  Z.of_nat
    (extsort.tmpFilesNumber
       (extsort.Close demo.chunkFunc demo.lessFunc 20 extsort.noFaults
          (demo.readLines (S (length (concat lines))) (concat lines)
             (extsort.fresh true demo.memLimit).1 (extsort.fresh true demo.memLimit).2).1.2
          (demo.readLines (S (length (concat lines))) (concat lines)
             (extsort.fresh true demo.memLimit).1 (extsort.fresh true demo.memLimit).2).2).1.2) =
    ceilDiv (len lines) 4 /\
  (len lines = demo.linesNumber -> ceilDiv (len lines) 4 = 250000).
Proof.
  intros lines. apply (driver_spills_every_fourth_line lines 20).
  - repeat constructor; apply DemoFacts.line_framed; reflexivity.
  - repeat constructor.
Defined.

Lemma readLines_writes_every_line_witness :
  let lines := [demo.line "b"; demo.line "a"] in
  let tail := list_byte_of_string "zz" in
  demo.readLines (S (length (concat lines ++ tail))) (concat lines ++ tail)
    (extsort.fresh false 100).1 (extsort.fresh false 100).2 =
    (Returned None,
     (extsort.writeAll demo.lessFunc (lines ++ [tail])
        ((extsort.fresh false 100).1, (extsort.fresh false 100).2)).1,
     (extsort.writeAll demo.lessFunc (lines ++ [tail])
        ((extsort.fresh false 100).1, (extsort.fresh false 100).2)).2).
Proof.
  intros lines tail.
  apply (readLines_writes_every_line lines tail
           (extsort.fresh false 100).1 (extsort.fresh false 100).2).
  - repeat constructor; apply DemoFacts.line_framed; reflexivity.
  - intros H. repeat (apply elem_of_cons in H as [H|H]; [discriminate|]).
    by apply not_elem_of_nil in H.
  - reflexivity.
Defined.


(** ** The whole program *)

Section MainFacts.
Context `{GoSort}.



End MainFacts.
